(** * Search query compilation and keyset pagination of the STAC API core client

    A shallow embedding of [CoreCrudClient] (stac_api/clients/postgres/core.py):
    the query that [post_search] compiles, its execution over an item store,
    the paging wrapper, the response envelope, the error handling of
    [post_search] and [item_collection], and the parameter parsing of
    [get_search]. *)

From Stdlib Require Import ZArith String Ascii.
From stdpp Require Import gmap strings list sorting pretty.

Local Open Scope string_scope.
Local Open Scope list_scope.

(** ** Values, items and the store *)

(** A scalar stored in a column or under a key of the open [properties]
    mapping. *)
Inductive value :=
| VNull
| VInt (z : Z)
| VStr (s : string).

(** Coordinates and timestamps are numbers of which only the order is used
    (comparison, [min], [max]); they are integers here. *)
Definition Box : Type := Z * Z * Z * Z.

Module Item.
Record t := {
    id : string;
    collection_id : string;
    geometry : list (Z * Z);
    datetime : Z;
    bbox : Box;
    properties : gmap string value
  }.
End Item.

(** What the store evaluates itself: the rows of the item table and the
    spatial predicate [ST_Intersects] of the database. *)
Record Database := {
  db_items : list Item.t;
  ST_Intersects : list (Z * Z) -> Box -> bool
}.

(** ** Columns and ordering *)

Inductive column :=
| ColId
| ColCollection
| ColDatetime
| ColProperty (name : string).

(** Modelled from the spec: [database.Item.get_field] is not part of the
    sources at hand.  A field name resolves either to an indexed column or to
    a path inside the open properties mapping. *)
Definition get_field (field_name : string) : column :=
  if String.eqb field_name "id" then ColId
  else if String.eqb field_name "collection" then ColCollection
  else if String.eqb field_name "datetime" then ColDatetime
  else ColProperty field_name.

Definition column_value (c : column) (it : Item.t) : value :=
  match c with
  | ColId => VStr (Item.id it)
  | ColCollection => VStr (Item.collection_id it)
  | ColDatetime => VInt (Item.datetime it)
  | ColProperty name => default VNull (Item.properties it !! name)
  end.

(** The order of the store on scalars: nulls first, then numbers, then
    text. *)
Definition value_compare (a b : value) : comparison :=
  match a, b with
  | VNull, VNull => Eq
  | VNull, _ => Lt
  | _, VNull => Gt
  | VInt x, VInt y => Z.compare x y
  | VInt _, VStr _ => Lt
  | VStr _, VInt _ => Gt
  | VStr s, VStr t => String.compare s t
  end.

Inductive direction := asc | desc.

(** One element of an ORDER BY list: [column.asc()] or [column.desc()]; a
    bare column sorts ascending. *)
Record order_clause := { oc_column : column; oc_direction : direction }.

Definition dir_compare (d : direction) (a b : value) : comparison :=
  match d with
  | asc => value_compare a b
  | desc => CompOpp (value_compare a b)
  end.

(** Sort-key tuples (markers) are compared column by column. *)
Fixpoint compare_keys (ds : list direction) (k1 k2 : list value) : comparison :=
  match ds, k1, k2 with
  | d :: ds', v1 :: k1', v2 :: k2' =>
      match dir_compare d v1 v2 with
      | Eq => compare_keys ds' k1' k2'
      | c => c
      end
  | _, _, _ => Eq
  end.

Definition marker (obs : list order_clause) (it : Item.t) : list value :=
  map (fun oc => column_value (oc_column oc) it) obs.

Definition directions (obs : list order_clause) : list direction :=
  map oc_direction obs.

Definition compare_rows (obs : list order_clause) (a b : Item.t) : comparison :=
  compare_keys (directions obs) (marker obs a) (marker obs b).

Definition is_lt (c : comparison) : bool :=
  match c with Lt => true | _ => false end.

Definition is_gt (c : comparison) : bool :=
  match c with Gt => true | _ => false end.

(** [a] does not come after [b] in the ORDER BY list [obs]. *)
Definition row_le (obs : list order_clause) (a b : Item.t) : Prop :=
  compare_rows obs a b <> Gt.

Global Instance comparison_eq_dec : EqDecision comparison.
Proof. solve_decision. Defined.

Global Instance row_le_dec obs : RelDecision (row_le obs).
Proof. intros a b. unfold row_le. apply _. Defined.

(** ** Exceptions and effects *)

(** The exceptions the client can see.  [NotFoundError] and [DatabaseError]
    are the classes of [stac_api.errors]; [StoreException] stands for any
    other [Exception] raised by the store or the token table. *)
Inductive exn :=
| NotFoundError (msg : string)
| DatabaseError (msg : string)
| IndexError
| ValueError
| StoreException (msg : string).

Definition result (A : Type) : Type := exn + A.

(** The filter clauses the client attaches to a query. *)
Inductive Operator := op_eq | op_ne | op_lt | op_le | op_gt | op_ge.

Inductive clause :=
| CollectionIn (cols : list string)
| IdIn (ids : list string)
| Intersects (poly : Box)
| Between (lo hi : Z)
| DatetimeGe (lo : Z)
| DatetimeLe (hi : Z)
| FieldOp (op : Operator) (c : column) (v : value).

(** A SQLAlchemy [Query] on the item table: the accumulated WHERE clauses
    (a conjunction) and the accumulated ORDER BY list. *)
Record Query := { q_filters : list clause; q_order : list order_clause }.

Definition base_query : Query := {| q_filters := []; q_order := [] |}.

(** [Query.filter] adds one more conjunct. *)
Definition filter_by (c : clause) (q : Query) : Query :=
  {| q_filters := q_filters q ++ [c]; q_order := q_order q |}.

(** [Query.order_by] with one or more criteria extends the ORDER BY list that is already
    there; only [order_by(None)] clears it. *)
Definition order_by (obs : list order_clause) (q : Query) : Query :=
  {| q_filters := q_filters q; q_order := q_order q ++ obs |}.

Definition order_by_None (q : Query) : Query :=
  {| q_filters := q_filters q; q_order := [] |}.

(** A pagination bookmark of the paging library: a sort-key tuple and the
    direction of travel. *)
Definition bookmark : Type := option (list value) * bool.

(** What the client observes of its collaborators, in order. *)
Inductive event :=
| EvTokenGet (token : string)
| EvTokenInsert (keyset : bookmark)
| EvCount (q : Query)
| EvRows (q : Query)
| EvLog (e : exn).

(** Computations of the client: a trace of events and a result or a raised
    exception. *)
Definition M (A : Type) : Type := list event * result A.

Definition ret {A} (a : A) : M A := ([], inr a).

Definition raise {A} (e : exn) : M A := ([], inl e).

Definition bind {A B} (m : M A) (f : A -> M B) : M B :=
  match m with
  | (tr, inl e) => (tr, inl e)
  | (tr, inr a) => let (tr', r) := f a in (tr ++ tr', r)
  end.

(** [try: m except Exception as e: h e] *)
Definition try_except {A} (m : M A) (h : exn -> M A) : M A :=
  match m with
  | (tr, inl e) => let (tr', r) := h e in (tr ++ tr', r)
  | (tr, inr a) => (tr, inr a)
  end.

Definition call {A} (ev : event) (r : result A) : M A := ([ev], r).

(** [logger.error(e, exc_info=True)] *)
Definition logger_error (e : exn) : M unit := ([EvLog e], inr tt).

Global Instance M_ret : MRet M := @ret.
Global Instance M_bind : MBind M := fun A B f m => bind m f.

(** The reader session: executing a query for its rows and executing a
    count statement. *)
Record Session := {
  execute_rows : Query -> result (list Item.t);
  execute_count : Query -> result nat
}.

(** The token table client ([PaginationTokenClient], not part of the sources
    at hand): [get] resolves a token to the stored keyset, [insert] stores a
    keyset and returns its token. *)
Record PaginationTokenClient := {
  pc_get : string -> result bookmark;
  pc_insert : bookmark -> result string
}.

Record CoreCrudClient := {
  reader_session : Session;
  pagination_client : PaginationTokenClient;
  context_extension : bool;
  fields_extension : bool
}.

(** ** Evaluation of a query by the store *)

Definition string_in (s : string) (l : list string) : bool :=
  existsb (String.eqb s) l.

Definition eval_op (op : Operator) (a b : value) : bool :=
  match op, value_compare a b with
  | op_eq, Eq => true
  | op_ne, (Lt | Gt) => true
  | op_lt, Lt => true
  | op_le, (Lt | Eq) => true
  | op_gt, Gt => true
  | op_ge, (Gt | Eq) => true
  | _, _ => false
  end.

Definition eval_clause (db : Database) (c : clause) (it : Item.t) : bool :=
  match c with
  | CollectionIn cols => string_in (Item.collection_id it) cols
  | IdIn ids => string_in (Item.id it) ids
  | Intersects poly => ST_Intersects db (Item.geometry it) poly
  | Between lo hi => (lo <=? Item.datetime it)%Z && (Item.datetime it <=? hi)%Z
  | DatetimeGe lo => (lo <=? Item.datetime it)%Z
  | DatetimeLe hi => (Item.datetime it <=? hi)%Z
  | FieldOp op c v => eval_op op (column_value c it) v
  end.

Definition eval_filters (db : Database) (cs : list clause) (it : Item.t) : bool :=
  forallb (fun c => eval_clause db c it) cs.

(** The rows a query denotes: the items passing every WHERE clause, in the
    ORDER BY order. *)
Definition result_set (db : Database) (q : Query) : list Item.t :=
  merge_sort (row_le (q_order q)) (filter (fun it => eval_filters db (q_filters q) it = true) (db_items db)).

Definition db_session (db : Database) : Session :=
  {| execute_rows := fun q => inr (result_set db q);
     execute_count := fun q =>
       inr (length (filter (fun it => eval_filters db (q_filters q) it = true) (db_items db))) |}.

(** ** Keyset paging

    [get_page] is the paging library's entry point: it runs the query from a
    bookmark on, one row more than the page holds, and wraps the rows in a
    page that knows its four markers. *)
Module Paging.
Record t := {
    rows : list Item.t;
    before_first : option (list value);
    first : option (list value);
    last : option (list value);
    beyond_last : option (list value)
  }.
End Paging.

(** Truth value of a marker: [None] and the empty tuple are false. *)
Definition marker_bool (m : option (list value)) : bool :=
  match m with
  | Some (_ :: _) => true
  | _ => false
  end.

(** [a or b] on markers. *)
Definition marker_or (a b : option (list value)) : option (list value) :=
  if marker_bool a then a else b.

Definition has_next (p : Paging.t) : bool := marker_bool (Paging.beyond_last p).

Definition has_previous (p : Paging.t) : bool := marker_bool (Paging.before_first p).

Definition bookmark_next (p : Paging.t) : bookmark := (marker_or (Paging.last p) (Paging.before_first p), false).

Definition bookmark_previous (p : Paging.t) : bookmark := (marker_or (Paging.first p) (Paging.beyond_last p), true).

Definition make_paging (obs : list order_clause) (per_page : nat) (backwards : bool)
    (marker_0 : option (list value)) (fetched : list Item.t) : Paging.t :=
  let excess := drop per_page fetched in
  let rows := take per_page fetched in
  let marker_1 := marker obs <$> head rows in
  let marker_n := marker obs <$> last rows in
  let marker_nplus1 := marker obs <$> head excess in
  if backwards
  then {| Paging.rows := reverse rows;
          Paging.before_first := marker_nplus1;
          Paging.first := marker_n;
          Paging.last := marker_1;
          Paging.beyond_last := marker_0 |}
  else {| Paging.rows := rows;
          Paging.before_first := marker_0;
          Paging.first := marker_1;
          Paging.last := marker_n;
          Paging.beyond_last := marker_nplus1 |}.

(** The rows strictly beyond the place in the direction of travel. *)
Definition beyond (obs : list order_clause) (backwards : bool) (place : option (list value))
    (r : Item.t) : bool :=
  match place with
  | None => true
  | Some p =>
      if backwards
      then is_gt (compare_keys (directions obs) p (marker obs r))
      else is_lt (compare_keys (directions obs) p (marker obs r))
  end.

Definition fetch_window (obs : list order_clause) (per_page : nat) (backwards : bool)
    (place : option (list value)) (all : list Item.t) : list Item.t :=
  let ordered := if backwards then reverse all else all in
  take (S per_page) (filter (fun r => beyond obs backwards place r = true) ordered).

(** The page cut from the ordered rows of the query.  A request without a
    bookmark starts at the beginning of the stream, forwards. *)
Definition paginate (obs : list order_clause) (per_page : nat) (page : option bookmark)
    (all : list Item.t) : Paging.t :=
  let '(place, backwards) := default (None, false) page in
  make_paging obs per_page backwards place (fetch_window obs per_page backwards place all).

Definition get_page (s : Session) (q : Query) (per_page : nat) (page : option bookmark)
    : M Paging.t :=
  all ← call (EvRows q) (execute_rows s q);
  mret (paginate (q_order q) per_page page all).

(** ** Requests and responses *)

Module SortExtension.
Record t := { field : string; direction : direction }.
End SortExtension.

Module FieldsExtension.
Record t := { include : gset string; exclude : gset string }.
End FieldsExtension.

(** An end of a temporal interval: the open marker [".."] or an instant. *)
Inductive endpoint := Open | Instant (t : Z).

Module STACSearch.
Record t := {
    collections : option (list string);
    ids : option (list string);
    bbox : option Box;
    datetime : option (endpoint * endpoint);
    limit : nat;
    query : option (list (string * list (Operator * value)));
    token : option string;
    sortby : option (list SortExtension.t);
    field : FieldsExtension.t
  }.
End STACSearch.

(** Modelled from the spec: [STACSearch.polygon] is not part of the sources at
    hand.  The spatial filter is the request's bbox taken as a polygon, when
    one is given. *)
Definition polygon (search_request : STACSearch.t) : option Box :=
  STACSearch.bbox search_request.

Inductive Relations := rel_next | rel_previous.

Module PaginationLink.
Record t := {
    rel : Relations;
    type : string;
    href : string;
    method : string;
    body : option (list (string * string));
    merge : bool
  }.
End PaginationLink.

Module Context.
Record t := { returned : nat; limit : nat; matched : option nat }.
End Context.

(** The dictionary [post_search] returns.  A feature is the item model to
    serialise together with the include/exclude arguments it is serialised
    with. *)
Module SearchResponse.
Record t := {
    type : string;
    context : option Context.t;
    features : list (Item.t * option FieldsExtension.t);
    links : list PaginationLink.t;
    bbox : option Box
  }.
End SearchResponse.

Module ItemCollection.
Record t := {
    type : string;
    context : option Context.t;
    features : list Item.t;
    links : list PaginationLink.t
  }.
End ItemCollection.

(** ** The client *)

(** Truth value of an optional list or string: [None] and the empty value are
    false. *)
Definition nonempty {A} (o : option (list A)) : option (list A) :=
  match o with
  | Some (x :: l) => Some (x :: l)
  | _ => None
  end.

Definition str_bool (o : option string) : bool :=
  match o with
  | Some (String _ _) => true
  | _ => false
  end.

Definition id_column : order_clause := {| oc_column := ColId; oc_direction := asc |}.

Definition datetime_desc : order_clause := {| oc_column := ColDatetime; oc_direction := desc |}.

(** [getattr(self.table.get_field(sort.field), sort.direction.value)()] *)
Definition sort_field (sort : SortExtension.t) : order_clause :=
  {| oc_column := get_field (SortExtension.field sort);
     oc_direction := SortExtension.direction sort |}.

(** Filter by collection: the join with the collection table and the
    disjunction over the requested collection ids. *)
Definition filter_collections (search_request : STACSearch.t) (query : Query) : Query :=
  match nonempty (STACSearch.collections search_request) with
  | Some cols => filter_by (CollectionIn cols) query
  | None => query
  end.

(** Sort. *)
Definition apply_sort (search_request : STACSearch.t) (query : Query) : Query :=
  match nonempty (STACSearch.sortby search_request) with
  | Some sortby => order_by (map sort_field sortby ++ [id_column]) query
  | None => order_by [datetime_desc; id_column] query
  end.

(** Spatial query. *)
Definition spatial_filter (search_request : STACSearch.t) (query : Query) : Query :=
  match polygon search_request with
  | Some poly => filter_by (Intersects poly) query
  | None => query
  end.

(** Temporal query: the two tailed filter when neither end is open, then the
    filter on each end that is not open. *)
Definition temporal_clauses (interval : endpoint * endpoint) : list clause :=
  let '(start, stop) := interval in
  match start, stop with
  | Instant a, Instant b => [Between a b]
  | _, _ => []
  end
  ++ match start with Instant a => [DatetimeGe a] | Open => [] end
  ++ match stop with Instant b => [DatetimeLe b] | Open => [] end.

Definition temporal_filter (search_request : STACSearch.t) (query : Query) : Query :=
  match STACSearch.datetime search_request with
  | Some interval => foldl (fun q c => filter_by c q) query (temporal_clauses interval)
  | None => query
  end.

(** Query fields. *)
Definition query_clauses (fields : list (string * list (Operator * value))) : list clause :=
  flat_map (fun '(field_name, expr) =>
              map (fun '(op, v) => FieldOp op (get_field field_name) v) expr) fields.

Definition query_filter (search_request : STACSearch.t) (query : Query) : Query :=
  match nonempty (STACSearch.query search_request) with
  | Some fields => foldl (fun q c => filter_by c q) query (query_clauses fields)
  | None => query
  end.

(** [self.pagination_client.insert(keyset=b) if flag else None] *)
Definition insert_if (self : CoreCrudClient) (flag : bool) (b : bookmark) : M (option string) :=
  if flag
  then t ← call (EvTokenInsert b) (pc_insert (pagination_client self) b); mret (Some t)
  else mret None.

(** A page with its dynamic attributes [next] and [previous]. *)
Definition page_with_tokens (self : CoreCrudClient) (query : Query) (per_page : nat)
    (token : option bookmark) : M (Paging.t * option string * option string) :=
  page ← get_page (reader_session self) query per_page token;
  next ← insert_if self (has_next page) (bookmark_next page);
  previous ← insert_if self (has_previous page) (bookmark_previous page);
  mret (page, next, previous).

(** [query.statement.with_only_columns([func.count()]).order_by(None)],
    executed for its scalar. *)
Definition count_rows (self : CoreCrudClient) (query : Query) : M nat :=
  call (EvCount (order_by_None query)) (execute_count (reader_session self) (order_by_None query)).

Definition search_link (base_url : string) (r : Relations) (t : string) : PaginationLink.t :=
  {| PaginationLink.rel := r;
     PaginationLink.type := "application/geo+json";
     PaginationLink.href := base_url +:+ "search";
     PaginationLink.method := "POST";
     PaginationLink.body := Some [("token", t)];
     PaginationLink.merge := true |}.

(** [if t: links.append(...)]: a link for a token that is neither [None] nor
    empty. *)
Definition link_if (mk : string -> PaginationLink.t) (t : option string) : list PaginationLink.t :=
  match t with
  | Some s => if str_bool t then [mk s] else []
  | None => []
  end.

(** [min] and [max] of a Python list raise [ValueError] on the empty list. *)
Definition py_min (l : list Z) : result Z :=
  match l with
  | [] => inl ValueError
  | x :: l' => inr (foldl Z.min x l')
  end.

Definition py_max (l : list Z) : result Z :=
  match l with
  | [] => inl ValueError
  | x :: l' => inr (foldl Z.max x l')
  end.

Definition xvals_of (page : list Item.t) : list Z :=
  flat_map (fun it => let '(x0, _, x1, _) := Item.bbox it in [x0; x1]) page.

Definition yvals_of (page : list Item.t) : list Z :=
  flat_map (fun it => let '(_, y0, _, y1) := Item.bbox it in [y0; y1]) page.

(** [try: bbox = (min(xvals), min(yvals), max(xvals), max(yvals))
    except ValueError: bbox = None] *)
Definition envelope (xvals yvals : list Z) : option Box :=
  match py_min xvals, py_min yvals, py_max xvals, py_max yvals with
  | inr x0, inr y0, inr x1, inr y1 => Some (x0, y0, x1, y1)
  | _, _, _, _ => None
  end.

Definition database_error {A} (msg : string) (e : exn) : M A :=
  _ ← logger_error e; raise (DatabaseError msg).

(** [self.pagination_client.get(token) if token else False] *)
Definition resolve_token (self : CoreCrudClient) (token : option string) : M (option bookmark) :=
  match token with
  | Some t =>
      if str_bool (Some t)
      then b ← call (EvTokenGet t) (pc_get (pagination_client self) t); mret (Some b)
      else mret None
  | None => mret None
  end.

(** The branch taken when [ids] is present: the other parameters are
    ignored. *)
Definition search_by_ids (self : CoreCrudClient) (search_request : STACSearch.t)
    (query : Query) (token : option bookmark) (ids : list string)
    : M (Paging.t * option string * option string * option nat) :=
  try_except
    (let items := order_by [id_column] (filter_by (IdIn ids) query) in
     '(page, next, previous) ←
       page_with_tokens self items (STACSearch.limit search_request) token;
     let count := if context_extension self then Some (length ids) else None in
     mret (page, next, previous, count))
    (database_error "Unhandled database error when searching for items by id").

(** The branch taken otherwise: spatial, temporal and field filters, the
    count, the page. *)
Definition search_by_filters (self : CoreCrudClient) (search_request : STACSearch.t)
    (query : Query) (token : option bookmark)
    : M (Paging.t * option string * option string * option nat) :=
  let query := spatial_filter search_request query in
  let query := temporal_filter search_request query in
  let query := query_filter search_request query in
  try_except
    (count ← (if context_extension self
              then n ← count_rows self query; mret (Some n)
              else mret None);
     '(page, next, previous) ←
       page_with_tokens self query (STACSearch.limit search_request) token;
     mret (page, next, previous, count))
    (database_error "Unhandled database error during spatial/temporal query").

(** The links, features, bbox and context of the response. *)
Definition search_response (self : CoreCrudClient) (base_url : string)
    (search_request : STACSearch.t) (page : Paging.t) (next previous : option string)
    (count : option nat) : SearchResponse.t :=
  let links := link_if (search_link base_url rel_next) next
               ++ link_if (search_link base_url rel_previous) previous in
  let filter_kwargs :=
    if fields_extension self then Some (STACSearch.field search_request) else None in
  let response_features := map (fun item => (item, filter_kwargs)) (Paging.rows page) in
  let bbox := envelope (xvals_of (Paging.rows page)) (yvals_of (Paging.rows page)) in
  let context_obj :=
    if context_extension self
    then Some {| Context.returned := length (Paging.rows page);
Context.limit := STACSearch.limit search_request;
Context.matched := count |}
    else None in
  {| SearchResponse.type := "FeatureCollection";
     SearchResponse.context := context_obj;
     SearchResponse.features := response_features;
     SearchResponse.links := links;
     SearchResponse.bbox := bbox |}.

Definition post_search (self : CoreCrudClient) (base_url : string)
    (search_request : STACSearch.t) : M SearchResponse.t :=
  token ← resolve_token self (STACSearch.token search_request);
  let query := base_query in
  let query := filter_collections search_request query in
  let query := apply_sort search_request query in
  '(page, next, previous, count) ←
    (match nonempty (STACSearch.ids search_request) with
     | Some ids => search_by_ids self search_request query token ids
     | None => search_by_filters self search_request query token
     end);
  mret (search_response self base_url search_request page next previous count).

(** The query [post_search] hands to the paging library. *)
Definition search_query (search_request : STACSearch.t) : Query :=
  let query := apply_sort search_request (filter_collections search_request base_query) in
  match nonempty (STACSearch.ids search_request) with
  | Some ids => order_by [id_column] (filter_by (IdIn ids) query)
  | None => query_filter search_request (temporal_filter search_request (spatial_filter search_request query))
  end.

Definition items_link (base_url id : string) (limit : nat) (r : Relations) (t : string)
    : PaginationLink.t :=
  {| PaginationLink.rel := r;
     PaginationLink.type := "application/geo+json";
     PaginationLink.href :=
       base_url +:+ "collections/" +:+ id +:+ "/items?token=" +:+ t +:+ "&limit=" +:+ pretty limit;
     PaginationLink.method := "GET";
     PaginationLink.body := None;
     PaginationLink.merge := false |}.

(** [except errors.NotFoundError: raise] before [except Exception as e]. *)
Definition reraise_not_found {A} (msg : string) (e : exn) : M A :=
  match e with
  | NotFoundError _ => raise e
  | _ => database_error msg e
  end.

Definition item_collection (self : CoreCrudClient) (base_url : string) (id : string)
    (limit : nat) (token : option string) : M ItemCollection.t :=
  '(page, next, previous, count) ←
    try_except
      (let collection_children :=
         order_by [datetime_desc; id_column] (filter_by (CollectionIn [id]) base_query) in
       count ← (if context_extension self
                then n ← count_rows self collection_children; mret (Some n)
                else mret None);
       token ← resolve_token self token;
       '(page, next, previous) ← page_with_tokens self collection_children limit token;
       mret (page, next, previous, count))
      (reraise_not_found "Unhandled database error when getting collection children");
  let links := link_if (items_link base_url id limit rel_next) next
               ++ link_if (items_link base_url id limit rel_previous) previous in
  let context_obj :=
    if context_extension self
    then Some {| Context.returned := length (Paging.rows page);
Context.limit := limit;
Context.matched := count |}
    else None in
  mret {| ItemCollection.type := "FeatureCollection";
          ItemCollection.context := context_obj;
          ItemCollection.features := Paging.rows page;
          ItemCollection.links := links |}.

(** ** Parameter parsing of [get_search] *)

(** One round of the loop over [sortby]: indexing the first character of an
    empty entry raises [IndexError]. *)
Definition sort_entry (sort : string) : result SortExtension.t :=
  match sort with
  | EmptyString => inl IndexError
  | String c rest =>
      inr {| SortExtension.field := rest;
             SortExtension.direction := if Ascii.eqb c "+" then asc else desc |}
  end.

Fixpoint sort_param (sortby : list string) : result (list SortExtension.t) :=
  match sortby with
  | [] => inr []
  | sort :: sortby' =>
      match sort_entry sort with
      | inl e => inl e
      | inr d =>
          match sort_param sortby' with
          | inl e => inl e
          | inr ds => inr (d :: ds)
          end
      end
  end.

(** The value of [base_args["sortby"]], when the key is set. *)
Definition get_search_sortby (sortby : option (list string))
    : result (option (list SortExtension.t)) :=
  match nonempty sortby with
  | Some l => match sort_param l with inl e => inl e | inr ds => inr (Some ds) end
  | None => inr None
  end.

(** One round of the loop over [fields]. *)
Definition fields_step (st : gset string * gset string) (field : string)
    : result (gset string * gset string) :=
  let '(includes, excludes) := st in
  match field with
  | EmptyString => inl IndexError
  | String c rest =>
      if Ascii.eqb c "-" then inr (includes, excludes ∪ {[rest]})
      else if Ascii.eqb c "+" then inr (includes ∪ {[rest]}, excludes)
      else inr (includes ∪ {[field]}, excludes)
  end.

Fixpoint fields_loop (st : gset string * gset string) (fields : list string)
    : result (gset string * gset string) :=
  match fields with
  | [] => inr st
  | field :: fields' =>
      match fields_step st field with
      | inl e => inl e
      | inr st' => fields_loop st' fields'
      end
  end.

(** The value of [base_args["fields"]], when the key is set. *)
Definition get_search_fields (fields : option (list string))
    : result (option FieldsExtension.t) :=
  match nonempty fields with
  | Some l =>
      match fields_loop (∅, ∅) l with
      | inl e => inl e
      | inr (includes, excludes) =>
          inr (Some {| FieldsExtension.include := includes;
                       FieldsExtension.exclude := excludes |})
      end
  | None => inr None
  end.

(** ** The three case policy of the specification

    The temporal predicate as the specification words it, to be compared with
    the clauses the client attaches. *)
Definition three_case_policy (interval : endpoint * endpoint) (it : Item.t) : option bool :=
  match interval with
  | (Instant a, Instant b) => Some ((a <=? Item.datetime it)%Z && (Item.datetime it <=? b)%Z)
  | (Open, Instant b) => Some (Item.datetime it <=? b)%Z
  | (Instant a, Open) => Some (a <=? Item.datetime it)%Z
  | (Open, Open) => None
  end.

(** A box is the envelope of the boxes of some items: it contains every
    corner and each of its sides touches one. *)
Definition is_envelope (box : Box) (items : list Item.t) : Prop :=
  let '(x0, y0, x1, y1) := box in
  (forall it, it ∈ items ->
     let '(a, b, c, d) := Item.bbox it in
     (x0 <= a /\ x0 <= c /\ a <= x1 /\ c <= x1 /\ y0 <= b /\ y0 <= d /\ b <= y1 /\ d <= y1)%Z) /\
  (exists it, it ∈ items /\ let '(a, _, c, _) := Item.bbox it in x0 = a \/ x0 = c) /\
  (exists it, it ∈ items /\ let '(_, b, _, d) := Item.bbox it in y0 = b \/ y0 = d) /\
  (exists it, it ∈ items /\ let '(a, _, c, _) := Item.bbox it in x1 = a \/ x1 = c) /\
  (exists it, it ∈ items /\ let '(_, b, _, d) := Item.bbox it in y1 = b \/ y1 = d).

(** The token a page carries for one of its bookmarks: none when the flag is
    off, the token the token table issued otherwise. *)
Definition token_for (self : CoreCrudClient) (flag : bool) (b : bookmark) (t : option string) : Prop :=
  if flag then exists s, t = Some s /\ pc_insert (pagination_client self) b = inr s
  else t = None.

(** The count a search reports: the number of requested ids for a search by
    ids, the result of the count statement otherwise; none without the context
    extension. *)
Definition count_of (self : CoreCrudClient) (search_request : STACSearch.t)
    (count : option nat) : Prop :=
  if context_extension self then
    match nonempty (STACSearch.ids search_request) with
    | Some ids => count = Some (length ids)
    | None =>
        exists n, count = Some n /\
          execute_count (reader_session self) (order_by_None (search_query search_request)) = inr n
    end
  else count = None.

(** Every event of a computation's trace satisfies [P]. *)
Definition trace_all (P : event -> Prop) {A} (m : M A) : Prop := Forall P m.1.

(** ** A small catalogue to evaluate the client on *)

Definition demo_item (i c : string) (t : Z) (b : Box) : Item.t :=
  {| Item.id := i; Item.collection_id := c; Item.geometry := [];
     Item.datetime := t; Item.bbox := b; Item.properties := ∅ |}.

Definition item_a : Item.t := demo_item "a" "c1" 1 (0, 0, 1, 1)%Z.
Definition item_b : Item.t := demo_item "b" "c1" 2 (5, 5, 6, 6)%Z.
Definition item_c : Item.t := demo_item "c" "c2" 3 (2, 2, 3, 3)%Z.

(** A store whose spatial predicate never holds. *)
Definition demo_db : Database :=
  {| db_items := [item_a; item_b; item_c]; ST_Intersects := fun _ _ => false |}.

(** A token table holding one forward bookmark under the token ["T"] and
    issuing the token ["tok"]. *)
Definition demo_tokens (place : list value) : PaginationTokenClient :=
  {| pc_get := fun t => if String.eqb t "T" then inr (Some place, false)
                        else inl (NotFoundError t);
     pc_insert := fun _ => inr "tok" |}.

Definition demo_client (db : Database) (place : list value) : CoreCrudClient :=
  {| reader_session := db_session db;
     pagination_client := demo_tokens place;
     context_extension := true;
     fields_extension := false |}.

Definition demo_request : STACSearch.t :=
  {| STACSearch.collections := None;
     STACSearch.ids := None;
     STACSearch.bbox := None;
     STACSearch.datetime := None;
     STACSearch.limit := 2;
     STACSearch.query := None;
     STACSearch.token := None;
     STACSearch.sortby := None;
     STACSearch.field := {| FieldsExtension.include := ∅; FieldsExtension.exclude := ∅ |} |}.

(** Where the specification places an entry of [fields]: an entry with the
    prefix [-] in the exclude set without the prefix, an entry with the prefix
    [+] in the include set without the prefix, an entry without prefix in the
    include set as it is. *)
Definition placed_in_exclude (entry x : string) : Prop :=
  entry = String "-" x.

Definition placed_in_include (entry x : string) : Prop :=
  entry = String "+" x \/
  (entry = x /\ exists c rest, entry = String c rest /\ c <> "-"%char /\ c <> "+"%char).

(** The same search asked for another page: only [limit] and [token]
    change. *)
Definition repaged (search_request : STACSearch.t) (limit : nat) (token : option string)
    : STACSearch.t :=
  {| STACSearch.collections := STACSearch.collections search_request;
     STACSearch.ids := STACSearch.ids search_request;
     STACSearch.bbox := STACSearch.bbox search_request;
     STACSearch.datetime := STACSearch.datetime search_request;
     STACSearch.limit := limit;
     STACSearch.query := STACSearch.query search_request;
     STACSearch.token := token;
     STACSearch.sortby := STACSearch.sortby search_request;
     STACSearch.field := STACSearch.field search_request |}.

(** A search by ids that also carries a bbox. *)
Definition ids_request (ids : list string) : STACSearch.t :=
  {| STACSearch.collections := None;
     STACSearch.ids := Some ids;
     STACSearch.bbox := Some (100, 100, 101, 101)%Z;
     STACSearch.datetime := None;
     STACSearch.limit := 10;
     STACSearch.query := None;
     STACSearch.token := None;
     STACSearch.sortby := None;
     STACSearch.field := {| FieldsExtension.include := ∅; FieldsExtension.exclude := ∅ |} |}.

(** The call recorded by an event raised the exception [e]. *)
Definition raised_by (self : CoreCrudClient) (ev : event) (e : exn) : Prop :=
  match ev with
  | EvRows q => execute_rows (reader_session self) q = inl e
  | EvCount q => execute_count (reader_session self) q = inl e
  | EvTokenGet t => pc_get (pagination_client self) t = inl e
  | EvTokenInsert b => pc_insert (pagination_client self) b = inl e
  | EvLog _ => False
  end.

(** The events of the store proper: the execution of a query for its rows
    and the execution of a count. *)
Definition store_event (ev : event) : Prop :=
  match ev with
  | EvRows _ | EvCount _ => True
  | _ => False
  end.

(** In a computation without handler, a call that raises is the last event
    and its exception is the outcome. *)
Definition propagates (raised : event -> exn -> Prop) {A} (m : M A) : Prop :=
  forall pre ev post e,
    m.1 = pre ++ ev :: post -> raised ev e -> post = [] /\ m.2 = inl e.

(** In a computation under a handler, a call that raises is followed by the
    events of the handler only, and the outcome is what the handler raises. *)
Definition handled (raised : event -> exn -> Prop) (hx : exn -> list event * exn)
    {A} (m : M A) : Prop :=
  forall pre ev post e,
    m.1 = pre ++ ev :: post -> raised ev e ->
    post = (hx e).1 /\ m.2 = inl (hx e).2.

(** A client whose store raises [e] on every execution. *)
Definition failing_client (e : exn) (context : bool) : CoreCrudClient :=
  {| reader_session := {| execute_rows := fun _ => inl e; execute_count := fun _ => inl e |};
     pagination_client := demo_tokens [];
     context_extension := context;
     fields_extension := false |}.

(** Where a page lies in the ordered rows of its query: the rows before it,
    its own rows, the rows after it.  Read forwards, the page starts right
    after the rows that are not beyond the place; read backwards, it ends
    right before them. *)
Definition stream_split (obs : list order_clause) (per_page : nat) (page : option bookmark)
    (all : list Item.t) : list Item.t * list Item.t * list Item.t :=
  let '(place, backwards) := default (None, false) page in
  let near := filter (fun r => beyond obs backwards place r = false) all in
  let far := filter (fun r => beyond obs backwards place r = true) all in
  if backwards
  then (take (length far - per_page) far, drop (length far - per_page) far, near)
  else (near, take per_page far, drop per_page far).

Definition has_link (r : Relations) (resp : SearchResponse.t) : Prop :=
  exists l, l ∈ SearchResponse.links resp /\ PaginationLink.rel l = r.

(** The default search asked with the token ["T"]. *)
Definition token_request : STACSearch.t := repaged demo_request 2 (Some "T").

Global Instance store_event_dec ev : Decision (store_event ev).
Proof. destruct ev; simpl; apply _. Defined.

(** The executions a search asks of the store, in order: the count, for a
    search without ids under the context extension, then the rows. *)
Definition search_store_calls (self : CoreCrudClient) (search_request : STACSearch.t)
    : list event :=
  match nonempty (STACSearch.ids search_request) with
  | Some _ => []
  | None =>
      if context_extension self
      then [EvCount (order_by_None (search_query search_request))]
      else []
  end ++ [EvRows (search_query search_request)].

(** The message of the [DatabaseError] a search raises. *)
Definition search_error_message (search_request : STACSearch.t) : string :=
  match nonempty (STACSearch.ids search_request) with
  | Some _ => "Unhandled database error when searching for items by id"
  | None => "Unhandled database error during spatial/temporal query"
  end.

(** A client on [db] whose token table is full: every [insert] raises. *)
Definition full_table_client (db : Database) : CoreCrudClient :=
  {| reader_session := db_session db;
     pagination_client :=
       {| pc_get := fun t => inl (NotFoundError t);
          pc_insert := fun _ => inl (StoreException "table full") |};
     context_extension := false;
     fields_extension := false |}.

(** A token table that holds the bookmark [b] under the token ["T"]. *)
Definition bookmark_client (db : Database) (b : bookmark) : CoreCrudClient :=
  {| reader_session := db_session db;
     pagination_client :=
       {| pc_get := fun t => if String.eqb t "T" then inr b else inl (NotFoundError t);
          pc_insert := fun _ => inr "tok" |};
     context_extension := false;
     fields_extension := false |}.

(** The query of [item_collection]: the items of one collection, latest
    first. *)
Definition items_query (id : string) : Query :=
  order_by [datetime_desc; id_column] (filter_by (CollectionIn [id]) base_query).

(** ** The pagination links of [get_search] *)

(** A Python dictionary with string keys and values, in insertion order.
    [d[k] = v] overwrites the value of a key that is there and appends a key
    that is not. *)
Fixpoint dict_set (k v : string) (d : list (string * string)) : list (string * string) :=
  match d with
  | [] => [(k, v)]
  | (k', v') :: d' =>
      if String.eqb k' k then (k', v) :: d' else (k', v') :: dict_set k v d'
  end.

Fixpoint dict_get (k : string) (d : list (string * string)) : option string :=
  match d with
  | [] => None
  | (k', v') :: d' => if String.eqb k' k then Some v' else dict_get k d'
  end.

(** [d.update(other)] *)
Definition dict_update (d other : list (string * string)) : list (string * string) :=
  foldl (fun d '(k, v) => dict_set k v d) d other.

(** One round of the loop over the links of the response.  Every link of
    [post_search] is a next or a previous link, the only relations of
    [Relations] here, so the round is the pagination branch: the query
    parameters of the request, updated with the body of the link when it has
    one and [merge] is set, are encoded into the href, and the link becomes a
    GET link without body.  [urlencode] is the function of the standard
    library. *)
Definition get_search_link (urlencode : list (string * string) -> string)
    (request_query_params : list (string * string)) (link : PaginationLink.t)
    : PaginationLink.t :=
  let query_params := request_query_params in
  let query_params :=
    match PaginationLink.body link with
    | Some (kv :: body) =>
        if PaginationLink.merge link then dict_update query_params (kv :: body)
        else query_params
    | _ => query_params
    end in
  {| PaginationLink.rel := PaginationLink.rel link;
     PaginationLink.type := PaginationLink.type link;
     PaginationLink.href := PaginationLink.href link +:+ "?" +:+ urlencode query_params;
     PaginationLink.method := "GET";
     PaginationLink.body := None;
     PaginationLink.merge := false |}.

Definition get_search_links (urlencode : list (string * string) -> string)
    (request_query_params : list (string * string)) (links : list PaginationLink.t)
    : list PaginationLink.t :=
  map (get_search_link urlencode request_query_params) links.

(** ** Collections and the landing page *)

(** A row of the collection table, as far as the client reads it. *)
Module Collection.
Record t := { id : string; title : option string }.
End Collection.

Inductive LinkRelation := link_self | link_docs | link_conformance | link_search | link_child.

Module Link.
Record t := {
  rel : LinkRelation;
  type : string;
  title : option string;
  href : string
}.
End Link.

(** The [Collections] response: a response collection is the row to serialise
    together with the base url it is serialised with. *)
Module Collections.
Record t := {
  collections : list (Collection.t * string);
  links : list Link.t
}.
End Collections.

Module LandingPage.
Record t := {
  id : string;
  title : string;
  description : string;
  links : list Link.t
}.
End LandingPage.

(** What [collections] and [landing_page] take from outside the sources at
    hand: the rows [query(collection_table).all()] yields or the exception it
    raises, [urljoin] of the standard library, and the self link
    [CollectionLinks(collection_id, base_url).self()] builds. *)
Record CollectionEnv := {
  all_collections : result (list Collection.t);
  urljoin : string -> string -> string;
  collection_self_link : string -> string -> Link.t
}.

Definition collections (env : CollectionEnv) (base_url : string) : M Collections.t :=
  collections ←
    try_except (([], all_collections env) : M (list Collection.t))
      (database_error "Unhandled database error when getting item collection");
  let response_collections := map (fun collection => (collection, base_url)) collections in
  mret {| Collections.collections := response_collections;
          Collections.links :=
            [{| Link.rel := link_self;
                Link.type := "application/json";
                Link.title := None;
                Link.href := urljoin env base_url "collections" |}] |}.

Definition landing_page (env : CollectionEnv) (landing_page_id title description : string)
    (base_url : string) : M LandingPage.t :=
  let links :=
    [{| Link.rel := link_self; Link.type := "application/json";
        Link.title := None; Link.href := base_url |};
     {| Link.rel := link_docs; Link.type := "text/html";
        Link.title := Some "OpenAPI docs"; Link.href := urljoin env base_url "docs" |};
     {| Link.rel := link_conformance; Link.type := "application/json";
        Link.title := Some "STAC/WFS3 conformance classes implemented by this server";
        Link.href := urljoin env base_url "conformance" |};
     {| Link.rel := link_search; Link.type := "application/geo+json";
        Link.title := Some "STAC search"; Link.href := urljoin env base_url "search" |}] in
  col_result ← collections env base_url;
  let children :=
    map (fun coll : Collection.t * string =>
           let coll_link := collection_self_link env (Collection.id coll.1) base_url in
           {| Link.rel := link_child;
              Link.type := Link.type coll_link;
              Link.title := Collection.title coll.1;
              Link.href := Link.href coll_link |})
        (Collections.collections col_result) in
  mret {| LandingPage.id := landing_page_id;
          LandingPage.title := title;
          LandingPage.description := description;
          LandingPage.links := links ++ children |}.

(** ** The connection middleware *)

(** [needle in haystack] on strings. *)
Fixpoint contains (needle haystack : string) : bool :=
  String.prefix needle haystack
  || match haystack with
     | EmptyString => false
     | String _ rest => contains needle rest
     end.

(** What the middleware does to the two sessions and to the rest of the
    application. *)
Inductive connection_event :=
| OpenReader
| OpenWriter
| SetReader
| SetWriter
| CallNext
| CloseReader
| CloseWriter.

(** The outcomes of the calls the middleware makes: the two session
    factories, the rest of the application, the two [close] methods. *)
Record Connections (R : Type) := {
  db_reader : result unit;
  db_writer : result unit;
  call_next : result R;
  reader_close : result unit;
  writer_close : result unit
}.
Arguments db_reader {R}.
Arguments db_writer {R}.
Arguments call_next {R}.
Arguments reader_close {R}.
Arguments writer_close {R}.

(** [create_db_connection]: a request whose url mentions titiler goes on
    without sessions; for any other both sessions are made, then the request
    goes on, and [finally] both are closed, the reader first. *)
Definition create_db_connection {R} (url : string) (c : Connections R)
    : list connection_event * result R :=
  if contains "titiler" url then ([CallNext], call_next c)
  else
    match db_reader c with
    | inl e => ([OpenReader], inl e)
    | inr _ =>
        match db_writer c with
        | inl e => ([OpenReader; OpenWriter], inl e)
        | inr _ =>
            let opened := [OpenReader; OpenWriter; SetReader; SetWriter; CallNext] in
            match reader_close c with
            | inl e => (opened ++ [CloseReader], inl e)
            | inr _ =>
                match writer_close c with
                | inl e => (opened ++ [CloseReader; CloseWriter], inl e)
                | inr _ => (opened ++ [CloseReader; CloseWriter], call_next c)
                end
            end
        end
    end.

(** ** The OpenAPI schema *)

(** A JSON value as Python holds it; an object is a dictionary in insertion
    order. *)
#[local] Unset Elimination Schemes.
Inductive json :=
| JNull
| JBool (b : bool)
| JNum (n : Z)
| JStr (s : string)
| JArr (items : list json)
| JObj (fields : list (string * json)).
#[local] Set Elimination Schemes.

Inductive lookup_error :=
| KeyError (key : string)
| TypeError.

Definition json_bool (j : json) : bool :=
  match j with
  | JNull | JBool false | JStr EmptyString | JArr [] | JObj [] => false
  | JNum n => negb (n =? 0)%Z
  | _ => true
  end.

Fixpoint fields_get (k : string) (fields : list (string * json)) : option json :=
  match fields with
  | [] => None
  | (k', v) :: fields' => if String.eqb k' k then Some v else fields_get k fields'
  end.

Fixpoint fields_set (k : string) (v : json) (fields : list (string * json))
    : list (string * json) :=
  match fields with
  | [] => [(k, v)]
  | (k', v') :: fields' =>
      if String.eqb k' k then (k', v) :: fields' else (k', v') :: fields_set k v fields'
  end.

(** [j[k]] with a string key: [KeyError] on a dictionary without the key,
    [TypeError] on anything that is not a dictionary. *)
Definition json_item (k : string) (j : json) : lookup_error + json :=
  match j with
  | JObj fields =>
      match fields_get k fields with
      | Some v => inr v
      | None => inl (KeyError k)
      end
  | _ => inl TypeError
  end.

(** [j[k1]...[kn]] *)
Fixpoint json_get (path : list string) (j : json) : lookup_error + json :=
  match path with
  | [] => inr j
  | k :: path' =>
      match json_item k j with
      | inl e => inl e
      | inr child => json_get path' child
      end
  end.

(** [j[k1]...[kn] = v], as the value of [j] afterwards: every key but the
    last is looked up, the last one is set. *)
Fixpoint json_set (path : list string) (v : json) (j : json) : lookup_error + json :=
  match path with
  | [] => inr v
  | [k] =>
      match j with
      | JObj fields => inr (JObj (fields_set k v fields))
      | _ => inl TypeError
      end
  | k :: path' =>
      match j with
      | JObj fields =>
          match fields_get k fields with
          | Some child =>
              match json_set path' v child with
              | inl e => inl e
              | inr child' => inr (JObj (fields_set k child' fields))
              end
          | None => inl (KeyError k)
          end
      | _ => inl TypeError
      end
  end.

Definition search_schema_path (method : string) : list string :=
  ["paths"; "/search"; method; "responses"; "200"; "content"; "application/json"; "schema"].

Definition item_collection_ref : json :=
  JObj [("$ref", JStr "#/components/schemas/ItemCollection")].

(** What [custom_openapi] does when no schema is cached: the generated
    schema is stored, then patched in place when the fields extension is
    enabled, the GET response first. *)
Definition build_openapi (fields_enabled : bool) (generated : json)
    : (lookup_error + json) * option json :=
  if fields_enabled then
    match json_set (search_schema_path "get") item_collection_ref generated with
    | inl e => (inl e, Some generated)
    | inr patched =>
        match json_set (search_schema_path "post") item_collection_ref patched with
        | inl e => (inl e, Some patched)
        | inr patched' => (inr patched', Some patched')
        end
    end
  else (inr generated, Some generated).

(** [custom_openapi], as the outcome of the call and [app.openapi_schema]
    afterwards.  [generated] is what [get_openapi] builds from the routes and
    [fields_enabled] what the settings answer for the fields extension. *)
Definition custom_openapi (fields_enabled : bool) (generated : json)
    (openapi_schema : option json) : (lookup_error + json) * option json :=
  match openapi_schema with
  | Some cached =>
      if json_bool cached then (inr cached, Some cached)
      else build_openapi fields_enabled generated
  | None => build_openapi fields_enabled generated
  end.

(** Two paths part ways: after a common prefix they go on with different
    keys. *)
Definition diverge (p q : list string) : Prop :=
  exists c a b p' q', p = c ++ a :: p' /\ q = c ++ b :: q' /\ a <> b.

(** A generated schema with a search path answering GET and POST, and one
    without any path. *)
Definition demo_operation : json :=
  JObj [("responses",
         JObj [("200",
                JObj [("content",
                       JObj [("application/json", JObj [("schema", JObj [])])])])])].

Definition demo_schema : json :=
  JObj [("openapi", JStr "3.0.2");
        ("paths", JObj [("/search", JObj [("get", demo_operation);
                                          ("post", demo_operation)])])].

Definition bare_schema : json := JObj [("paths", JObj [])].

(** ** Searches to evaluate the order and the filters on *)

(** A search sorted by the client: by collection descending, then by
    timestamp ascending. *)
Definition sorted_request : STACSearch.t :=
  {| STACSearch.collections := None;
     STACSearch.ids := None;
     STACSearch.bbox := None;
     STACSearch.datetime := None;
     STACSearch.limit := 2;
     STACSearch.query := None;
     STACSearch.token := None;
     STACSearch.sortby :=
       Some [{| SortExtension.field := "collection"; SortExtension.direction := desc |};
             {| SortExtension.field := "datetime"; SortExtension.direction := asc |}];
     STACSearch.field := {| FieldsExtension.include := ∅; FieldsExtension.exclude := ∅ |} |}.

(** A search of the items from the instant 2 on. *)
Definition since_request : STACSearch.t :=
  {| STACSearch.collections := None;
     STACSearch.ids := None;
     STACSearch.bbox := None;
     STACSearch.datetime := Some (Instant 2%Z, Open);
     STACSearch.limit := 10;
     STACSearch.query := None;
     STACSearch.token := None;
     STACSearch.sortby := None;
     STACSearch.field := {| FieldsExtension.include := ∅; FieldsExtension.exclude := ∅ |} |}.

(** A clause on the timestamp of an item. *)
Definition temporal_clause (c : clause) : Prop :=
  match c with
  | Between _ _ | DatetimeGe _ | DatetimeLe _ => True
  | _ => False
  end.







(** * Properties *)

(** ** The order on scalars and on sort-key tuples *)

Section Comparators.

Lemma ascii_compare_refl c : Ascii.compare c c = Eq.
  Proof. unfold Ascii.compare. apply N.compare_refl. Qed.

Lemma ascii_compare_trans a b c :
    Ascii.compare a b = Lt -> Ascii.compare b c = Lt -> Ascii.compare a c = Lt.
  Proof.
    unfold Ascii.compare. rewrite !N.compare_lt_iff. apply N.lt_trans.
  Qed.

Lemma string_compare_refl s : String.compare s s = Eq.
  Proof.
    induction s as [|c s IH]; simpl; [reflexivity|].
    now rewrite ascii_compare_refl.
  Qed.

Lemma string_compare_trans s t u :
    String.compare s t = Lt -> String.compare t u = Lt -> String.compare s u = Lt.
  Proof.
    revert t u. induction s as [|a s IH]; intros [|b t] [|c u]; simpl; try congruence.
    destruct (Ascii.compare a b) eqn:Hab; try discriminate;
      destruct (Ascii.compare b c) eqn:Hbc; try discriminate; intros H1 H2.
    - apply Ascii.compare_eq_iff in Hab, Hbc. subst.
      rewrite ascii_compare_refl. eauto.
    - apply Ascii.compare_eq_iff in Hab. subst. now rewrite Hbc.
    - apply Ascii.compare_eq_iff in Hbc. subst. now rewrite Hab.
    - now rewrite (ascii_compare_trans _ _ _ Hab Hbc).
  Qed.

Lemma value_compare_refl v : value_compare v v = Eq.
  Proof.
    destruct v; simpl; [reflexivity|apply Z.compare_refl|apply string_compare_refl].
  Qed.

Lemma value_compare_eq a b : value_compare a b = Eq -> a = b.
  Proof.
    destruct a, b; simpl; try congruence.
    - intros H. apply Z.compare_eq in H. congruence.
    - intros H. apply String.compare_eq_iff in H. congruence.
  Qed.

Lemma value_compare_antisym a b : value_compare a b = CompOpp (value_compare b a).
  Proof.
    destruct a, b; simpl; try reflexivity.
    - apply Z.compare_antisym.
    - apply String.compare_antisym.
  Qed.

Lemma value_compare_trans a b c :
    value_compare a b = Lt -> value_compare b c = Lt -> value_compare a c = Lt.
  Proof.
    destruct a, b, c; simpl; try congruence.
    - rewrite !Z.compare_lt_iff. apply Z.lt_trans.
    - apply string_compare_trans.
  Qed.

Lemma dir_compare_refl d v : dir_compare d v v = Eq.
  Proof. destruct d; simpl; now rewrite value_compare_refl. Qed.

Lemma dir_compare_eq d a b : dir_compare d a b = Eq -> a = b.
  Proof.
    destruct d; simpl; [apply value_compare_eq|].
    intros H. apply value_compare_eq. now destruct (value_compare a b).
  Qed.

Lemma dir_compare_antisym d a b : dir_compare d a b = CompOpp (dir_compare d b a).
  Proof. destruct d; simpl; now rewrite (value_compare_antisym a b). Qed.

Lemma dir_compare_trans d a b c :
    dir_compare d a b = Lt -> dir_compare d b c = Lt -> dir_compare d a c = Lt.
  Proof.
    destruct d; simpl; [apply value_compare_trans|].
    rewrite (value_compare_antisym a b), (value_compare_antisym b c),
      (value_compare_antisym a c).
    destruct (value_compare b a) eqn:H1; try discriminate.
    destruct (value_compare c b) eqn:H2; try discriminate.
    intros _ _. now rewrite (value_compare_trans _ _ _ H2 H1).
  Qed.

Lemma dir_compare_gt_lt d a b : dir_compare d a b = Gt <-> dir_compare d b a = Lt.
  Proof.
    rewrite (dir_compare_antisym d a b). destruct (dir_compare d b a); simpl; split; congruence.
  Qed.

Lemma compare_keys_refl ds k : compare_keys ds k k = Eq.
  Proof.
    revert k. induction ds as [|d ds IH]; intros [|v k]; simpl; try reflexivity.
    now rewrite dir_compare_refl.
  Qed.

Lemma compare_keys_antisym ds k1 k2 :
    compare_keys ds k1 k2 = CompOpp (compare_keys ds k2 k1).
  Proof.
    revert k1 k2. induction ds as [|d ds IH]; intros [|v1 k1] [|v2 k2]; simpl; try reflexivity.
    rewrite (dir_compare_antisym d v1 v2).
    destruct (dir_compare d v2 v1); simpl; auto.
  Qed.

Lemma compare_keys_eq ds k1 k2 :
    length k1 = length ds -> length k2 = length ds ->
    compare_keys ds k1 k2 = Eq -> k1 = k2.
  Proof.
    revert k1 k2. induction ds as [|d ds IH]; intros [|v1 k1] [|v2 k2]; simpl;
      try discriminate; try reflexivity.
    intros [= H1] [= H2]. destruct (dir_compare d v1 v2) eqn:Hc; try discriminate.
    intros H. apply dir_compare_eq in Hc. subst. f_equal. apply IH; auto.
  Qed.

  (** A tuple below another stays below whatever does not come before the
      latter. *)
Lemma compare_keys_lt_le ds p k1 k2 :
    length k1 = length ds -> length k2 = length ds ->
    compare_keys ds p k1 = Lt -> compare_keys ds k1 k2 <> Gt ->
    compare_keys ds p k2 = Lt.
  Proof.
    revert p k1 k2.
    induction ds as [|d ds IH]; intros [|v p] [|v1 k1] [|v2 k2]; simpl;
      try discriminate; try congruence.
    intros [= L1] [= L2].
    destruct (dir_compare d v v1) eqn:H1; try discriminate;
      destruct (dir_compare d v1 v2) eqn:H2; try congruence.
    - apply dir_compare_eq in H1, H2. subst. rewrite dir_compare_refl. eauto.
    - apply dir_compare_eq in H1. subst. now rewrite H2.
    - apply dir_compare_eq in H2. subst. now rewrite H1.
    - now rewrite (dir_compare_trans _ _ _ _ H1 H2).
  Qed.

Lemma compare_keys_le_lt ds k1 k2 p :
    length k1 = length ds -> length k2 = length ds ->
    compare_keys ds k1 k2 <> Gt -> compare_keys ds k2 p = Lt ->
    compare_keys ds k1 p = Lt.
  Proof.
    revert p k1 k2.
    induction ds as [|d ds IH]; intros [|v p] [|v1 k1] [|v2 k2]; simpl;
      try discriminate; try congruence.
    intros [= L1] [= L2].
    destruct (dir_compare d v1 v2) eqn:H1; try congruence;
      destruct (dir_compare d v2 v) eqn:H2; try discriminate.
    - apply dir_compare_eq in H1, H2. subst. rewrite dir_compare_refl. eauto.
    - apply dir_compare_eq in H1. subst. now rewrite H2.
    - apply dir_compare_eq in H2. subst. now rewrite H1.
    - now rewrite (dir_compare_trans _ _ _ _ H1 H2).
  Qed.

Lemma marker_length obs it : length (marker obs it) = length (directions obs).
  Proof. unfold marker, directions. now rewrite !length_map. Qed.

Lemma compare_rows_antisym obs a b :
    compare_rows obs a b = CompOpp (compare_rows obs b a).
  Proof. apply compare_keys_antisym. Qed.

Lemma compare_rows_refl obs a : compare_rows obs a a = Eq.
  Proof. apply compare_keys_refl. Qed.

Lemma compare_rows_trans obs a b c :
    compare_rows obs a b = Lt -> compare_rows obs b c = Lt -> compare_rows obs a c = Lt.
  Proof.
    unfold compare_rows. intros H1 H2.
    eapply compare_keys_lt_le; eauto using marker_length. congruence.
  Qed.

Global Instance row_le_total obs : Total (row_le obs).
  Proof.
    intros a b. unfold row_le. rewrite (compare_rows_antisym obs b a).
    destruct (compare_rows obs a b); simpl; [left|left|right]; congruence.
  Qed.

Global Instance row_le_trans obs : Transitive (row_le obs).
  Proof.
    intros a b c. unfold row_le, compare_rows. intros H1 H2 H3.
    assert (Hca : compare_keys (directions obs) (marker obs c) (marker obs a) = Lt).
    { rewrite compare_keys_antisym, H3. reflexivity. }
    pose proof (compare_keys_lt_le _ _ _ _ (marker_length obs a) (marker_length obs b) Hca H1) as Hcb.
    apply H2. rewrite compare_keys_antisym, Hcb. reflexivity.
  Qed.

End Comparators.

(** ** Computations of the client *)

Section Effects.

Context {A B : Type}.

Lemma bind_inr (m : M A) (f : A -> M B) tr b :
    m ≫= f = (tr, inr b) ->
    exists tr1 a tr2, m = (tr1, inr a) /\ f a = (tr2, inr b) /\ tr = tr1 ++ tr2.
  Proof.
    unfold mbind, M_bind, bind. destruct m as [tr1 [e|a]]; [discriminate|].
    destruct (f a) as [tr2 r] eqn:Hf. intros [= <- ->]. eauto 6.
  Qed.

Lemma bind_inl (m : M A) (f : A -> M B) tr e :
    m ≫= f = (tr, inl e) ->
    m = (tr, inl e) \/
    exists tr1 a tr2, m = (tr1, inr a) /\ f a = (tr2, inl e) /\ tr = tr1 ++ tr2.
  Proof.
    unfold mbind, M_bind, bind. destruct m as [tr1 [e'|a]].
    - intros [= <- <-]. now left.
    - destruct (f a) as [tr2 r] eqn:Hf. intros [= <- ->]. right. eauto 6.
  Qed.

Lemma bind_eq_inr (m : M A) (f : A -> M B) tr a :
    m = (tr, inr a) -> m ≫= f = (tr ++ (f a).1, (f a).2).
  Proof. intros ->. unfold mbind, M_bind, bind. now destruct (f a). Qed.

Lemma bind_eq_inl (m : M A) (f : A -> M B) tr e :
    m = (tr, inl e) -> m ≫= f = (tr, inl e).
  Proof. now intros ->. Qed.

Lemma M_bind_ret (a : A) (f : A -> M B) : mret a ≫= f = f a.
Proof. unfold mbind, M_bind, mret, M_ret, bind, ret. now destruct (f a). Qed.

Lemma try_database_error_inr (m : M A) msg tr a :
    try_except m (database_error msg) = (tr, inr a) -> m = (tr, inr a).
  Proof.
    destruct m as [tr1 [e|a']]; unfold try_except, database_error; simpl;
      [discriminate|].
    intros H. exact H.
  Qed.

Lemma try_database_error_inl (m : M A) msg tr e :
    try_except m (database_error msg) = (tr, inl e) ->
    exists tr1 e1, m = (tr1, inl e1) /\ tr = tr1 ++ [EvLog e1] /\ e = DatabaseError msg.
  Proof.
    destruct m as [tr1 [e1|a']]; unfold try_except, database_error; simpl; [|discriminate].
    intros [= <- <-]. eauto.
  Qed.

End Effects.

Section Pieces.

Variable self : CoreCrudClient.

Lemma insert_if_inr flag b tr t :
    insert_if self flag b = (tr, inr t) -> token_for self flag b t.
  Proof.
    unfold insert_if, token_for. destruct flag.
    - intros H. apply bind_inr in H as (tr1 & s & tr2 & H1 & H2 & _).
      unfold call in H1. injection H1 as _ H1. injection H2 as _ <-. eauto.
    - now intros [= _ <-].
  Qed.

Lemma resolve_token_inr token tr tok :
    resolve_token self token = (tr, inr tok) ->
    match token with
    | Some t => if str_bool (Some t)
                then exists b, tok = Some b /\ pc_get (pagination_client self) t = inr b
                else tok = None
    | None => tok = None
    end.
  Proof.
    unfold resolve_token. destruct token as [t|]; [|now intros [= _ <-]].
    destruct (str_bool (Some t)); [|now intros [= _ <-]].
    intros H. apply bind_inr in H as (tr1 & s & tr2 & H1 & H2 & _).
    unfold call in H1. injection H1 as _ H1. injection H2 as _ <-. eauto.
  Qed.

Lemma page_with_tokens_inr q n tok tr page next previous :
    page_with_tokens self q n tok = (tr, inr (page, next, previous)) ->
    exists all,
      execute_rows (reader_session self) q = inr all /\
      page = paginate (q_order q) n tok all /\
      token_for self (has_next page) (bookmark_next page) next /\
      token_for self (has_previous page) (bookmark_previous page) previous.
  Proof.
    unfold page_with_tokens. intros H.
    apply bind_inr in H as (tr1 & pg & tr2 & Hp & H & _).
    apply bind_inr in H as (tr3 & nx & tr4 & Hn & H & _).
    apply bind_inr in H as (tr5 & pv & tr6 & Hv & H & _).
    injection H as _ <- <- <-.
    unfold get_page in Hp.
    apply bind_inr in Hp as (tr7 & all & tr8 & Ha & Hp & _).
    unfold call in Ha. injection Ha as _ Ha. injection Hp as _ <-.
    exists all. split; [exact Ha|]. split; [reflexivity|].
    split; eapply insert_if_inr; eassumption.
  Qed.

End Pieces.

Section PostSearch.

Variables (self : CoreCrudClient) (base_url : string) (search_request : STACSearch.t).

  (** What a returned response is made of. *)
Lemma post_search_inr tr resp :
    post_search self base_url search_request = (tr, inr resp) ->
    exists tok all next previous count,
      (exists tr0, resolve_token self (STACSearch.token search_request) = (tr0, inr tok)) /\
      execute_rows (reader_session self) (search_query search_request) = inr all /\
      let page := paginate (q_order (search_query search_request))
                    (STACSearch.limit search_request) tok all in
      token_for self (has_next page) (bookmark_next page) next /\
      token_for self (has_previous page) (bookmark_previous page) previous /\
      count_of self search_request count /\
      resp = search_response self base_url search_request page next previous count.
  Proof.
    unfold post_search. intros H.
    apply bind_inr in H as (tr0 & tok & tr1 & Htok & H & _).
    apply bind_inr in H as (tr2 & [[[page next] previous] count] & tr3 & Hs & H & _).
    injection H as _ <-.
    exists tok. unfold count_of, search_query.
    destruct (nonempty (STACSearch.ids search_request)) as [ids|] eqn:Hids.
    - unfold search_by_ids in Hs. apply try_database_error_inr in Hs.
      apply bind_inr in Hs as (tr4 & [[pg nx] pv] & tr5 & Hp & Hs & _).
      injection Hs as _ <- <- <- <-.
      apply page_with_tokens_inr in Hp as (all & Ha & -> & Hn & Hv).
      exists all, nx, pv. eexists. split; [eauto|]. split; [exact Ha|].
      split; [exact Hn|]. split; [exact Hv|]. split; [|reflexivity].
      now destruct (context_extension self).
    - unfold search_by_filters in Hs. apply try_database_error_inr in Hs.
      apply bind_inr in Hs as (tr4 & cnt & tr5 & Hc & Hs & _).
      apply bind_inr in Hs as (tr6 & [[pg nx] pv] & tr7 & Hp & Hs & _).
      injection Hs as _ <- <- <- <-.
      apply page_with_tokens_inr in Hp as (all & Ha & -> & Hn & Hv).
      exists all, nx, pv, cnt. split; [eauto|]. split; [exact Ha|].
      split; [exact Hn|]. split; [exact Hv|]. split; [|reflexivity].
      destruct (context_extension self).
      + apply bind_inr in Hc as (tr8 & n & tr9 & Hc & Hr & _).
        injection Hr as _ <-. unfold count_rows, call in Hc. injection Hc as _ Hc.
        exists n. split; [reflexivity|exact Hc].
      + now injection Hc as _ <-.
  Qed.

End PostSearch.

(** ** Traces *)

Section Traces.

Variable P : event -> Prop.

Lemma trace_all_ret {A} (a : A) : trace_all P (mret a).
  Proof. constructor. Qed.

Lemma trace_all_call {A} ev (r : result A) : P ev -> trace_all P (call ev r).
  Proof. intros H. repeat constructor. exact H. Qed.

Lemma trace_all_bind {A B} (m : M A) (f : A -> M B) :
    trace_all P m -> (forall a, trace_all P (f a)) -> trace_all P (m ≫= f).
  Proof.
    unfold trace_all, mbind, M_bind, bind. destruct m as [tr [e|a]]; simpl; [auto|].
    intros Hm Hf. specialize (Hf a). destruct (f a) as [tr' r]. simpl in *.
    apply Forall_app; auto.
  Qed.

Lemma trace_all_try {A} (m : M A) (h : exn -> M A) :
    trace_all P m -> (forall e, trace_all P (h e)) -> trace_all P (try_except m h).
  Proof.
    unfold trace_all, try_except. destruct m as [tr [e|a]]; simpl; [|auto].
    intros Hm Hh. specialize (Hh e). destruct (h e) as [tr' r]. simpl in *.
    apply Forall_app; auto.
  Qed.

Hypothesis P_log : forall e, P (EvLog e).
Hypothesis P_get : forall t, P (EvTokenGet t).
Hypothesis P_insert : forall b, P (EvTokenInsert b).

Lemma trace_all_database_error {A} msg e : trace_all P (@database_error A msg e).
  Proof. unfold database_error. apply trace_all_bind; [|constructor]. repeat constructor. auto. Qed.

Lemma trace_all_resolve_token self token : trace_all P (resolve_token self token).
  Proof.
    unfold resolve_token. destruct token as [t|]; [|constructor].
    destruct (str_bool (Some t)); [|constructor].
    apply trace_all_bind; [apply trace_all_call; auto|]. intros; constructor.
  Qed.

Lemma trace_all_insert_if self flag b : trace_all P (insert_if self flag b).
  Proof.
    unfold insert_if. destruct flag; [|constructor].
    apply trace_all_bind; [apply trace_all_call; auto|]. intros; constructor.
  Qed.

Lemma trace_all_page_with_tokens self q n tok :
    P (EvRows q) -> trace_all P (page_with_tokens self q n tok).
  Proof.
    intros Hq. unfold page_with_tokens, get_page.
    apply trace_all_bind.
    { apply trace_all_bind; [apply trace_all_call; auto|]. intros; constructor. }
    intros page. apply trace_all_bind; [apply trace_all_insert_if|].
    intros next. apply trace_all_bind; [apply trace_all_insert_if|].
    intros; constructor.
  Qed.

Lemma trace_all_post_search self base_url search_request :
    P (EvRows (search_query search_request)) ->
    P (EvCount (order_by_None (search_query search_request))) ->
    trace_all P (post_search self base_url search_request).
  Proof.
    intros Hr Hc. unfold post_search, search_query in *.
    apply trace_all_bind; [apply trace_all_resolve_token|]. intros tok.
    apply trace_all_bind.
    2:{ intros [[[page next] previous] count]. constructor. }
    destruct (nonempty (STACSearch.ids search_request)) as [ids|].
    - unfold search_by_ids. apply trace_all_try; [|intros; apply trace_all_database_error].
      apply trace_all_bind; [apply trace_all_page_with_tokens; auto|].
      intros [[pg nx] pv]. constructor.
    - unfold search_by_filters. apply trace_all_try; [|intros; apply trace_all_database_error].
      apply trace_all_bind.
      + destruct (context_extension self); [|constructor].
        apply trace_all_bind; [apply trace_all_call; auto|]. intros; constructor.
      + intros cnt. apply trace_all_bind; [apply trace_all_page_with_tokens; auto|].
        intros [[pg nx] pv]. constructor.
  Qed.

End Traces.

(** The only query [post_search] ever executes for rows is [search_query]. *)
Lemma post_search_rows_query self base_url search_request tr r q :
  post_search self base_url search_request = (tr, r) ->
  EvRows q ∈ tr -> q = search_query search_request.
Proof.
  intros H Hin.
  assert (Ht : trace_all (fun ev => forall q, ev = EvRows q -> q = search_query search_request)
                 (post_search self base_url search_request)).
  { apply trace_all_post_search; intros; try discriminate; congruence. }
  unfold trace_all in Ht. rewrite H in Ht. simpl in Ht.
  rewrite Forall_forall in Ht. eapply Ht; eauto.
Qed.

(** ** The compiled sort order *)

Lemma compare_rows_app obs1 obs2 a b :
  compare_rows (obs1 ++ obs2) a b =
  match compare_rows obs1 a b with
  | Eq => compare_rows obs2 a b
  | c => c
  end.
Proof.
  unfold compare_rows, directions, marker.
  induction obs1 as [|oc obs1 IH]; simpl; [reflexivity|].
  destruct (dir_compare _ _ _); auto.
Qed.

Lemma compare_rows_id obs a b :
  id_column ∈ obs -> compare_rows obs a b = Eq -> Item.id a = Item.id b.
Proof.
  unfold compare_rows, directions, marker.
  induction obs as [|oc obs IH]; intros Hin; [now apply not_elem_of_nil in Hin|].
  simpl. destruct (dir_compare _ _ _) eqn:Hc; try discriminate.
  apply elem_of_cons in Hin as [<-|Hin]; [|auto].
  intros _. apply dir_compare_eq in Hc. simpl in Hc. congruence.
Qed.

(** ** The temporal filter *)

Lemma q_filters_foldl cs q :
  q_filters (foldl (fun q c => filter_by c q) q cs) = q_filters q ++ cs.
Proof.
  revert q. induction cs as [|c cs IH]; intros q; simpl; [now rewrite app_nil_r|].
  rewrite IH. simpl. now rewrite <- app_assoc.
Qed.

Lemma eval_filters_app db cs1 cs2 it :
  eval_filters db (cs1 ++ cs2) it = eval_filters db cs1 it && eval_filters db cs2 it.
Proof. unfold eval_filters. apply forallb_app. Qed.

(** ** The filters of the compiled query *)

Lemma search_query_filters (search_request : STACSearch.t) :
  q_filters (search_query search_request) =
  match nonempty (STACSearch.collections search_request) with
  | Some cols => [CollectionIn cols]
  | None => []
  end ++
  match nonempty (STACSearch.ids search_request) with
  | Some ids => [IdIn ids]
  | None =>
      match polygon search_request with Some poly => [Intersects poly] | None => [] end ++
      match STACSearch.datetime search_request with
      | Some interval => temporal_clauses interval
      | None => []
      end ++
      match nonempty (STACSearch.query search_request) with
      | Some fields => query_clauses fields
      | None => []
      end
  end.
Proof.
  unfold search_query.
  assert (Hs : forall q, q_filters (apply_sort search_request q) = q_filters q).
  { intros q. unfold apply_sort. now destruct (nonempty (STACSearch.sortby _)). }
  assert (Hc : q_filters (filter_collections search_request base_query) =
               match nonempty (STACSearch.collections search_request) with
               | Some cols => [CollectionIn cols]
               | None => []
               end).
  { unfold filter_collections. now destruct (nonempty (STACSearch.collections _)). }
  destruct (nonempty (STACSearch.ids search_request)) as [ids|].
  - simpl. now rewrite Hs, Hc.
  - unfold query_filter, temporal_filter, spatial_filter.
    destruct (nonempty (STACSearch.query _)), (STACSearch.datetime _), (polygon _);
      rewrite ?q_filters_foldl; simpl; rewrite ?q_filters_foldl; simpl;
      rewrite Hs, Hc, <- ?app_assoc, ?app_nil_r; reflexivity.
Qed.

(** ** The envelope of a page *)

Lemma foldl_min_spec l x :
  (foldl Z.min x l = x \/ foldl Z.min x l ∈ l) /\
  (foldl Z.min x l <= x)%Z /\ (forall y, y ∈ l -> (foldl Z.min x l <= y)%Z).
Proof.
  revert x. induction l as [|z l IH]; intros x; simpl.
  - split; [now left|]. split; [lia|]. intros y Hy. now apply not_elem_of_nil in Hy.
  - destruct (IH (Z.min x z)) as (Hin & Hle & Hall). split; [|split].
    + destruct Hin as [->|Hin]; [|right; now apply elem_of_cons; right].
      destruct (Z.min_spec x z) as [[_ ->]|[_ ->]]; [now left|right; now left].
    + lia.
    + intros y Hy. apply elem_of_cons in Hy as [->|Hy]; [lia|auto].
Qed.

Lemma foldl_max_spec l x :
  (foldl Z.max x l = x \/ foldl Z.max x l ∈ l) /\
  (x <= foldl Z.max x l)%Z /\ (forall y, y ∈ l -> (y <= foldl Z.max x l)%Z).
Proof.
  revert x. induction l as [|z l IH]; intros x; simpl.
  - split; [now left|]. split; [lia|]. intros y Hy. now apply not_elem_of_nil in Hy.
  - destruct (IH (Z.max x z)) as (Hin & Hle & Hall). split; [|split].
    + destruct Hin as [->|Hin]; [|right; now apply elem_of_cons; right].
      destruct (Z.max_spec x z) as [[_ ->]|[_ ->]]; [right; now left|now left].
    + lia.
    + intros y Hy. apply elem_of_cons in Hy as [->|Hy]; [lia|auto].
Qed.

Lemma py_min_spec l m :
  py_min l = inr m -> m ∈ l /\ forall y, y ∈ l -> (m <= y)%Z.
Proof.
  destruct l as [|x l]; simpl; [discriminate|]. intros [= <-].
  destruct (foldl_min_spec l x) as (Hin & Hle & Hall). split.
  - destruct Hin as [->|Hin]; [now left|now right].
  - intros y Hy. apply elem_of_cons in Hy as [->|Hy]; auto.
Qed.

Lemma py_max_spec l m :
  py_max l = inr m -> m ∈ l /\ forall y, y ∈ l -> (y <= m)%Z.
Proof.
  destruct l as [|x l]; simpl; [discriminate|]. intros [= <-].
  destruct (foldl_max_spec l x) as (Hin & Hle & Hall). split.
  - destruct Hin as [->|Hin]; [now left|now right].
  - intros y Hy. apply elem_of_cons in Hy as [->|Hy]; auto.
Qed.

Lemma elem_of_xvals x items :
  x ∈ xvals_of items <->
  exists it, it ∈ items /\ let '(a, _, c, _) := Item.bbox it in x = a \/ x = c.
Proof.
  unfold xvals_of. rewrite list_elem_of_In, in_flat_map. split.
  - intros (it & Hin & Hx). exists it. rewrite list_elem_of_In. split; [exact Hin|].
    destruct (Item.bbox it) as [[[a b] c] d]. simpl in Hx. intuition.
  - intros (it & Hin & Hx). exists it. rewrite <- list_elem_of_In. split; [exact Hin|].
    destruct (Item.bbox it) as [[[a b] c] d]. simpl. intuition.
Qed.

Lemma elem_of_yvals y items :
  y ∈ yvals_of items <->
  exists it, it ∈ items /\ let '(_, b, _, d) := Item.bbox it in y = b \/ y = d.
Proof.
  unfold yvals_of. rewrite list_elem_of_In, in_flat_map. split.
  - intros (it & Hin & Hx). exists it. rewrite list_elem_of_In. split; [exact Hin|].
    destruct (Item.bbox it) as [[[a b] c] d]. simpl in Hx. intuition.
  - intros (it & Hin & Hx). exists it. rewrite <- list_elem_of_In. split; [exact Hin|].
    destruct (Item.bbox it) as [[[a b] c] d]. simpl. intuition.
Qed.

Lemma envelope_spec items :
  match envelope (xvals_of items) (yvals_of items) with
  | None => items = []
  | Some box => items <> [] /\ is_envelope box items
  end.
Proof.
  destruct items as [|it0 items]; [reflexivity|].
  unfold envelope.
  destruct (py_min (xvals_of (it0 :: items))) as [e|x0] eqn:Hx0.
  { exfalso. unfold xvals_of in Hx0. simpl in Hx0.
    destruct (Item.bbox it0) as [[[a b] c] d]. discriminate. }
  destruct (py_min (yvals_of (it0 :: items))) as [e|y0] eqn:Hy0.
  { exfalso. unfold yvals_of in Hy0. simpl in Hy0.
    destruct (Item.bbox it0) as [[[a b] c] d]. discriminate. }
  destruct (py_max (xvals_of (it0 :: items))) as [e|x1] eqn:Hx1.
  { exfalso. unfold xvals_of in Hx1. simpl in Hx1.
    destruct (Item.bbox it0) as [[[a b] c] d]. discriminate. }
  destruct (py_max (yvals_of (it0 :: items))) as [e|y1] eqn:Hy1.
  { exfalso. unfold yvals_of in Hy1. simpl in Hy1.
    destruct (Item.bbox it0) as [[[a b] c] d]. discriminate. }
  split; [discriminate|].
  apply py_min_spec in Hx0 as [Hx0 Hx0'], Hy0 as [Hy0 Hy0'].
  apply py_max_spec in Hx1 as [Hx1 Hx1'], Hy1 as [Hy1 Hy1'].
  unfold is_envelope. split; [|split; [|split; [|split]]].
  - intros it Hit.
    pose proof (fun x => proj2 (elem_of_xvals x (it0 :: items))) as Hxs.
    pose proof (fun y => proj2 (elem_of_yvals y (it0 :: items))) as Hys.
    destruct (Item.bbox it) as [[[a b] c] d] eqn:Hb.
    assert (Ha : a ∈ xvals_of (it0 :: items)).
    { apply Hxs. exists it. rewrite Hb. auto. }
    assert (Hc : c ∈ xvals_of (it0 :: items)).
    { apply Hxs. exists it. rewrite Hb. auto. }
    assert (Hb' : b ∈ yvals_of (it0 :: items)).
    { apply Hys. exists it. rewrite Hb. auto. }
    assert (Hd : d ∈ yvals_of (it0 :: items)).
    { apply Hys. exists it. rewrite Hb. auto. }
    repeat split; auto.
  - now apply elem_of_xvals.
  - now apply elem_of_yvals.
  - now apply elem_of_xvals.
  - now apply elem_of_yvals.
Qed.

(** A search that raises either failed to resolve its token or raises
    [DatabaseError] after logging what the try block raised. *)
Lemma post_search_inl self base_url search_request tr e :
  post_search self base_url search_request = (tr, inl e) ->
  resolve_token self (STACSearch.token search_request) = (tr, inl e) \/
  exists msg e1 pre, e = DatabaseError msg /\ tr = pre ++ [EvLog e1].
Proof.
  unfold post_search. intros H.
  apply bind_inl in H as [H|(tr0 & tok & tr1 & Htok & H & ->)]; [now left|right].
  apply bind_inl in H as [H|(tr2 & [[[page next] previous] count] & tr3 & _ & H & _)];
    [|discriminate].
  destruct (nonempty (STACSearch.ids search_request)) as [ids|].
  - unfold search_by_ids in H. apply try_database_error_inl in H as (tr4 & e1 & _ & -> & ->).
    eexists _, e1, (tr0 ++ tr4). split; [reflexivity|]. now rewrite app_assoc.
  - unfold search_by_filters in H. apply try_database_error_inl in H as (tr4 & e1 & _ & -> & ->).
    eexists _, e1, (tr0 ++ tr4). split; [reflexivity|]. now rewrite app_assoc.
Qed.

Lemma search_response_features self base_url search_request page next previous count :
  map fst (SearchResponse.features
             (search_response self base_url search_request page next previous count))
  = Paging.rows page.
Proof.
  unfold search_response. simpl. rewrite map_map. simpl. apply map_id.
Qed.

(** C7: the bbox of a search response is the envelope of the boxes of the
    items of the returned page: its west and south sides are the least x and y
    among their corners, its east and north sides the greatest.  For an empty
    page the bbox is [None]; assembling the response never raises. *)
Theorem post_search_bbox_envelope (self : CoreCrudClient) (base_url : string)
    (search_request : STACSearch.t) (tr : list event) (r : result SearchResponse.t) :
  post_search self base_url search_request = (tr, r) ->
  match r with
  | inr resp =>
      let items := map fst (SearchResponse.features resp) in
      match SearchResponse.bbox resp with
      | None => items = []
      | Some box => items <> [] /\ is_envelope box items
      end
  | inl e =>
      e <> ValueError \/
      resolve_token self (STACSearch.token search_request) = (tr, inl ValueError)
  end.
Proof.
  intros H. destruct r as [e|resp].
  - apply post_search_inl in H as [H|(msg & e1 & pre & -> & _)].
    + destruct e; try (left; discriminate). now right.
    + left. discriminate.
  - apply post_search_inr in H
      as (tok & all & next & previous & count & _ & _ & _ & _ & _ & ->).
    rewrite search_response_features. apply envelope_spec.
Qed.

Lemma post_search_bbox_envelope_witness :
  (exists tr resp,
      post_search (demo_client demo_db []) "http://stac/" demo_request = (tr, inr resp) /\
      SearchResponse.bbox resp = Some (2, 2, 6, 6)%Z /\
      is_envelope (2, 2, 6, 6)%Z [item_c; item_b]) /\
  (exists tr resp,
      post_search (demo_client {| db_items := []; ST_Intersects := fun _ _ => false |} [])
        "http://stac/" demo_request = (tr, inr resp) /\
      SearchResponse.bbox resp = None).
Proof.
  split.
  - destruct (post_search (demo_client demo_db []) "http://stac/" demo_request)
      as [tr [e|resp]] eqn:Hp; [vm_compute in Hp; discriminate|].
    exists tr, resp. split; [reflexivity|].
    pose proof (post_search_bbox_envelope _ _ _ _ _ Hp) as Hb.
    assert (Hbox : SearchResponse.bbox resp = Some (2, 2, 6, 6)%Z).
    { vm_compute in Hp. injection Hp as _ <-. reflexivity. }
    assert (Hitems : map fst (SearchResponse.features resp) = [item_c; item_b]).
    { vm_compute in Hp. injection Hp as _ <-. reflexivity. }
    split; [exact Hbox|]. simpl in Hb. rewrite Hbox, Hitems in Hb. apply Hb.
  - destruct (post_search (demo_client {| db_items := []; ST_Intersects := fun _ _ => false |} [])
                "http://stac/" demo_request) as [tr [e|resp]] eqn:Hp;
      [vm_compute in Hp; discriminate|].
    exists tr, resp. split; [reflexivity|].
    pose proof (post_search_bbox_envelope _ _ _ _ _ Hp) as Hb. simpl in Hb.
    destruct (SearchResponse.bbox resp) as [box|]; [|reflexivity].
    destruct Hb as [Hne _]. exfalso. apply Hne.
    vm_compute in Hp. injection Hp as _ <-. reflexivity.
Defined.

(** ** Parameter parsing *)

Lemma fields_step_spec st field :
  field <> "" ->
  exists inc exc,
    fields_step st field = inr (inc, exc) /\
    (forall x, x ∈ inc <-> x ∈ st.1 \/ placed_in_include field x) /\
    (forall x, x ∈ exc <-> x ∈ st.2 \/ placed_in_exclude field x).
Proof.
  destruct st as [inc exc]. destruct field as [|c rest]; [congruence|]. intros _.
  unfold fields_step, placed_in_include, placed_in_exclude.
  destruct (Ascii.eqb c "-") eqn:Hm; [|destruct (Ascii.eqb c "+") eqn:Hp].
  - apply Ascii.eqb_eq in Hm. subst c. eexists _, _. split; [reflexivity|]. simpl. split.
    + intros x. split; [auto|]. intros [H|[[= H]|(_ & c & r & [= <- _] & Hc & _)]]; congruence.
    + intros x. rewrite elem_of_union, elem_of_singleton. split.
      * intros [H| ->]; auto.
      * intros [H|[= ->]]; auto.
  - apply Ascii.eqb_eq in Hp. subst c. eexists _, _. split; [reflexivity|]. simpl. split.
    + intros x. rewrite elem_of_union, elem_of_singleton. split.
      * intros [H| ->]; auto.
      * intros [H|[[= ->]|(_ & c & r & [= <- _] & _ & Hc)]]; auto. congruence.
    + intros x. split; [auto|]. intros [H|[= H]]; auto.
  - apply Ascii.eqb_neq in Hm, Hp. eexists _, _. split; [reflexivity|]. simpl. split.
    + intros x. rewrite elem_of_union, elem_of_singleton. split.
      * intros [H| ->]; auto. right. right. split; [reflexivity|]. eauto.
      * intros [H|[[= H _]|(<- & _)]]; auto. congruence.
    + intros x. split; [auto|]. intros [H|[= H _]]; auto. congruence.
Qed.

Lemma fields_loop_spec fields :
  Forall (fun e => e <> "") fields ->
  forall st, exists inc exc,
    fields_loop st fields = inr (inc, exc) /\
    (forall x, x ∈ inc <-> x ∈ st.1 \/ exists e, e ∈ fields /\ placed_in_include e x) /\
    (forall x, x ∈ exc <-> x ∈ st.2 \/ exists e, e ∈ fields /\ placed_in_exclude e x).
Proof.
  induction 1 as [|field fields Hne _ IH]; intros st.
  - destruct st as [inc exc]. exists inc, exc. split; [reflexivity|]. simpl.
    split; intros x; split; auto; intros [H|(e & He & _)]; auto;
      now apply not_elem_of_nil in He.
  - destruct (fields_step_spec st field Hne) as (inc1 & exc1 & Hs & Hi1 & He1).
    destruct (IH (inc1, exc1)) as (inc & exc & Hl & Hi & He).
    exists inc, exc. simpl. rewrite Hs. split; [exact Hl|]. simpl in *. split; intros x.
    + rewrite Hi, Hi1. split.
      * intros [[H|H]|(e & Hin & H)]; auto.
        -- right. exists field. split; [left|exact H].
        -- right. exists e. split; [now right|exact H].
      * intros [H|(e & Hin & H)]; auto.
        apply elem_of_cons in Hin as [->|Hin]; auto. right. eauto.
    + rewrite He, He1. split.
      * intros [[H|H]|(e & Hin & H)]; auto.
        -- right. exists field. split; [left|exact H].
        -- right. exists e. split; [now right|exact H].
      * intros [H|(e & Hin & H)]; auto.
        apply elem_of_cons in Hin as [->|Hin]; auto. right. eauto.
Qed.

(** C9, as the code has it: for a list of [fields] without an empty entry,
    the exclude set holds exactly the entries that begin with [-], without the
    prefix, and the include set holds exactly the entries that begin with [+],
    without the prefix, and the entries without prefix, unchanged; every entry
    goes to one of the two sets and to one only.  For the empty list the key
    is not set. *)
Theorem get_search_fields_placement (fields : list string) :
  Forall (fun e => e <> "") fields ->
  match get_search_fields (Some fields) with
  | inr (Some fe) =>
      fields <> [] /\
      (forall x, x ∈ FieldsExtension.include fe <->
                 exists e, e ∈ fields /\ placed_in_include e x) /\
      (forall x, x ∈ FieldsExtension.exclude fe <->
                 exists e, e ∈ fields /\ placed_in_exclude e x) /\
      (forall e, e ∈ fields ->
         ((exists x, placed_in_include e x) \/ (exists x, placed_in_exclude e x)) /\
         ~ ((exists x, placed_in_include e x) /\ (exists x, placed_in_exclude e x)))
  | inr None => fields = []
  | inl _ => False
  end.
Proof.
  intros Hne. unfold get_search_fields.
  destruct fields as [|f fields]; [reflexivity|]. simpl nonempty. cbv iota beta.
  destruct (fields_loop_spec (f :: fields) Hne (∅, ∅)) as (inc & exc & Hl & Hi & He).
  rewrite Hl. simpl. split; [discriminate|]. split; [|split].
  - intros x. rewrite Hi. simpl. split; [intros [H|H]; [set_solver|exact H]|auto].
  - intros x. rewrite He. simpl. split; [intros [H|H]; [set_solver|exact H]|auto].
  - intros e Hin. rewrite Forall_forall in Hne. specialize (Hne e Hin).
    destruct e as [|c rest]; [congruence|]. unfold placed_in_include, placed_in_exclude. split.
    + destruct (Ascii.eqb c "-") eqn:Hm; [|destruct (Ascii.eqb c "+") eqn:Hp].
      * apply Ascii.eqb_eq in Hm. subst. right. eauto.
      * apply Ascii.eqb_eq in Hp. subst. left. eauto.
      * apply Ascii.eqb_neq in Hm, Hp. left. exists (String c rest). right. eauto 6.
    + intros [(x & [H|(_ & c' & r & [= <- _] & Hc & _)]) (y & [= -> _])];
        [discriminate|congruence].
Qed.

Lemma get_search_fields_placement_witness :
  Forall (fun e => e <> "") ["-a"; "+b"; "c"] /\
  exists fe, get_search_fields (Some ["-a"; "+b"; "c"]) = inr (Some fe) /\
             "b" ∈ FieldsExtension.include fe /\ "c" ∈ FieldsExtension.include fe /\
             "a" ∈ FieldsExtension.exclude fe.
Proof.
  assert (Hne : Forall (fun e => e <> "") ["-a"; "+b"; "c"]).
  { repeat constructor; discriminate. }
  split; [exact Hne|].
  pose proof (get_search_fields_placement _ Hne) as H.
  destruct (get_search_fields (Some ["-a"; "+b"; "c"])) as [e|[fe|]];
    [contradiction|exists fe|discriminate].
  destruct H as (_ & Hi & He & _). split; [reflexivity|]. split; [|split].
  - apply Hi. exists "+b". split; [repeat constructor|]. now left.
  - apply Hi. exists "c". split; [repeat constructor|]. right. split; [reflexivity|].
    exists "c"%char, "". repeat split; discriminate.
  - apply He. exists "-a". split; [repeat constructor|]. reflexivity.
Defined.

(** C9 as stated fails on an empty entry: it has no prefix, yet it reaches
    neither set, the loop raises [IndexError]. *)
Lemma get_search_fields_empty_entry :
  get_search_fields (Some [""]) = inl IndexError /\
  ~ exists fe, get_search_fields (Some [""]) = inr (Some fe) /\
               "" ∈ FieldsExtension.include fe.
Proof.
  split; [reflexivity|]. intros (fe & H & _). discriminate.
Qed.

Lemma sort_param_spec sortby :
  Forall (fun s => s <> "") sortby ->
  exists ds, sort_param sortby = inr ds /\
    forall i c rest, sortby !! i = Some (String c rest) ->
      ds !! i = Some {| SortExtension.field := rest;
                        SortExtension.direction := if Ascii.eqb c "+" then asc else desc |}.
Proof.
  induction 1 as [|s sortby Hne _ (ds & IH & Hds)].
  - exists []. split; [reflexivity|]. intros i c rest H. now rewrite lookup_nil in H.
  - destruct s as [|c0 rest0]; [congruence|]. simpl. rewrite IH. eexists. split; [reflexivity|].
    intros [|i] c rest; simpl.
    + now intros [= -> ->].
    + apply Hds.
Qed.

(** C10: an entry of [sortby] whose first character is not [+] is read as a
    descending sort on the entry without its first character, whatever that
    character is; the entry ["datetime"] becomes the field ["atetime"],
    descending. *)
Theorem get_search_sortby_unprefixed :
  (forall c rest, c <> "+"%char ->
     sort_entry (String c rest)
     = inr {| SortExtension.field := rest; SortExtension.direction := desc |}) /\
  (forall sortby, Forall (fun s => s <> "") sortby ->
     exists ds, sort_param sortby = inr ds /\
       forall i c rest, sortby !! i = Some (String c rest) -> c <> "+"%char ->
         ds !! i = Some {| SortExtension.field := rest; SortExtension.direction := desc |}) /\
  get_search_sortby (Some ["datetime"])
  = inr (Some [{| SortExtension.field := "atetime"; SortExtension.direction := desc |}]).
Proof.
  split; [|split; [|reflexivity]].
  - intros c rest Hc. simpl. apply Ascii.eqb_neq in Hc. now rewrite Hc.
  - intros sortby Hne. destruct (sort_param_spec sortby Hne) as (ds & Hs & Hds).
    exists ds. split; [exact Hs|]. intros i c rest Hi Hc.
    rewrite (Hds i c rest Hi). apply Ascii.eqb_neq in Hc. now rewrite Hc.
Qed.

Lemma get_search_sortby_unprefixed_witness :
  "-"%char <> "+"%char /\
  sort_entry "-datetime"
  = inr {| SortExtension.field := "datetime"; SortExtension.direction := desc |} /\
  Forall (fun s => s <> "") ["datetime"; "+id"] /\
  exists ds, sort_param ["datetime"; "+id"] = inr ds /\
             ds !! 0 = Some {| SortExtension.field := "atetime";
                               SortExtension.direction := desc |}.
Proof.
  destruct get_search_sortby_unprefixed as (He & Hl & _).
  assert (Hc : "-"%char <> "+"%char) by discriminate.
  assert (Hne : Forall (fun s => s <> "") ["datetime"; "+id"]).
  { repeat constructor; discriminate. }
  split; [exact Hc|]. split; [exact (He _ _ Hc)|]. split; [exact Hne|].
  destruct (Hl _ Hne) as (ds & Hs & Hds). exists ds. split; [exact Hs|].
  apply (Hds 0 "d"%char "atetime"); [reflexivity|discriminate].
Defined.

(** ** Searching by ids *)

Lemma string_in_elem_of s l : string_in s l = true <-> s ∈ l.
Proof.
  unfold string_in. rewrite existsb_exists, list_elem_of_In. split.
  - intros (x & Hx & He). apply String.eqb_eq in He. now subst.
  - intros H. exists s. split; [exact H|apply String.eqb_refl].
Qed.

Lemma filter_true_id {A} (f : A -> bool) (l : list A) :
  (forall x, f x = true) -> filter (fun x => f x = true) l = l.
Proof.
  intros H. induction l as [|x l IH]; [reflexivity|].
  rewrite filter_cons_True by apply H. now rewrite IH.
Qed.

(** The first page of a stream that fits in it: all the rows, nothing before,
    nothing after. *)
Lemma paginate_whole obs per_page all :
  length all <= per_page ->
  paginate obs per_page None all =
  {| Paging.rows := all;
     Paging.before_first := None;
     Paging.first := marker obs <$> head all;
     Paging.last := marker obs <$> last all;
     Paging.beyond_last := None |}.
Proof.
  intros Hl. unfold paginate, fetch_window, make_paging. simpl.
  rewrite filter_true_id by reflexivity.
  rewrite (take_ge all (S per_page)) by lia.
  rewrite (take_ge all per_page), (drop_ge all per_page) by lia. reflexivity.
Qed.

Lemma elem_of_result_set db q it :
  it ∈ result_set db q <-> it ∈ db_items db /\ eval_filters db (q_filters q) it = true.
Proof.
  unfold result_set. rewrite merge_sort_Permutation, list_elem_of_filter. tauto.
Qed.

(** A search without token whose rows fit in one page returns them all and
    asks the token table nothing. *)
Lemma post_search_whole self db base_url search_request :
  reader_session self = db_session db ->
  STACSearch.token search_request = None ->
  length (result_set db (search_query search_request)) <= STACSearch.limit search_request ->
  exists tr resp,
    post_search self base_url search_request = (tr, inr resp) /\
    map fst (SearchResponse.features resp) = result_set db (search_query search_request).
Proof.
  intros Hs Ht Hl. unfold post_search. rewrite Ht. simpl resolve_token.
  rewrite M_bind_ret. unfold search_query in Hl |- *.
  set (query := apply_sort search_request (filter_collections search_request base_query)) in *.
  assert (Hpage : forall q,
             length (result_set db q) <= STACSearch.limit search_request ->
             page_with_tokens self q (STACSearch.limit search_request) None =
             ([EvRows q],
              inr (paginate (q_order q) (STACSearch.limit search_request) None (result_set db q),
                   None, None))).
  { intros q Hq. unfold page_with_tokens, get_page. rewrite Hs. simpl execute_rows.
    unfold mbind, M_bind, mret, M_ret, call. cbn [bind ret app].
    rewrite (paginate_whole _ _ _ Hq). reflexivity. }
  destruct (nonempty (STACSearch.ids search_request)) as [ids|].
  - unfold search_by_ids. rewrite (Hpage _ Hl).
    eexists _, _. split; [reflexivity|].
    rewrite search_response_features. now rewrite (paginate_whole _ _ _ Hl).
  - unfold search_by_filters. rewrite (Hpage _ Hl).
    destruct (context_extension self) eqn:Hc.
    + unfold count_rows. rewrite Hs. simpl execute_count.
      eexists _, _. split; [reflexivity|].
      rewrite search_response_features. now rewrite (paginate_whole _ _ _ Hl).
    + eexists _, _. split; [reflexivity|].
      rewrite search_response_features. now rewrite (paginate_whole _ _ _ Hl).
Qed.

(** C3: a search by ids is meant to be ordered by the identifier alone; the
    [order_by] of that branch extends the order compiled before instead of
    replacing it.  For the ids ["a"] and ["b"] and no [sortby], the query
    orders by timestamp descending, then identifier, then identifier again,
    and the item ["b"], the later one, is returned before the item ["a"]. *)
Theorem post_search_ids_keeps_compiled_sort :
  q_order (search_query (ids_request ["a"; "b"])) = [datetime_desc; id_column; id_column] /\
  exists tr resp,
    post_search (demo_client demo_db []) "http://stac/" (ids_request ["a"; "b"])
      = (tr, inr resp) /\
    map (fun f => Item.id f.1) (SearchResponse.features resp) = ["b"; "a"].
Proof.
  split; [reflexivity|]. eexists _, _. split; [vm_compute; reflexivity|]. reflexivity.
Qed.

(** ** The context of a response *)

(** C6, as the code has it: with the context extension, [returned] is the
    number of items of the page and [limit] the requested limit; for a search
    without ids [matched] is the number of items of the store that satisfy the
    filters of the compiled query, counted by a statement without ORDER BY,
    whatever the limit and the token; for a search by ids [matched] is the
    number of requested ids. *)
Theorem post_search_context (self : CoreCrudClient) (db : Database) (base_url : string)
    (search_request : STACSearch.t) (tr : list event) (resp : SearchResponse.t) :
  reader_session self = db_session db ->
  context_extension self = true ->
  post_search self base_url search_request = (tr, inr resp) ->
  (exists ctx,
      SearchResponse.context resp = Some ctx /\
      Context.returned ctx = length (SearchResponse.features resp) /\
      Context.limit ctx = STACSearch.limit search_request /\
      Context.matched ctx =
        Some (match nonempty (STACSearch.ids search_request) with
              | Some ids => length ids
              | None =>
                  length (filter (fun it =>
                            eval_filters db (q_filters (search_query search_request)) it = true)
                            (db_items db))
              end)) /\
  (nonempty (STACSearch.ids search_request) = None ->
   EvCount {| q_filters := q_filters (search_query search_request); q_order := [] |} ∈ tr) /\
  (forall limit token,
      q_filters (search_query (repaged search_request limit token))
      = q_filters (search_query search_request)).
Proof.
  intros Hs Hc Hp. split; [|split].
  - apply post_search_inr in Hp
      as (tok & all & next & previous & count & _ & _ & _ & _ & Hcount & ->).
    unfold search_response. rewrite Hc. eexists. split; [reflexivity|]. simpl.
    rewrite length_map. split; [reflexivity|]. split; [reflexivity|].
    unfold count_of in Hcount. rewrite Hc, Hs in Hcount.
    destruct (nonempty (STACSearch.ids search_request)) as [ids|]; [exact Hcount|].
    destruct Hcount as (n & -> & Hn). simpl in Hn. congruence.
  - intros Hids.
    assert (Hin : forall tr' r', search_by_filters self search_request
                    (apply_sort search_request (filter_collections search_request base_query))
                    r' = tr' ->
                  EvCount (order_by_None (search_query search_request)) ∈ tr'.1).
    { intros tr' r' <-. unfold search_by_filters, search_query. rewrite Hids, Hc.
      unfold count_rows. rewrite Hs. simpl execute_count.
      unfold try_except, mbind, M_bind, mret, M_ret, call. cbn [bind ret].
      destruct (page_with_tokens _ _ _ _) as [tr1 [e|[[pg nx] pv]]]; simpl; left. }
    unfold post_search in Hp. rewrite Hids in Hp.
    apply bind_inr in Hp as (tr0 & tok & tr1 & _ & Hp & ->).
    apply bind_inr in Hp as (tr2 & x & tr3 & Hb & _ & ->).
    apply elem_of_app. right. apply elem_of_app. left.
    specialize (Hin _ _ Hb). exact Hin.
  - intros limit token. rewrite !search_query_filters. reflexivity.
Qed.

Lemma post_search_context_witness :
  exists tr resp,
    post_search (demo_client demo_db []) "http://stac/" demo_request = (tr, inr resp) /\
    SearchResponse.context resp
    = Some {| Context.returned := 2; Context.limit := 2; Context.matched := Some 3 |}.
Proof.
  destruct (post_search (demo_client demo_db []) "http://stac/" demo_request)
    as [tr [e|resp]] eqn:Hp; [vm_compute in Hp; discriminate|].
  exists tr, resp. split; [reflexivity|].
  destruct (post_search_context (demo_client demo_db []) demo_db "http://stac/"
              demo_request tr resp eq_refl eq_refl Hp) as ((ctx & Hctx & Hr & Hl & Hm) & _).
  rewrite Hctx. f_equal. destruct ctx as [r l m]. simpl in *. subst.
  vm_compute in Hp. injection Hp as _ <-. reflexivity.
Defined.

(** C6 as stated fails for a search by ids: of the two requested ids only
    ["a"] names an item, one item satisfies the compiled filters and one is
    returned, yet [matched] is 2. *)
Lemma post_search_ids_matched_counts_ids :
  exists tr resp ctx,
    post_search (demo_client demo_db []) "http://stac/" (ids_request ["a"; "zz"])
      = (tr, inr resp) /\
    SearchResponse.context resp = Some ctx /\
    Context.matched ctx = Some 2 /\
    Context.returned ctx = 1 /\
    length (filter (fun it =>
              eval_filters demo_db (q_filters (search_query (ids_request ["a"; "zz"]))) it = true)
              (db_items demo_db)) = 1.
Proof.
  eexists _, _, _. split; [vm_compute; reflexivity|]. repeat split.
Qed.

(** ** Exceptions of the store *)

Section Propagation.

Variable raised : event -> exn -> Prop.

Lemma propagates_ret {A} (a : A) : propagates raised (mret a).
Proof. intros pre ev post e H. now destruct pre. Qed.

Lemma propagates_call {A} ev (r : result A) :
  (forall e, raised ev e -> r = inl e) -> propagates raised (call ev r).
Proof.
  intros Hr pre ev' post e H Hraised. simpl in H.
  destruct pre as [|x pre]; simpl in H.
  - injection H as <- <-. split; [reflexivity|]. simpl. auto.
  - injection H as _ H. now destruct pre.
Qed.

Lemma propagates_bind {A B} (m : M A) (f : A -> M B) :
  propagates raised m -> (forall a, propagates raised (f a)) -> propagates raised (m ≫= f).
Proof.
  intros Hm Hf pre ev post e. unfold mbind, M_bind, bind.
  destruct m as [tr1 [e1|a]]; simpl.
  - intros H Hr. destruct (Hm pre ev post e H Hr) as [-> Hc].
    simpl in Hc. injection Hc as ->. auto.
  - specialize (Hf a). destruct (f a) as [tr2 r]. simpl. intros H Hr.
    apply app_eq_inv in H as [(k & -> & H)|(k & -> & H)].
    + destruct k as [|x k]; simpl in H.
      * subst tr2. apply (Hf [] ev post e eq_refl Hr).
      * injection H as <- ->.
        destruct (Hm pre ev k e eq_refl Hr) as [_ Hc]. discriminate.
    + subst tr2. apply (Hf k ev post e eq_refl Hr).
Qed.

(** A handler that records no tracked call. *)
Variable hx : exn -> list event * exn.
Hypothesis hx_quiet : forall e0 ev e, ev ∈ (hx e0).1 -> ~ raised ev e.

Lemma handled_try {A} (m : M A) (h : exn -> M A) :
  propagates raised m ->
  (forall e, h e = ((hx e).1, inl (hx e).2)) ->
  handled raised hx (try_except m h).
Proof.
  intros Hm Hh pre ev post e. unfold try_except.
  destruct m as [tr1 [e1|a]]; simpl.
  - rewrite Hh. simpl. intros H Hr.
    apply app_eq_inv in H as [(k & -> & H)|(k & -> & H)].
    + destruct k as [|x k]; simpl in H.
      * exfalso. apply (hx_quiet e1 ev e); [|exact Hr]. rewrite <- H. left.
      * injection H as <- ->.
        destruct (Hm pre ev k e eq_refl Hr) as [-> [= ->]]. auto.
    + exfalso. apply (hx_quiet e1 ev e); [|exact Hr]. rewrite H.
      apply elem_of_app. right. left.
  - intros H Hr. destruct (Hm pre ev post e H Hr) as [_ Hc]. discriminate.
Qed.

Lemma handled_bind_r {A B} (m : M A) (f : A -> M B) :
  handled raised hx m -> (forall a, (f a).1 = []) -> handled raised hx (m ≫= f).
Proof.
  intros Hm Hf pre ev post e. unfold mbind, M_bind, bind.
  destruct m as [tr1 [e1|a]]; simpl.
  - intros H Hr. destruct (Hm pre ev post e H Hr) as [-> Hc].
    simpl in Hc. injection Hc as ->. auto.
  - specialize (Hf a). destruct (f a) as [tr2 r]. simpl in *. subst tr2.
    rewrite app_nil_r. intros H Hr.
    destruct (Hm pre ev post e H Hr) as [_ Hc]. discriminate.
Qed.

Lemma handled_bind_l {A B} (m : M A) (f : A -> M B) :
  (forall ev e, ev ∈ m.1 -> ~ raised ev e) ->
  (forall a, handled raised hx (f a)) -> handled raised hx (m ≫= f).
Proof.
  intros Hm Hf pre ev post e. unfold mbind, M_bind, bind.
  destruct m as [tr1 [e1|a]]; simpl in *.
  - intros H Hr. exfalso. apply (Hm ev e); [|exact Hr]. rewrite H.
    apply elem_of_app. right. left.
  - specialize (Hf a). destruct (f a) as [tr2 r]. simpl. intros H Hr.
    apply app_eq_inv in H as [(k & -> & H)|(k & -> & H)].
    + destruct k as [|x k]; simpl in H.
      * subst tr2. apply (Hf [] ev post e eq_refl Hr).
      * injection H as <- ->. exfalso. apply (Hm ev e); [|exact Hr].
        apply elem_of_app. right. left.
    + subst tr2. apply (Hf k ev post e eq_refl Hr).
Qed.

(** A call that raised was made once. *)
Lemma handled_once {A} (m : M A) pre ev post e :
  handled raised hx m -> m.1 = pre ++ ev :: post -> raised ev e -> ev ∉ pre.
Proof.
  intros Hm H Hr Hin. apply list_elem_of_split in Hin as (p1 & p2 & ->).
  rewrite <- app_assoc in H. simpl in H.
  destruct (Hm p1 ev (p2 ++ ev :: post) e H Hr) as [Hpost _].
  apply (hx_quiet e ev e); [|exact Hr]. rewrite <- Hpost.
  apply elem_of_app. right. left.
Qed.

End Propagation.

Lemma database_error_eq {A} msg e :
  @database_error A msg e = ([EvLog e], inl (DatabaseError msg)).
Proof. reflexivity. Qed.

Lemma propagates_insert_if raised self flag b :
  (forall e, raised (EvTokenInsert b) e -> pc_insert (pagination_client self) b = inl e) ->
  propagates raised (insert_if self flag b).
Proof.
  intros H. unfold insert_if. destruct flag; [|apply propagates_ret].
  apply propagates_bind; [now apply propagates_call|]. intros; apply propagates_ret.
Qed.

Lemma propagates_page_with_tokens raised self q n tok :
  (forall ev e, raised ev e -> raised_by self ev e) ->
  propagates raised (page_with_tokens self q n tok).
Proof.
  intros H. unfold page_with_tokens, get_page.
  apply propagates_bind.
  { apply propagates_bind; [|intros; apply propagates_ret].
    apply propagates_call. intros e He. exact (H _ _ He). }
  intros page. apply propagates_bind.
  { apply propagates_insert_if. intros e He. exact (H _ _ He). }
  intros next. apply propagates_bind.
  { apply propagates_insert_if. intros e He. exact (H _ _ He). }
  intros; apply propagates_ret.
Qed.

Lemma propagates_count_rows raised self q :
  (forall ev e, raised ev e -> raised_by self ev e) ->
  propagates raised (count_rows self q).
Proof.
  intros H. unfold count_rows. apply propagates_call. intros e He. exact (H _ _ He).
Qed.

Lemma propagates_resolve_token raised self token :
  (forall ev e, raised ev e -> raised_by self ev e) ->
  propagates raised (resolve_token self token).
Proof.
  intros H. unfold resolve_token. destruct token as [t|]; [|apply propagates_ret].
  destruct (str_bool (Some t)); [|apply propagates_ret].
  apply propagates_bind; [|intros; apply propagates_ret].
  apply propagates_call. intros e He. exact (H _ _ He).
Qed.

Lemma resolve_token_events self token ev :
  ev ∈ (resolve_token self token).1 -> exists t, ev = EvTokenGet t.
Proof.
  unfold resolve_token. destruct token as [t|]; [|intros H; now apply not_elem_of_nil in H].
  destruct (str_bool (Some t)); [|intros H; now apply not_elem_of_nil in H].
  unfold mbind, M_bind, bind, call.
  destruct (pc_get (pagination_client self) t); simpl;
    intros H; apply list_elem_of_singleton in H; eauto.
Qed.

(** C8: in [post_search], when the execution of the query or of the count
    raises, the exception is logged, nothing else follows, the call was not
    made before, and the search raises [DatabaseError].  In [item_collection]
    the same holds for every call of the try block, except that a
    [NotFoundError] is raised again as it is, without being logged. *)
Theorem store_errors_are_database_errors (self : CoreCrudClient) (base_url : string) :
  (forall search_request tr r pre ev post e,
      post_search self base_url search_request = (tr, r) ->
      tr = pre ++ ev :: post -> store_event ev -> raised_by self ev e ->
      post = [EvLog e] /\ (ev ∉ pre) /\ exists msg, r = inl (DatabaseError msg)) /\
  (forall id limit token tr r pre ev post e,
      item_collection self base_url id limit token = (tr, r) ->
      tr = pre ++ ev :: post -> raised_by self ev e ->
      (ev ∉ pre) /\
      match e with
      | NotFoundError _ => post = [] /\ r = inl e
      | _ => post = [EvLog e] /\ exists msg, r = inl (DatabaseError msg)
      end).
Proof.
  split.
  - intros search_request tr r pre ev post e Hp Htr Hs Hr.
    set (raised := fun ev e => store_event ev /\ raised_by self ev e).
    set (msg := match nonempty (STACSearch.ids search_request) with
                | Some _ => "Unhandled database error when searching for items by id"
                | None => "Unhandled database error during spatial/temporal query"
                end).
    set (hx := fun e : exn => ([EvLog e], DatabaseError msg)).
    assert (Hq : forall e0 ev e, ev ∈ (hx e0).1 -> ~ raised ev e).
    { intros e0 ev0 e' Hin [Hse _]. apply list_elem_of_singleton in Hin. now subst. }
    assert (Hsub : forall ev e, raised ev e -> raised_by self ev e) by (now intros ? ? [_ ?]).
    assert (Hh : handled raised hx (post_search self base_url search_request)).
    { unfold post_search. apply handled_bind_l.
      { intros ev0 e' Hin [Hse _]. apply resolve_token_events in Hin as (t & ->). exact Hse. }
      intros tok. apply handled_bind_r; [|now intros [[[page next] previous] count]].
      unfold msg in hx. unfold hx.
      destruct (nonempty (STACSearch.ids search_request)) as [ids|].
      - unfold search_by_ids. apply handled_try; [exact Hq| |reflexivity].
        apply propagates_bind; [now apply propagates_page_with_tokens|].
        intros [[pg nx] pv]. apply propagates_ret.
      - unfold search_by_filters. apply handled_try; [exact Hq| |reflexivity].
        apply propagates_bind.
        + destruct (context_extension self); [|apply propagates_ret].
          apply propagates_bind; [now apply propagates_count_rows|].
          intros; apply propagates_ret.
        + intros cnt. apply propagates_bind; [now apply propagates_page_with_tokens|].
          intros [[pg nx] pv]. apply propagates_ret. }
    assert (Htr' : (post_search self base_url search_request).1 = pre ++ ev :: post)
      by now rewrite Hp.
    destruct (Hh pre ev post e Htr' (conj Hs Hr)) as [Hpost Hres].
    split; [exact Hpost|]. split.
    + eapply (handled_once raised hx Hq); [exact Hh|exact Htr'|exact (conj Hs Hr)].
    + exists msg. rewrite Hp in Hres. exact Hres.
  - intros id limit token tr r pre ev post e Hp Htr Hr.
    set (msg := "Unhandled database error when getting collection children").
    set (hx := fun e : exn => match e with
                              | NotFoundError _ => ([], e)
                              | _ => ([EvLog e], DatabaseError msg)
                              end).
    assert (Hq : forall e0 ev e, ev ∈ (hx e0).1 -> ~ raised_by self ev e).
    { intros e0 ev0 e' Hin Hr'. destruct e0; simpl in Hin;
        try (apply list_elem_of_singleton in Hin; now subst);
        now apply not_elem_of_nil in Hin. }
    assert (Hh : handled (raised_by self) hx (item_collection self base_url id limit token)).
    { unfold item_collection.
      apply handled_bind_r; [|now intros [[[page next] previous] count]].
      apply handled_try; [exact Hq| |now intros []].
      apply propagates_bind.
      - destruct (context_extension self); [|apply propagates_ret].
        apply propagates_bind; [now apply propagates_count_rows|].
        intros; apply propagates_ret.
      - intros cnt. apply propagates_bind; [now apply propagates_resolve_token|].
        intros tok. apply propagates_bind; [now apply propagates_page_with_tokens|].
        intros [[pg nx] pv]. apply propagates_ret. }
    assert (Htr' : (item_collection self base_url id limit token).1 = pre ++ ev :: post)
      by now rewrite Hp.
    destruct (Hh pre ev post e Htr' Hr) as [Hpost Hres]. rewrite Hp in Hres. simpl in Hres.
    split.
    + eapply (handled_once (raised_by self) hx Hq); [exact Hh|exact Htr'|exact Hr].
    + destruct e; simpl in *; eauto.
Qed.

Lemma store_errors_are_database_errors_witness :
  (exists msg,
      post_search (failing_client (StoreException "connection lost") false) "http://stac/"
        demo_request
      = ([EvRows (search_query demo_request); EvLog (StoreException "connection lost")],
         inl (DatabaseError msg))) /\
  item_collection (failing_client (NotFoundError "gone") true) "http://stac/" "c1" 10 None
  = ([EvCount (order_by_None
                 (order_by [datetime_desc; id_column] (filter_by (CollectionIn ["c1"]) base_query)))],
     inl (NotFoundError "gone")).
Proof.
  split.
  - destruct (post_search (failing_client (StoreException "connection lost") false)
                "http://stac/" demo_request) as [tr r] eqn:Hp.
    assert (Htr : tr = [] ++ EvRows (search_query demo_request)
                            :: [EvLog (StoreException "connection lost")]).
    { vm_compute in Hp. now injection Hp as <- _. }
    destruct (proj1 (store_errors_are_database_errors
                       (failing_client (StoreException "connection lost") false)
                       "http://stac/")
                _ _ _ _ _ _ (StoreException "connection lost") Hp Htr I eq_refl)
      as (_ & _ & msg & ->).
    exists msg. now rewrite Htr.
  - destruct (item_collection (failing_client (NotFoundError "gone") true)
                "http://stac/" "c1" 10 None) as [tr r] eqn:Hp.
    assert (Htr : tr = [] ++ EvCount (order_by_None
                   (order_by [datetime_desc; id_column]
                      (filter_by (CollectionIn ["c1"]) base_query))) :: []).
    { vm_compute in Hp. now injection Hp as <- _. }
    destruct (proj2 (store_errors_are_database_errors
                       (failing_client (NotFoundError "gone") true) "http://stac/")
                _ _ _ _ _ _ _ _ (NotFoundError "gone") Hp Htr eq_refl)
      as (_ & _ & ->).
    now rewrite Htr.
Defined.

(** ** Pages and their place in the stream *)

Lemma result_set_sorted db q : StronglySorted (row_le (q_order q)) (result_set db q).
Proof. unfold result_set. apply StronglySorted_merge_sort; apply _. Qed.

Lemma filter_all_true {A} (f : A -> bool) (l : list A) :
  Forall (fun x => f x = true) l ->
  filter (fun x => f x = true) l = l /\ filter (fun x => f x = false) l = [].
Proof.
  induction 1 as [|x l Hx _ [IH1 IH2]]; [split; reflexivity|].
  rewrite filter_cons_True by exact Hx.
  rewrite filter_cons_False by (rewrite Hx; discriminate).
  rewrite IH1, IH2. split; reflexivity.
Qed.

(** In a sorted list the rows on which an upward closed test holds form a
    suffix. *)
Lemma sorted_partition {A} (R : relation A) (f : A -> bool) (l : list A) :
  (forall x y, R x y -> f x = true -> f y = true) ->
  StronglySorted R l ->
  l = filter (fun x => f x = false) l ++ filter (fun x => f x = true) l.
Proof.
  intros Hup. induction 1 as [|x l Hs IH Hall]; [reflexivity|].
  destruct (f x) eqn:Hx.
  - assert (Ht : Forall (fun y => f y = true) l).
    { eapply Forall_impl; [exact Hall|]. intros y Hy. simpl. eauto. }
    destruct (filter_all_true f l Ht) as [H1 H2].
    rewrite filter_cons_False by (rewrite Hx; discriminate).
    rewrite filter_cons_True by exact Hx. now rewrite H1, H2.
  - rewrite filter_cons_True by exact Hx.
    rewrite filter_cons_False by (rewrite Hx; discriminate).
    simpl. now rewrite <- IH.
Qed.

(** Read forwards, being beyond the place is upward closed; read backwards,
    not being beyond it is. *)
Lemma beyond_forward_up obs place x y :
  row_le obs x y -> beyond obs false place x = true -> beyond obs false place y = true.
Proof.
  unfold beyond, row_le, compare_rows. destruct place as [p|]; [|auto].
  intros Hxy Hx.
  destruct (compare_keys (directions obs) p (marker obs x)) eqn:Hc; try discriminate.
  now rewrite (compare_keys_lt_le _ _ _ _ (marker_length obs x) (marker_length obs y) Hc Hxy).
Qed.

Lemma beyond_backward_up obs place x y :
  row_le obs x y -> negb (beyond obs true place x) = true ->
  negb (beyond obs true place y) = true.
Proof.
  unfold beyond, row_le, compare_rows. destruct place as [p|]; [|discriminate].
  intros Hxy Hx.
  destruct (compare_keys (directions obs) p (marker obs y)) eqn:Hc; try reflexivity.
  exfalso.
  assert (Hyp : compare_keys (directions obs) (marker obs y) p = Lt).
  { rewrite compare_keys_antisym, Hc. reflexivity. }
  pose proof (compare_keys_le_lt _ _ _ _ (marker_length obs x) (marker_length obs y) Hxy Hyp)
    as Hxp.
  rewrite compare_keys_antisym, Hxp in Hx. discriminate.
Qed.

Lemma filter_negb {A} (f : A -> bool) (l : list A) :
  filter (fun x => negb (f x) = true) l = filter (fun x => f x = false) l /\
  filter (fun x => negb (f x) = false) l = filter (fun x => f x = true) l.
Proof.
  split; apply list_filter_iff; intros x; destruct (f x); simpl; split; congruence.
Qed.

(** The three parts of [stream_split] make up the stream. *)
Lemma stream_split_app db q per_page page :
  let '(before, rows, after) :=
    stream_split (q_order q) per_page page (result_set db q) in
  result_set db q = before ++ rows ++ after.
Proof.
  unfold stream_split. destruct (default (None, false) page) as [place [|]].
  - rewrite app_assoc, take_drop.
    pose proof (sorted_partition (row_le (q_order q))
                  (fun r => negb (beyond (q_order q) true place r)) (result_set db q)
                  (beyond_backward_up (q_order q) place) (result_set_sorted db q)) as H.
    destruct (filter_negb (beyond (q_order q) true place) (result_set db q)) as [H1 H2].
    cbv beta in H. rewrite H1, H2 in H. exact H.
  - rewrite take_drop.
    exact (sorted_partition (row_le (q_order q)) (beyond (q_order q) false place)
             (result_set db q) (beyond_forward_up (q_order q) place) (result_set_sorted db q)).
Qed.

Lemma excess_is_Some {A} n (l : list A) :
  is_Some (head (drop n (take (S n) l))) <-> n < length l.
Proof.
  rewrite head_lookup, lookup_drop, Nat.add_0_r, lookup_take_lt by lia.
  apply lookup_lt_is_Some.
Qed.

Lemma nonempty_length {A} (l : list A) : l <> [] <-> 0 < length l.
Proof. destruct l; simpl; split; try congruence; try lia. Qed.

Lemma marker_bool_fmap obs (o : option Item.t) :
  obs <> [] -> marker_bool (marker obs <$> o) = true <-> is_Some o.
Proof.
  intros Hobs. destruct o as [r|]; simpl.
  - destruct obs as [|oc obs]; [congruence|]. simpl. split; eauto.
  - split; [discriminate|]. intros [x Hx]. discriminate.
Qed.

(** The rows of a page and its two flags, in terms of its place in the
    stream. *)
Lemma paginate_spec obs per_page page all :
  obs <> [] ->
  let pg := paginate obs per_page page all in
  let '(before, rows, after) := stream_split obs per_page page all in
  Paging.rows pg = rows /\
  (has_next pg = true <->
   if (default (None, false) page).2 then marker_bool (default (None, false) page).1 = true
   else after <> []) /\
  (has_previous pg = true <->
   if (default (None, false) page).2 then before <> []
   else marker_bool (default (None, false) page).1 = true).
Proof.
  intros Hobs. unfold paginate, stream_split, fetch_window, make_paging.
  destruct (default (None, false) page) as [place [|]]; simpl.
  - set (far := filter (fun r => beyond obs true place r = true) all).
    rewrite filter_reverse. fold far. split; [|split].
    + rewrite take_take, Nat.min_l by lia.
      now rewrite take_reverse, reverse_involutive.
    + reflexivity.
    + unfold has_previous. simpl. rewrite (marker_bool_fmap obs _ Hobs).
      rewrite excess_is_Some, length_reverse, nonempty_length, length_take. lia.
  - set (far := filter (fun r => beyond obs false place r = true) all).
    split; [|split].
    + now rewrite take_take, Nat.min_l by lia.
    + unfold has_next. simpl. rewrite (marker_bool_fmap obs _ Hobs).
      rewrite excess_is_Some, nonempty_length, length_drop. lia.
    + reflexivity.
Qed.

(** The bookmarks of a page that holds rows are the sort keys of its last
    and of its first row. *)
Lemma paginate_bookmarks obs per_page page all :
  obs <> [] ->
  let pg := paginate obs per_page page all in
  (forall r, last (Paging.rows pg) = Some r -> bookmark_next pg = (Some (marker obs r), false)) /\
  (forall r, head (Paging.rows pg) = Some r ->
             bookmark_previous pg = (Some (marker obs r), true)).
Proof.
  intros Hobs. unfold paginate, make_paging.
  assert (Hor : forall r x, marker_or (Some (marker obs r)) x = Some (marker obs r)).
  { intros r x. unfold marker_or.
    destruct obs as [|oc obs']; [congruence|]. reflexivity. }
  destruct (default (None, false) page) as [place [|]]; simpl; split; intros r Hr;
    unfold bookmark_next, bookmark_previous; simpl.
  - rewrite last_reverse in Hr. rewrite Hr. simpl. now rewrite Hor.
  - rewrite head_reverse in Hr. rewrite Hr. simpl. now rewrite Hor.
  - rewrite Hr. simpl. now rewrite Hor.
  - rewrite Hr. simpl. now rewrite Hor.
Qed.

Lemma search_query_order_nonempty search_request : q_order (search_query search_request) <> [].
Proof.
  unfold search_query.
  assert (Hs : forall q, q_order (apply_sort search_request q) <> []).
  { intros q. unfold apply_sort. destruct (nonempty (STACSearch.sortby _)); simpl;
      intros H; apply app_eq_nil in H as [_ H]; try discriminate.
    apply app_eq_nil in H as [_ H]. discriminate. }
  assert (Hfold : forall cs q1, q_order (foldl (fun q c => filter_by c q) q1 cs) = q_order q1).
  { induction cs as [|c cs IH]; intros q1; simpl; [reflexivity|]. now rewrite IH. }
  destruct (nonempty (STACSearch.ids search_request)).
  - simpl. intros H. apply app_eq_nil in H as [_ H]. discriminate.
  - unfold query_filter, temporal_filter, spatial_filter.
    destruct (nonempty (STACSearch.query _)), (STACSearch.datetime _), (polygon _);
      rewrite ?Hfold; simpl; rewrite ?Hfold; simpl; apply Hs.
Qed.

(** ** Pagination links *)

Lemma link_if_token_for self mk flag b t :
  (forall b s, pc_insert (pagination_client self) b = inr s -> s <> "") ->
  token_for self flag b t ->
  if flag
  then exists s, link_if mk t = [mk s] /\ pc_insert (pagination_client self) b = inr s
  else link_if mk t = [].
Proof.
  intros Hne. unfold token_for. destruct flag.
  - intros (s & -> & Hs). exists s. split; [|exact Hs].
    specialize (Hne _ _ Hs). now destruct s.
  - now intros ->.
Qed.

Lemma near_nil obs backwards (all : list Item.t) :
  filter (fun r => beyond obs backwards None r = false) all = [].
Proof.
  induction all as [|x all IH]; [reflexivity|].
  now rewrite filter_cons_False by (simpl; discriminate).
Qed.

Lemma near_genuine obs backwards (all : list Item.t) r :
  r ∈ all -> filter (fun x => beyond obs backwards (Some (marker obs r)) x = false) all <> [].
Proof.
  intros Hin Hnil.
  assert (Hr : r ∈ filter (fun x => beyond obs backwards (Some (marker obs r)) x = false) all).
  { apply list_elem_of_filter. split; [|exact Hin].
    unfold beyond. rewrite compare_keys_refl. now destruct backwards. }
  rewrite Hnil in Hr. now apply not_elem_of_nil in Hr.
Qed.

(** C5, as the code has it: the response has a next link exactly when the
    page says [has_next] and a previous link exactly when it says
    [has_previous].  Read forwards, the next link is there iff rows follow the
    page, the previous link iff the request carried a place; read backwards,
    the previous link is there iff rows precede the page, the next link iff
    the request carried a place.  When the place is the sort key of a row of
    the result set, or there is none, the next link is there iff rows follow
    the page and the previous link iff rows precede it.  Each link is a POST
    link whose body is the token under ["token"], with [merge] set, and for a
    page that holds rows the token is the one issued for the sort key of its
    last row, forwards, or of its first row, backwards. *)
Theorem post_search_pagination_links (self : CoreCrudClient) (db : Database)
    (base_url : string) (search_request : STACSearch.t) (tr : list event)
    (resp : SearchResponse.t) :
  reader_session self = db_session db ->
  (forall b t, pc_insert (pagination_client self) b = inr t -> t <> "") ->
  post_search self base_url search_request = (tr, inr resp) ->
  exists tok before rows after,
    (exists tr0, resolve_token self (STACSearch.token search_request) = (tr0, inr tok)) /\
    let obs := q_order (search_query search_request) in
    let rs := result_set db (search_query search_request) in
    let place := (default (None, false) tok).1 in
    let backwards := (default (None, false) tok).2 in
    stream_split obs (STACSearch.limit search_request) tok rs = (before, rows, after) /\
    rs = before ++ rows ++ after /\
    map fst (SearchResponse.features resp) = rows /\
    (has_link rel_next resp <->
     if backwards then marker_bool place = true else after <> []) /\
    (has_link rel_previous resp <->
     if backwards then before <> [] else marker_bool place = true) /\
    ((forall p, place = Some p -> exists r, r ∈ rs /\ marker obs r = p) ->
     (has_link rel_next resp <-> after <> []) /\
     (has_link rel_previous resp <-> before <> [])) /\
    (forall l, l ∈ SearchResponse.links resp ->
       exists t,
         l = search_link base_url (PaginationLink.rel l) t /\
         PaginationLink.body l = Some [("token", t)] /\
         PaginationLink.merge l = true /\
         (forall r, PaginationLink.rel l = rel_next -> last rows = Some r ->
            pc_insert (pagination_client self) (Some (marker obs r), false) = inr t) /\
         (forall r, PaginationLink.rel l = rel_previous -> head rows = Some r ->
            pc_insert (pagination_client self) (Some (marker obs r), true) = inr t)).
Proof.
  intros Hs Hne Hp.
  apply post_search_inr in Hp
    as (tok & all & next & previous & count & Htok & Hall & Hnext & Hprev & _ & ->).
  rewrite Hs in Hall. simpl in Hall. injection Hall as <-.
  set (obs := q_order (search_query search_request)) in *.
  set (rs := result_set db (search_query search_request)) in *.
  set (n := STACSearch.limit search_request) in *.
  pose proof (search_query_order_nonempty search_request) as Hobs. fold obs in Hobs.
  pose proof (paginate_spec obs n tok rs Hobs) as Hspec.
  pose proof (paginate_bookmarks obs n tok rs Hobs) as [Hbn Hbp].
  pose proof (stream_split_app db (search_query search_request) n tok) as Happ.
  fold obs rs in Happ.
  destruct (stream_split obs n tok rs) as [[before rows] after] eqn:Hsplit.
  simpl in Hspec. destruct Hspec as (Hrows & Hhn & Hhp).
  set (pg := paginate obs n tok rs) in *.
  apply (link_if_token_for self (search_link base_url rel_next) _ _ _ Hne) in Hnext.
  apply (link_if_token_for self (search_link base_url rel_previous) _ _ _ Hne) in Hprev.
  assert (Hln : has_link rel_next (search_response self base_url search_request pg next
                                     previous count) <-> has_next pg = true).
  { unfold has_link, search_response. simpl.
    destruct (has_next pg), (has_previous pg).
    - destruct Hnext as (s & -> & _), Hprev as (s' & -> & _). split; [auto|].
      intros _. eexists. split; [left|reflexivity].
    - destruct Hnext as (s & -> & _). rewrite Hprev. split; [auto|].
      intros _. eexists. split; [left|reflexivity].
    - destruct Hprev as (s' & -> & _). rewrite Hnext. simpl. split; [|discriminate].
      intros (l & Hl & Hrel). apply list_elem_of_singleton in Hl. subst l. discriminate.
    - rewrite Hnext, Hprev. simpl. split; [|discriminate].
      intros (l & Hl & _). now apply not_elem_of_nil in Hl. }
  assert (Hlp : has_link rel_previous (search_response self base_url search_request pg next
                                         previous count) <-> has_previous pg = true).
  { unfold has_link, search_response. simpl.
    destruct (has_next pg), (has_previous pg).
    - destruct Hnext as (s & -> & _), Hprev as (s' & -> & _). split; [auto|].
      intros _. eexists. split; [right; left|reflexivity].
    - destruct Hnext as (s & -> & _). rewrite Hprev. simpl. split; [|discriminate].
      intros (l & Hl & Hrel). apply list_elem_of_singleton in Hl. subst l. discriminate.
    - destruct Hprev as (s' & -> & _). rewrite Hnext. split; [auto|].
      intros _. eexists. split; [left|reflexivity].
    - rewrite Hnext, Hprev. simpl. split; [|discriminate].
      intros (l & Hl & _). now apply not_elem_of_nil in Hl. }
  exists tok, before, rows, after. split; [exact Htok|]. cbv zeta.
  split; [exact Hsplit|]. split; [exact Happ|].
  split; [now rewrite search_response_features|].
  split; [now rewrite Hln|]. split; [now rewrite Hlp|]. split.
  - intros Hgen. rewrite Hln, Hlp, Hhn, Hhp.
    unfold stream_split in Hsplit.
    destruct (default (None, false) tok) as [place [|]] eqn:Hd; simpl in *.
    + injection Hsplit as <- <- <-. split; [|reflexivity].
      destruct place as [p|].
      * destruct (Hgen p eq_refl) as (r & Hr & <-).
        split; intros _; [now apply near_genuine|].
        destruct obs; [congruence|reflexivity].
      * rewrite near_nil. split; [discriminate|congruence].
    + injection Hsplit as <- <- <-. split; [reflexivity|].
      destruct place as [p|].
      * destruct (Hgen p eq_refl) as (r & Hr & <-).
        split; intros _; [now apply near_genuine|].
        destruct obs; [congruence|reflexivity].
      * rewrite near_nil. split; [discriminate|congruence].
  - intros l Hl. unfold search_response in Hl. simpl in Hl. rewrite <- Hrows.
    apply elem_of_app in Hl as [Hl|Hl].
    + destruct (has_next pg); [|rewrite Hnext in Hl; now apply not_elem_of_nil in Hl].
      destruct Hnext as (s & Hnext & Hins). rewrite Hnext in Hl.
      apply list_elem_of_singleton in Hl. subst l. exists s. simpl.
      split; [reflexivity|]. split; [reflexivity|]. split; [reflexivity|].
      split; [|discriminate]. intros r _ Hr. now rewrite <- (Hbn r Hr).
    + destruct (has_previous pg); [|rewrite Hprev in Hl; now apply not_elem_of_nil in Hl].
      destruct Hprev as (s & Hprev & Hins). rewrite Hprev in Hl.
      apply list_elem_of_singleton in Hl. subst l. exists s. simpl.
      split; [reflexivity|]. split; [reflexivity|]. split; [reflexivity|].
      split; [discriminate|]. intros r _ Hr. now rewrite <- (Hbp r Hr).
Qed.

Lemma demo_tokens_nonempty place b t :
  pc_insert (pagination_client (demo_client demo_db place)) b = inr t -> t <> "".
Proof. simpl. intros [= <-]. discriminate. Qed.

Lemma post_search_pagination_links_witness :
  exists tr resp,
    post_search (demo_client demo_db []) "http://stac/" demo_request = (tr, inr resp) /\
    map fst (SearchResponse.features resp) = [item_c; item_b] /\
    has_link rel_next resp /\
    ~ has_link rel_previous resp.
Proof.
  destruct (post_search (demo_client demo_db []) "http://stac/" demo_request)
    as [tr [e|resp]] eqn:Hp; [vm_compute in Hp; discriminate|].
  exists tr, resp. split; [reflexivity|].
  destruct (post_search_pagination_links (demo_client demo_db []) demo_db "http://stac/"
              demo_request tr resp eq_refl (demo_tokens_nonempty []) Hp)
    as (tok & before & rows & after & (tr0 & Htok) & Hsplit & _ & Hrows & Hn & Hpv & _).
  assert (tok = None) as -> by (vm_compute in Htok; now injection Htok).
  vm_compute in Hsplit. injection Hsplit as <- <- <-.
  split; [exact Hrows|]. simpl in Hn, Hpv. split.
  - apply Hn. discriminate.
  - intros H. apply Hpv in H. discriminate.
Defined.

(** C5 as stated fails for a page read forwards from a place that no row of
    the result set holds any more: the page starts with the first row of the
    stream, no row precedes it, yet the response carries a previous link. *)
Lemma post_search_previous_link_without_rows_before :
  exists tr resp,
    post_search (demo_client demo_db [VInt 9; VStr "z"]) "http://stac/" token_request
      = (tr, inr resp) /\
    result_set demo_db (search_query token_request) = [item_c; item_b; item_a] /\
    map fst (SearchResponse.features resp) = [item_c; item_b] /\
    Forall (fun r => compare_rows (q_order (search_query token_request)) r item_c <> Lt)
      (result_set demo_db (search_query token_request)) /\
    has_link rel_previous resp.
Proof.
  eexists _, _. split; [vm_compute; reflexivity|].
  split; [vm_compute; reflexivity|]. split; [reflexivity|]. split.
  - assert (Hrs : result_set demo_db (search_query token_request) = [item_c; item_b; item_a])
      by (vm_compute; reflexivity).
    rewrite Hrs. repeat constructor; vm_compute; discriminate.
  - eexists. split; [right; left|reflexivity].
Qed.

(** * Further properties of the client *)

(** ** The calls of a search *)

Lemma store_calls_bind {A B} (m : M A) (f : A -> M B) :
  filter store_event (m ≫= f).1 =
  filter store_event m.1 ++
  match m.2 with
  | inr a => filter store_event (f a).1
  | inl _ => []
  end.
Proof.
  unfold mbind, M_bind, bind. destruct m as [tr1 [e|a]]; simpl.
  - now rewrite app_nil_r.
  - destruct (f a) as [tr2 r]. simpl. apply filter_app.
Qed.

Lemma M_bind_ret_trace {A B} (m : M A) (g : A -> B) :
  filter store_event (m ≫= fun a => mret (g a)).1 = filter store_event m.1.
Proof.
  rewrite store_calls_bind. destruct m.2; simpl; apply app_nil_r.
Qed.

Lemma store_calls_try {A} (m : M A) msg :
  filter store_event (try_except m (database_error msg)).1 = filter store_event m.1.
Proof.
  destruct m as [tr1 [e|a]]; [|reflexivity].
  unfold try_except. rewrite database_error_eq. simpl.
  rewrite filter_app. simpl. apply app_nil_r.
Qed.

Lemma store_calls_resolve_token self token :
  filter store_event (resolve_token self token).1 = [].
Proof.
  unfold resolve_token. destruct token as [t|]; [|reflexivity].
  destruct (str_bool (Some t)); [|reflexivity].
  unfold mbind, M_bind, bind, call. now destruct (pc_get (pagination_client self) t).
Qed.

Lemma store_calls_insert_if self flag b :
  filter store_event (insert_if self flag b).1 = [].
Proof.
  unfold insert_if. destruct flag; [|reflexivity].
  unfold mbind, M_bind, bind, call. now destruct (pc_insert (pagination_client self) b).
Qed.

Lemma store_calls_page_with_tokens self q n tok :
  filter store_event (page_with_tokens self q n tok).1 = [EvRows q].
Proof.
  unfold page_with_tokens. rewrite store_calls_bind.
  assert (Hg : filter store_event (get_page (reader_session self) q n tok).1 = [EvRows q]).
  { unfold get_page, mbind, M_bind, bind, call.
    now destruct (execute_rows (reader_session self) q). }
  rewrite Hg. destruct (get_page (reader_session self) q n tok).2 as [e|page]; [reflexivity|].
  rewrite store_calls_bind, store_calls_insert_if. simpl.
  destruct (insert_if self (has_next page) (bookmark_next page)).2 as [e|next]; [reflexivity|].
  rewrite store_calls_bind, store_calls_insert_if. simpl.
  now destruct (insert_if self (has_previous page) (bookmark_previous page)).2.
Qed.

(** X1: a search executes against the store at most a count and then the
    rows of one query, in this order.  The count is executed only for a
    search without ids under the context extension; a search that returns
    has made exactly these calls. *)
Theorem post_search_store_calls (self : CoreCrudClient) (base_url : string)
    (search_request : STACSearch.t) (tr : list event) (r : result SearchResponse.t) :
  post_search self base_url search_request = (tr, r) ->
  filter store_event tr `prefix_of` search_store_calls self search_request /\
  (forall resp, r = inr resp ->
                filter store_event tr = search_store_calls self search_request).
Proof.
  intros Hp.
  assert (Htr : tr = (post_search self base_url search_request).1) by now rewrite Hp.
  assert (Hr : r = (post_search self base_url search_request).2) by now rewrite Hp.
  subst tr r. clear Hp. unfold post_search, search_store_calls, search_query.
  rewrite store_calls_bind, store_calls_resolve_token. simpl.
  set (query := apply_sort search_request (filter_collections search_request base_query)).
  destruct (resolve_token self (STACSearch.token search_request)) as [tr0 [e|tok]] eqn:Htok;
    simpl.
  { split; [apply prefix_nil|]. intros resp H.
    unfold mbind, M_bind, bind in H. simpl in H. discriminate. }
  rewrite store_calls_bind.
  assert (Hret : forall x : result (Paging.t * option string * option string * option nat),
             match x with
             | inr a => filter store_event
                          (let '(page, next, previous, count) := a in
                           @mret M _ _ (search_response self base_url search_request
                                          page next previous count)).1
             | inl _ => []
             end = []).
  { intros [e|[[[pg nx] pv] c]]; reflexivity. }
  rewrite Hret, app_nil_r.
  destruct (nonempty (STACSearch.ids search_request)) as [ids|] eqn:Hids.
  - unfold search_by_ids. rewrite store_calls_try, store_calls_bind,
      store_calls_page_with_tokens.
    assert (Hnil : forall x : result (Paging.t * option string * option string),
               match x with
               | inr a => filter store_event
                            (let '(page, next, previous) := a in
                             @mret M _ _
                               (page, next, previous,
                                if context_extension self then Some (length ids) else None)).1
               | inl _ => []
               end = []).
    { intros [e|[[pg nx] pv]]; reflexivity. }
    rewrite Hnil. simpl. split; [reflexivity|intros; reflexivity].
  - unfold search_by_filters.
    set (q := query_filter search_request
                (temporal_filter search_request (spatial_filter search_request query))).
    rewrite store_calls_try, store_calls_bind.
    assert (Hnil : forall (c : option nat)
                     (x : result (Paging.t * option string * option string)),
               match x with
               | inr a => filter store_event
                            (let '(page, next, previous) := a in
                             @mret M _ _ (page, next, previous, c)).1
               | inl _ => []
               end = []).
    { intros c [e|[[pg nx] pv]]; reflexivity. }
    destruct (context_extension self) eqn:Hc.
    + rewrite store_calls_bind. unfold count_rows at 1. simpl.
      destruct (execute_count (reader_session self) (order_by_None q)) as [e|n] eqn:He.
      * unfold count_rows, call. rewrite ?He. simpl. split.
        { exists [EvRows q]. reflexivity. }
        intros resp H. exfalso.
        unfold search_by_filters in H. fold q in H.
        unfold mbind, M_bind, bind, try_except, count_rows, call in H.
        rewrite ?Hc, ?He in H. simpl in H. discriminate.
      * unfold count_rows, call. rewrite ?He. simpl.
        rewrite store_calls_bind, store_calls_page_with_tokens, Hnil. simpl.
        split; [reflexivity|intros; reflexivity].
    + simpl. rewrite store_calls_bind, store_calls_page_with_tokens, Hnil. simpl.
      split; [reflexivity|intros; reflexivity].
Qed.

Lemma post_search_store_calls_witness :
  exists tr resp,
    post_search (demo_client demo_db []) "http://stac/" demo_request = (tr, inr resp) /\
    filter store_event tr
    = [EvCount (order_by_None (search_query demo_request)); EvRows (search_query demo_request)].
Proof.
  destruct (post_search (demo_client demo_db []) "http://stac/" demo_request)
    as [tr [e|resp]] eqn:Hp; [vm_compute in Hp; discriminate|].
  exists tr, resp. split; [reflexivity|].
  destruct (post_search_store_calls _ _ _ _ _ Hp) as [_ H]. exact (H resp eq_refl).
Defined.

(** ** The token of a search *)



(** Under its handler a search turns everything the try block raises into a
    logged [DatabaseError]. *)
Lemma post_search_handled self base_url search_request (raised : event -> exn -> Prop) :
  (forall ev e, raised ev e -> raised_by self ev e) ->
  (forall t e, ~ raised (EvTokenGet t) e) ->
  handled raised (fun e => ([EvLog e], DatabaseError (search_error_message search_request)))
    (post_search self base_url search_request).
Proof.
  intros Hsub Hget.
  assert (Hq : forall e0 ev e,
             ev ∈ ((fun e => ([EvLog e], DatabaseError (search_error_message search_request)))
                     e0).1 -> ~ raised ev e).
  { intros e0 ev e Hin Hr. apply list_elem_of_singleton in Hin. subst ev.
    apply Hsub in Hr. exact Hr. }
  unfold post_search. apply handled_bind_l.
  { intros ev e Hin Hr. apply resolve_token_events in Hin as (t & ->). exact (Hget _ _ Hr). }
  intros tok. apply handled_bind_r; [|now intros [[[page next] previous] count]].
  unfold search_error_message in *.
  destruct (nonempty (STACSearch.ids search_request)) as [ids|].
  - unfold search_by_ids. apply handled_try; [exact Hq| |reflexivity].
    apply propagates_bind; [now apply propagates_page_with_tokens|].
    intros [[pg nx] pv]. apply propagates_ret.
  - unfold search_by_filters. apply handled_try; [exact Hq| |reflexivity].
    apply propagates_bind.
    + destruct (context_extension self); [|apply propagates_ret].
      apply propagates_bind; [now apply propagates_count_rows|].
      intros; apply propagates_ret.
    + intros cnt. apply propagates_bind; [now apply propagates_page_with_tokens|].
      intros [[pg nx] pv]. apply propagates_ret.
Qed.

(** X3: when the token table raises while a page token is stored, the search
    logs the exception and raises [DatabaseError]: the page that was read is
    not returned. *)
Theorem post_search_token_insert_fails (self : CoreCrudClient) (base_url : string)
    (search_request : STACSearch.t) (tr : list event) (r : result SearchResponse.t)
    (pre post : list event) (b : bookmark) (e : exn) :
  post_search self base_url search_request = (tr, r) ->
  tr = pre ++ EvTokenInsert b :: post ->
  pc_insert (pagination_client self) b = inl e ->
  post = [EvLog e] /\
  r = inl (DatabaseError (search_error_message search_request)).
Proof.
  intros Hp Htr He.
  set (raised := fun ev e => (exists b, ev = EvTokenInsert b) /\ raised_by self ev e).
  assert (Hh : handled raised
                 (fun e => ([EvLog e], DatabaseError (search_error_message search_request)))
                 (post_search self base_url search_request)).
  { apply post_search_handled.
    - now intros ev e' [_ H].
    - intros t e' [(b' & H) _]. discriminate. }
  assert (Htr' : (post_search self base_url search_request).1 = pre ++ EvTokenInsert b :: post)
    by now rewrite Hp.
  destruct (Hh pre _ post e Htr' (conj (ex_intro _ b eq_refl) He)) as [Hpost Hres].
  rewrite Hp in Hres. simpl in Hpost, Hres. split; [exact Hpost|exact Hres].
Qed.

Lemma post_search_token_insert_fails_witness :
  exists b,
    post_search (full_table_client demo_db) "http://stac/" demo_request
    = ([EvRows (search_query demo_request); EvTokenInsert b;
        EvLog (StoreException "table full")],
       inl (DatabaseError (search_error_message demo_request))).
Proof.
  destruct (post_search (full_table_client demo_db) "http://stac/" demo_request)
    as [tr r] eqn:Hp.
  assert (Htr : tr = [EvRows (search_query demo_request)]
                     ++ EvTokenInsert (Some [VInt 2; VStr "b"], false)
                     :: [EvLog (StoreException "table full")]).
  { vm_compute in Hp. now injection Hp as <- _. }
  destruct (post_search_token_insert_fails _ _ _ _ _ _ _ _ (StoreException "table full")
              Hp Htr eq_refl) as [_ ->].
  eexists. now rewrite Htr.
Defined.

(** ** The rows of a returned page *)

(** The features of a returned response are the page part of the stream. *)
Lemma post_search_rows self db base_url search_request tr resp :
  reader_session self = db_session db ->
  post_search self base_url search_request = (tr, inr resp) ->
  exists tok,
    (exists tr0, resolve_token self (STACSearch.token search_request) = (tr0, inr tok)) /\
    map fst (SearchResponse.features resp)
    = (stream_split (q_order (search_query search_request))
         (STACSearch.limit search_request) tok
         (result_set db (search_query search_request))).1.2.
Proof.
  intros Hs Hp.
  apply post_search_inr in Hp
    as (tok & all & next & previous & count & Htok & Hall & _ & _ & _ & ->).
  rewrite Hs in Hall. simpl in Hall. injection Hall as <-.
  exists tok. split; [exact Htok|]. rewrite search_response_features.
  pose proof (paginate_spec (q_order (search_query search_request))
                (STACSearch.limit search_request) tok
                (result_set db (search_query search_request))
                (search_query_order_nonempty search_request)) as H.
  destruct (stream_split _ _ _ _) as [[before rows] after]. simpl in *. apply H.
Qed.

Lemma stream_split_length obs per_page page all :
  length (stream_split obs per_page page all).1.2 <= per_page.
Proof.
  unfold stream_split. destruct (default (None, false) page) as [place [|]]; simpl.
  - rewrite length_drop. lia.
  - rewrite length_take. lia.
Qed.

(** X4: a search never returns more items than its limit; the returned items
    are consecutive rows of the result set of the compiled query, in its
    order: each is an item of the store that passes every compiled filter, and
    no item of the result set that lies between two returned items is left
    out. *)
Theorem post_search_page_is_segment (self : CoreCrudClient) (db : Database)
    (base_url : string) (search_request : STACSearch.t) (tr : list event)
    (resp : SearchResponse.t) :
  reader_session self = db_session db ->
  post_search self base_url search_request = (tr, inr resp) ->
  let items := map fst (SearchResponse.features resp) in
  length items <= STACSearch.limit search_request /\
  (exists before after,
      result_set db (search_query search_request) = before ++ items ++ after) /\
  StronglySorted (row_le (q_order (search_query search_request))) items /\
  (forall it, it ∈ items ->
     it ∈ db_items db /\
     eval_filters db (q_filters (search_query search_request)) it = true).
Proof.
  intros Hs Hp. destruct (post_search_rows _ _ _ _ _ _ Hs Hp) as (tok & _ & Hrows).
  cbv zeta. rewrite Hrows.
  pose proof (stream_split_app db (search_query search_request)
                (STACSearch.limit search_request) tok) as Happ.
  pose proof (stream_split_length (q_order (search_query search_request))
                (STACSearch.limit search_request) tok
                (result_set db (search_query search_request))) as Hlen.
  destruct (stream_split _ _ _ _) as [[before rows] after]. simpl in *.
  split; [exact Hlen|]. split; [eauto|].
  pose proof (result_set_sorted db (search_query search_request)) as Hsorted.
  rewrite Happ in Hsorted. split.
  - apply StronglySorted_app_1_r in Hsorted. now apply StronglySorted_app_1_l in Hsorted.
  - intros it Hin. apply elem_of_result_set. rewrite Happ.
    apply elem_of_app. right. apply elem_of_app. now left.
Qed.

Lemma post_search_page_is_segment_witness :
  exists tr resp,
    post_search (demo_client demo_db []) "http://stac/" demo_request = (tr, inr resp) /\
    length (map fst (SearchResponse.features resp)) <= 2 /\
    result_set demo_db (search_query demo_request)
    = [] ++ map fst (SearchResponse.features resp) ++ [item_a].
Proof.
  destruct (post_search (demo_client demo_db []) "http://stac/" demo_request)
    as [tr [e|resp]] eqn:Hp; [vm_compute in Hp; discriminate|].
  exists tr, resp. split; [reflexivity|].
  destruct (post_search_page_is_segment (demo_client demo_db []) demo_db _ _ _ _ eq_refl Hp)
    as (Hlen & _). split; [exact Hlen|].
  vm_compute in Hp. injection Hp as _ <-. vm_compute. reflexivity.
Defined.

(** ** The clauses of the temporal and field filters *)



(** ** Following a bookmark *)

Lemma filter_split_true {A} (f : A -> bool) (l1 l2 : list A) :
  Forall (fun x => f x = false) l1 -> Forall (fun x => f x = true) l2 ->
  filter (fun x => f x = true) (l1 ++ l2) = l2.
Proof.
  intros H1 H2. rewrite filter_app.
  destruct (filter_all_true f l2 H2) as [-> _].
  assert (Hnil : filter (fun x => f x = true) l1 = []).
  { induction H1 as [|x l Hx _ IH]; [reflexivity|].
    rewrite filter_cons_False by (rewrite Hx; discriminate). exact IH. }
  now rewrite Hnil.
Qed.

Lemma NoDup_map_filter {A B} (f : A -> B) (P : A -> Prop) `{!forall x, Decision (P x)}
    (l : list A) :
  NoDup (map f l) -> NoDup (map f (filter P l)).
Proof.
  induction l as [|x l IH]; simpl; [auto|]. intros Hnd. apply NoDup_cons in Hnd as [Hx Hnd].
  destruct (decide (P x)).
  - rewrite filter_cons_True by assumption. simpl. apply NoDup_cons. split; [|auto].
    intros Hin. apply Hx. apply list_elem_of_In, in_map_iff in Hin as (y & Hy & Hin).
    apply list_elem_of_In, in_map_iff. exists y. split; [exact Hy|].
    apply list_elem_of_In. apply list_elem_of_In in Hin.
    now apply list_elem_of_filter in Hin as [_ Hin].
  - rewrite filter_cons_False by assumption. auto.
Qed.

Lemma result_set_NoDup db q :
  NoDup (map Item.id (db_items db)) -> NoDup (map Item.id (result_set db q)).
Proof.
  intros Hnd. unfold result_set.
  eapply NoDup_Permutation_proper.
  - apply Permutation_map. apply merge_sort_Permutation.
  - now apply NoDup_map_filter.
Qed.

(** In a result set without two items of the same identifier, the rows before
    a row compare below it and the rows after it above. *)
Lemma result_set_around db q before r after :
  id_column ∈ q_order q ->
  NoDup (map Item.id (db_items db)) ->
  result_set db q = before ++ r :: after ->
  Forall (fun x => compare_rows (q_order q) x r = Lt) before /\
  Forall (fun x => compare_rows (q_order q) r x = Lt) after.
Proof.
  intros Hid Hnd Hrs.
  pose proof (result_set_sorted db q) as Hs.
  pose proof (result_set_NoDup db q Hnd) as Hn.
  rewrite Hrs in Hs, Hn. rewrite map_app in Hn. simpl in Hn.
  apply NoDup_app in Hn as (_ & Hb & Hn). apply NoDup_cons in Hn as [Ha _].
  apply StronglySorted_app in Hs as (Hle & _ & Hs).
  apply StronglySorted_cons in Hs as [Hge _].
  split; apply Forall_forall.
  - intros x Hx. specialize (Hle x r Hx (list_elem_of_here _ _)).
    unfold row_le in Hle. destruct (compare_rows (q_order q) x r) eqn:Hc;
      [|reflexivity|congruence].
    exfalso. apply (compare_rows_id _ _ _ Hid) in Hc.
    apply (Hb (Item.id x)).
    + apply list_elem_of_In, in_map_iff. exists x. split; [reflexivity|].
      now apply list_elem_of_In.
    + rewrite Hc. left.
  - intros x Hx. rewrite Forall_forall in Hge. specialize (Hge x Hx).
    unfold row_le in Hge. destruct (compare_rows (q_order q) r x) eqn:Hc;
      [|reflexivity|congruence].
    exfalso. apply (compare_rows_id _ _ _ Hid) in Hc. apply Ha. rewrite Hc.
    apply list_elem_of_In, in_map_iff. exists x. split; [reflexivity|].
    now apply list_elem_of_In.
Qed.

Lemma search_query_order_id search_request : id_column ∈ q_order (search_query search_request).
Proof.
  unfold search_query.
  assert (Hs : forall q, id_column ∈ q_order (apply_sort search_request q)).
  { intros q. unfold apply_sort. destruct (nonempty (STACSearch.sortby _)); simpl;
      rewrite !elem_of_app; right.
    - right. left.
    - right. left. }
  assert (Hfold : forall cs q1, q_order (foldl (fun q c => filter_by c q) q1 cs) = q_order q1).
  { induction cs as [|c cs IH]; intros q1; simpl; [reflexivity|]. now rewrite IH. }
  destruct (nonempty (STACSearch.ids search_request)).
  - simpl. apply elem_of_app. right. left.
  - unfold query_filter, temporal_filter, spatial_filter.
    destruct (nonempty (STACSearch.query _)), (STACSearch.datetime _), (polygon _);
      rewrite ?Hfold; simpl; rewrite ?Hfold; simpl; apply Hs.
Qed.

(** X6: in a store without two items of the same identifier, a search whose
    token resolves to the forward bookmark at the sort key of a row of the
    result set returns the rows that come right after that row, as many as
    the limit allows: none is skipped, none comes again.  With the backward
    bookmark at that sort key it returns the rows right before the row. *)
Theorem post_search_follows_bookmark (self : CoreCrudClient) (db : Database)
    (base_url : string) (search_request : STACSearch.t) (tr : list event)
    (resp : SearchResponse.t) (t : string) (before : list Item.t) (r : Item.t)
    (after : list Item.t) :
  reader_session self = db_session db ->
  NoDup (map Item.id (db_items db)) ->
  STACSearch.token search_request = Some t -> t <> "" ->
  result_set db (search_query search_request) = before ++ r :: after ->
  post_search self base_url search_request = (tr, inr resp) ->
  (pc_get (pagination_client self) t
   = inr (Some (marker (q_order (search_query search_request)) r), false) ->
   map fst (SearchResponse.features resp) = take (STACSearch.limit search_request) after) /\
  (pc_get (pagination_client self) t
   = inr (Some (marker (q_order (search_query search_request)) r), true) ->
   map fst (SearchResponse.features resp)
   = drop (length before - STACSearch.limit search_request) before).
Proof.
  intros Hs Hnd Ht Hne Hrs Hp.
  destruct (post_search_rows _ _ _ _ _ _ Hs Hp) as (tok & (tr0 & Htok) & Hrows).
  apply resolve_token_inr in Htok. rewrite Ht in Htok.
  destruct t as [|c t]; [congruence|]. simpl in Htok. destruct Htok as (b & -> & Hget).
  set (obs := q_order (search_query search_request)) in *.
  destruct (result_set_around db (search_query search_request) before r after
              (search_query_order_id search_request) Hnd Hrs) as [Hb Ha].
  fold obs in Hb, Ha. rewrite Hrows, Hrs. clear Hrows.
  split; intros Hb'; rewrite Hb' in Hget; injection Hget as <-;
    unfold stream_split; cbn [default from_option id fst snd].
  - replace (before ++ r :: after) with ((before ++ [r]) ++ after)
      by now rewrite <- app_assoc.
    rewrite (filter_split_true (beyond obs false (Some (marker obs r)))); [reflexivity| |].
    + apply Forall_app. split.
      * eapply Forall_impl; [exact Hb|]. intros x Hx. unfold beyond.
        unfold compare_rows in Hx. rewrite compare_keys_antisym, Hx. reflexivity.
      * repeat constructor. unfold beyond. now rewrite compare_keys_refl.
    + eapply Forall_impl; [exact Ha|]. intros x Hx. unfold beyond.
      unfold compare_rows in Hx. now rewrite Hx.
  - assert (Hfar : filter (fun x => beyond obs true (Some (marker obs r)) x = true)
                     (before ++ r :: after) = before).
    { rewrite filter_app.
      assert (H1 : Forall (fun x => beyond obs true (Some (marker obs r)) x = true) before).
      { eapply Forall_impl; [exact Hb|]. intros x Hx. unfold beyond.
        unfold compare_rows in Hx. rewrite compare_keys_antisym, Hx. reflexivity. }
      destruct (filter_all_true _ _ H1) as [-> _].
      assert (H2 : Forall (fun x => negb (beyond obs true (Some (marker obs r)) x) = true)
                     (r :: after)).
      { constructor.
        - unfold beyond. now rewrite compare_keys_refl.
        - eapply Forall_impl; [exact Ha|]. intros x Hx. unfold beyond.
          unfold compare_rows in Hx. now rewrite Hx. }
      destruct (filter_all_true _ _ H2) as [_ H3].
      destruct (filter_negb (beyond obs true (Some (marker obs r))) (r :: after))
        as [_ H4].
      rewrite <- H4, H3. apply app_nil_r. }
    rewrite Hfar. reflexivity.
Qed.

Lemma demo_db_NoDup : NoDup (map Item.id (db_items demo_db)).
Proof. apply (bool_decide_unpack _). vm_compute. exact I. Qed.

Lemma post_search_follows_bookmark_witness :
  exists tr resp,
    post_search (bookmark_client demo_db (Some [VInt 3; VStr "c"], false)) "http://stac/"
      token_request = (tr, inr resp) /\
    map fst (SearchResponse.features resp) = [item_b; item_a].
Proof.
  destruct (post_search (bookmark_client demo_db (Some [VInt 3; VStr "c"], false))
              "http://stac/" token_request) as [tr [e|resp]] eqn:Hp;
    [vm_compute in Hp; discriminate|].
  exists tr, resp. split; [reflexivity|].
  assert (Hrs : result_set demo_db (search_query token_request) = [] ++ item_c :: [item_b; item_a])
    by (vm_compute; reflexivity).
  assert (Hne : "T" <> "") by discriminate.
  destruct (post_search_follows_bookmark
              (bookmark_client demo_db (Some [VInt 3; VStr "c"], false)) demo_db
              "http://stac/" token_request tr resp "T" [] item_c [item_b; item_a]
              eq_refl demo_db_NoDup eq_refl Hne Hrs Hp) as [H _].
  apply H. reflexivity.
Defined.

(** ** The items of a collection *)

Lemma try_reraise_inr {A} (m : M A) msg tr a :
  try_except m (reraise_not_found msg) = (tr, inr a) -> m = (tr, inr a).
Proof.
  destruct m as [tr1 [e|a']]; unfold try_except; [|intros H; exact H].
  destruct e; simpl; discriminate.
Qed.

(** What a returned item collection is made of. *)
Lemma item_collection_inr self base_url id limit token tr resp :
  item_collection self base_url id limit token = (tr, inr resp) ->
  exists tok all next previous count,
    (exists tr0, resolve_token self token = (tr0, inr tok)) /\
    execute_rows (reader_session self) (items_query id) = inr all /\
    let page := paginate (q_order (items_query id)) limit tok all in
    token_for self (has_next page) (bookmark_next page) next /\
    token_for self (has_previous page) (bookmark_previous page) previous /\
    (if context_extension self
     then exists n, count = Some n /\
                    execute_count (reader_session self) (order_by_None (items_query id)) = inr n
     else count = None) /\
    ItemCollection.features resp = Paging.rows page /\
    ItemCollection.links resp
    = link_if (items_link base_url id limit rel_next) next
      ++ link_if (items_link base_url id limit rel_previous) previous /\
    ItemCollection.context resp
    = if context_extension self
      then Some {| Context.returned := length (Paging.rows page);
                   Context.limit := limit;
                   Context.matched := count |}
      else None.
Proof.
  unfold item_collection. fold (items_query id). intros H.
  apply bind_inr in H as (tr1 & [[[page next] previous] count] & tr2 & Hs & H & _).
  injection H as _ <-.
  apply try_reraise_inr in Hs.
  apply bind_inr in Hs as (tr3 & cnt & tr4 & Hc & Hs & _).
  apply bind_inr in Hs as (tr5 & tok & tr6 & Htok & Hs & _).
  apply bind_inr in Hs as (tr7 & [[pg nx] pv] & tr8 & Hp & Hs & _).
  injection Hs as _ <- <- <- <-.
  apply page_with_tokens_inr in Hp as (all & Ha & -> & Hn & Hv).
  exists tok, all, nx, pv, cnt. split; [eauto|]. split; [exact Ha|].
  split; [exact Hn|]. split; [exact Hv|]. split; [|simpl; auto].
  destruct (context_extension self).
  - apply bind_inr in Hc as (tr9 & n & tr10 & Hc & Hr & _).
    injection Hr as _ <-. unfold count_rows, call in Hc. injection Hc as _ Hc.
    exists n. split; [reflexivity|exact Hc].
  - now injection Hc as _ <-.
Qed.

Lemma items_query_rows db id it :
  it ∈ result_set db (items_query id) <-> it ∈ db_items db /\ Item.collection_id it = id.
Proof.
  rewrite elem_of_result_set. unfold items_query, eval_filters. simpl.
  rewrite !andb_true_r, orb_false_r, String.eqb_eq. tauto.
Qed.

(** The order of [item_collection], spelled out: the later item first, and
    of two items of the same timestamp the one with the lesser identifier. *)
Lemma row_le_latest_first a b :
  row_le [datetime_desc; id_column] a b ->
  (Item.datetime b < Item.datetime a)%Z \/
  (Item.datetime a = Item.datetime b /\ String.compare (Item.id a) (Item.id b) <> Gt).
Proof.
  unfold row_le, compare_rows. simpl.
  destruct (Item.datetime a ?= Item.datetime b)%Z eqn:Hc; simpl.
  - apply Z.compare_eq in Hc. intros H. right. split; [exact Hc|].
    now destruct (String.compare (Item.id a) (Item.id b)).
  - congruence.
  - intros _. left. apply Z.compare_gt_iff in Hc. exact Hc.
Qed.

(** X7: [item_collection] returns at most [limit] items, consecutive rows of
    the items of the requested collection taken latest first (ties by
    identifier), and no item of another collection.  Under the context
    extension [returned] is the number of items of the page and [matched] the
    number of items the collection holds in the store, obtained by a count. *)
Theorem item_collection_page (self : CoreCrudClient) (db : Database) (base_url id : string)
    (limit : nat) (token : option string) (tr : list event) (resp : ItemCollection.t) :
  reader_session self = db_session db ->
  item_collection self base_url id limit token = (tr, inr resp) ->
  let items := ItemCollection.features resp in
  length items <= limit /\
  (exists before after, result_set db (items_query id) = before ++ items ++ after) /\
  (forall it, it ∈ items -> it ∈ db_items db /\ Item.collection_id it = id) /\
  StronglySorted
    (fun a b => (Item.datetime b < Item.datetime a)%Z \/
                (Item.datetime a = Item.datetime b /\
                 String.compare (Item.id a) (Item.id b) <> Gt)) items /\
  ItemCollection.context resp
  = if context_extension self
    then Some {| Context.returned := length items;
                 Context.limit := limit;
                 Context.matched :=
                   Some (length (filter (fun it => Item.collection_id it = id)
                                   (db_items db))) |}
    else None.
Proof.
  intros Hs Hp.
  apply item_collection_inr in Hp
    as (tok & all & next & previous & count & _ & Hall & _ & _ & Hcount & Hf & _ & Hctx).
  rewrite Hs in Hall. simpl in Hall. injection Hall as <-.
  cbv zeta. rewrite Hf. rewrite Hctx. clear Hf Hctx.
  assert (Hobs : q_order (items_query id) <> []) by discriminate.
  pose proof (paginate_spec (q_order (items_query id)) limit tok
                (result_set db (items_query id)) Hobs) as Hspec.
  pose proof (stream_split_app db (items_query id) limit tok) as Happ.
  pose proof (stream_split_length (q_order (items_query id)) limit tok
                (result_set db (items_query id))) as Hlen.
  destruct (stream_split _ _ _ _) as [[before rows] after]. simpl in *.
  destruct Hspec as (-> & _ & _).
  pose proof (result_set_sorted db (items_query id)) as Hsorted.
  rewrite Happ in Hsorted.
  split; [exact Hlen|]. split; [eauto|]. split; [|split].
  - intros it Hin. apply items_query_rows. rewrite Happ.
    apply elem_of_app. right. apply elem_of_app. now left.
  - apply StronglySorted_app_1_r, StronglySorted_app_1_l in Hsorted.
    clear -Hsorted. induction Hsorted as [|x l _ IH Hall]; constructor; [exact IH|].
    eapply Forall_impl; [exact Hall|]. intros y Hy. now apply row_le_latest_first.
  - destruct (context_extension self); [|reflexivity].
    destruct Hcount as (n & -> & Hn). rewrite Hs in Hn. simpl in Hn. injection Hn as <-.
    do 3 f_equal. f_equal. apply list_filter_iff. intros it.
    unfold eval_filters. simpl. rewrite !andb_true_r, orb_false_r. apply String.eqb_eq.
Qed.

Lemma item_collection_page_witness :
  exists tr resp,
    item_collection (demo_client demo_db []) "http://stac/" "c1" 1 None = (tr, inr resp) /\
    ItemCollection.features resp = [item_b] /\
    ItemCollection.context resp
    = Some {| Context.returned := 1; Context.limit := 1; Context.matched := Some 2 |}.
Proof.
  destruct (item_collection (demo_client demo_db []) "http://stac/" "c1" 1 None)
    as [tr [e|resp]] eqn:Hp; [vm_compute in Hp; discriminate|].
  exists tr, resp. split; [reflexivity|].
  destruct (item_collection_page (demo_client demo_db []) demo_db _ _ _ _ _ _ eq_refl Hp)
    as (_ & _ & _ & _ & Hctx).
  assert (Hf : ItemCollection.features resp = [item_b]).
  { vm_compute in Hp. injection Hp as _ <-. reflexivity. }
  split; [exact Hf|]. rewrite Hctx, Hf. reflexivity.
Defined.

Lemma link_if_elem mk t l :
  l ∈ link_if mk t -> exists s, t = Some s /\ s <> "" /\ l = mk s.
Proof.
  unfold link_if. destruct t as [s|]; [|intros H; now apply not_elem_of_nil in H].
  destruct s as [|c s]; simpl; [intros H; now apply not_elem_of_nil in H|].
  intros H. apply list_elem_of_singleton in H. exists (String c s).
  split; [reflexivity|]. split; [discriminate|exact H].
Qed.

Lemma result_set_length db q :
  length (result_set db q)
  = length (filter (fun it => eval_filters db (q_filters q) it = true) (db_items db)).
Proof. unfold result_set. apply Permutation_length, merge_sort_Permutation. Qed.

(** X8: the links of an item collection, on every page: at most a next link
    and then at most a previous link, each a GET link without body whose href
    names the collection, the limit of the request and a non-empty token that
    the token table issued for a bookmark.  The first page (no token) has a
    next link exactly when the collection holds more items than the limit,
    and no previous link. *)
Theorem item_collection_links (self : CoreCrudClient) (db : Database)
    (base_url id : string) (limit : nat) (token : option string) (tr : list event)
    (resp : ItemCollection.t) :
  reader_session self = db_session db ->
  (forall b t, pc_insert (pagination_client self) b = inr t -> t <> "") ->
  item_collection self base_url id limit token = (tr, inr resp) ->
  let link (r : Relations) (t : string) :=
    {| PaginationLink.rel := r;
       PaginationLink.type := "application/geo+json";
       PaginationLink.href :=
         base_url +:+ "collections/" +:+ id +:+ "/items?token=" +:+ t
           +:+ "&limit=" +:+ pretty limit;
       PaginationLink.method := "GET";
       PaginationLink.body := None;
       PaginationLink.merge := false |} in
  (exists next previous : option string,
      ItemCollection.links resp
      = match next with Some t => [link rel_next t] | None => [] end
        ++ match previous with Some t => [link rel_previous t] | None => [] end /\
      (forall t, next = Some t \/ previous = Some t ->
                 t <> "" /\ exists b, pc_insert (pagination_client self) b = inr t)) /\
  (token = None ->
   ((exists l, l ∈ ItemCollection.links resp /\ PaginationLink.rel l = rel_next) <->
    limit < length (filter (fun it => Item.collection_id it = id) (db_items db))) /\
   ~ (exists l, l ∈ ItemCollection.links resp /\ PaginationLink.rel l = rel_previous)).
Proof.
  intros Hs Hne Hp link.
  apply item_collection_inr in Hp
    as (tok & all & next & previous & count & (tr0 & Htok) & Hall & Hn & Hv & _ & _ & Hl & _).
  rewrite Hs in Hall. simpl in Hall. injection Hall as <-.
  set (pg := paginate (q_order (items_query id)) limit tok (result_set db (items_query id)))
    in *.
  apply (link_if_token_for self (items_link base_url id limit rel_next) _ _ _ Hne) in Hn.
  apply (link_if_token_for self (items_link base_url id limit rel_previous) _ _ _ Hne) in Hv.
  split.
  - assert (Hnext : exists next',
               link_if (items_link base_url id limit rel_next) next
               = match next' with Some t => [link rel_next t] | None => [] end /\
               forall t, next' = Some t ->
                 t <> "" /\ exists b, pc_insert (pagination_client self) b = inr t).
    { destruct (has_next pg).
      - destruct Hn as (s & -> & Hi). exists (Some s). split; [reflexivity|].
        intros t [= <-]. split; [eapply Hne|]; eauto.
      - rewrite Hn. exists None. split; [reflexivity|]. intros t [=]. }
    assert (Hprev : exists previous',
               link_if (items_link base_url id limit rel_previous) previous
               = match previous' with Some t => [link rel_previous t] | None => [] end /\
               forall t, previous' = Some t ->
                 t <> "" /\ exists b, pc_insert (pagination_client self) b = inr t).
    { destruct (has_previous pg).
      - destruct Hv as (s & -> & Hi). exists (Some s). split; [reflexivity|].
        intros t [= <-]. split; [eapply Hne|]; eauto.
      - rewrite Hv. exists None. split; [reflexivity|]. intros t [=]. }
    destruct Hnext as (next' & Hn1 & Hn2), Hprev as (previous' & Hv1 & Hv2).
    exists next', previous'. rewrite Hl, Hn1, Hv1. split; [reflexivity|].
    intros t [Ht|Ht]; auto.
  - intros ->. injection Htok as _ <-.
    assert (Hobs : q_order (items_query id) <> []) by discriminate.
    pose proof (paginate_spec (q_order (items_query id)) limit None
                  (result_set db (items_query id)) Hobs) as Hspec.
    unfold stream_split in Hspec. cbn [from_option fst snd] in Hspec.
    rewrite (filter_true_id (beyond (q_order (items_query id)) false None)) in Hspec
      by reflexivity.
    destruct Hspec as (_ & Hhn & Hhp). fold pg in Hhn, Hhp.
    assert (Hprev : has_previous pg = false).
    { destruct (has_previous pg); [|reflexivity]. destruct Hhp as [Hhp _].
      specialize (Hhp eq_refl). discriminate. }
    rewrite Hprev in Hv. rewrite Hv, app_nil_r in Hl. rewrite Hl.
    assert (Hcount : length (result_set db (items_query id))
                     = length (filter (fun it => Item.collection_id it = id) (db_items db))).
    { rewrite result_set_length. f_equal. apply list_filter_iff. intros it.
      unfold eval_filters. simpl. rewrite !andb_true_r, orb_false_r. apply String.eqb_eq. }
    split.
    + rewrite <- Hcount. destruct (has_next pg).
      * destruct Hn as (s & -> & _). destruct Hhn as [Hhn _]. specialize (Hhn eq_refl).
        apply nonempty_length in Hhn. rewrite length_drop in Hhn. split; [intros _; lia|].
        intros _. eexists. split; [left|reflexivity].
      * rewrite Hn. split.
        -- intros (l & Hin & _). now apply not_elem_of_nil in Hin.
        -- intros Hlt. destruct Hhn as [_ Hhn]. enough (false = true) by discriminate.
           apply Hhn. apply nonempty_length. rewrite length_drop. lia.
    + intros (l & Hin & Hrel). destruct (has_next pg).
      * destruct Hn as (s & Hn & _). rewrite Hn in Hin.
        apply list_elem_of_singleton in Hin. subst l. discriminate.
      * rewrite Hn in Hin. now apply not_elem_of_nil in Hin.
Qed.

Lemma item_collection_links_witness :
  exists tr resp,
    item_collection (demo_client demo_db [VInt 2; VStr "b"]) "http://stac/" "c1" 1 (Some "T")
    = (tr, inr resp) /\
    ItemCollection.features resp = [item_a] /\
    ItemCollection.links resp
    = [{| PaginationLink.rel := rel_previous;
          PaginationLink.type := "application/geo+json";
          PaginationLink.href := "http://stac/collections/c1/items?token=tok&limit=1";
          PaginationLink.method := "GET";
          PaginationLink.body := None;
          PaginationLink.merge := false |}] /\
    exists tr1 resp1,
      item_collection (demo_client demo_db []) "http://stac/" "c1" 1 None = (tr1, inr resp1) /\
      (exists l, l ∈ ItemCollection.links resp1 /\ PaginationLink.rel l = rel_next) /\
      ItemCollection.links resp1
      = [{| PaginationLink.rel := rel_next;
            PaginationLink.type := "application/geo+json";
            PaginationLink.href := "http://stac/collections/c1/items?token=tok&limit=1";
            PaginationLink.method := "GET";
            PaginationLink.body := None;
            PaginationLink.merge := false |}].
Proof.
  destruct (item_collection (demo_client demo_db [VInt 2; VStr "b"]) "http://stac/" "c1" 1
              (Some "T")) as [tr [e|resp]] eqn:Hp; [vm_compute in Hp; discriminate|].
  exists tr, resp. split; [reflexivity|].
  destruct (item_collection_links (demo_client demo_db [VInt 2; VStr "b"]) demo_db _ _ _ _ _ _
              eq_refl (demo_tokens_nonempty _) Hp) as ((next & previous & Hl & Ht) & _).
  assert (Hresp : ItemCollection.features resp = [item_a] /\
                  length (ItemCollection.links resp) = 1 /\
                  map PaginationLink.rel (ItemCollection.links resp) = [rel_previous]).
  { vm_compute in Hp. injection Hp as _ <-. repeat split. }
  destruct Hresp as (Hf & Hlen & Hrel). split; [exact Hf|]. split.
  - rewrite Hl in Hrel |- *. destruct next as [t|]; [discriminate|].
    destruct previous as [t|]; [|discriminate].
    destruct (Ht t (or_intror eq_refl)) as (_ & b & Hb). simpl in Hb.
    injection Hb as <-. vm_compute. reflexivity.
  - destruct (item_collection (demo_client demo_db []) "http://stac/" "c1" 1 None)
      as [tr1 [e|resp1]] eqn:Hp1; [vm_compute in Hp1; discriminate|].
    exists tr1, resp1. split; [reflexivity|].
    destruct (item_collection_links (demo_client demo_db []) demo_db _ _ _ _ _ _
                eq_refl (demo_tokens_nonempty []) Hp1) as (_ & Hfirst).
    destruct (Hfirst eq_refl) as (Hn & _).
    split; [apply Hn; vm_compute; lia|].
    vm_compute in Hp1. injection Hp1 as _ <-. reflexivity.
Defined.

(** ** Parsing and link rewriting of [get_search] *)

Lemma sort_param_error sortby e :
  sort_param sortby = inl e -> e = IndexError /\ "" ∈ sortby.
Proof.
  induction sortby as [|s sortby IH]; simpl; [discriminate|].
  destruct s as [|c rest]; simpl.
  - intros [= <-]. split; [reflexivity|left].
  - destruct (sort_param sortby) as [e'|ds]; [|discriminate].
    intros [= <-]. destruct (IH eq_refl) as [-> Hin]. split; [reflexivity|now right].
Qed.

Lemma fields_loop_error fields st e :
  fields_loop st fields = inl e -> e = IndexError /\ "" ∈ fields.
Proof.
  revert st. induction fields as [|f fields IH]; intros st; simpl; [discriminate|].
  destruct f as [|c rest].
  - destruct st. simpl. intros [= <-]. split; [reflexivity|left].
  - destruct (fields_step st (String c rest)) as [e'|st'] eqn:Hs.
    + exfalso. destruct st. simpl in Hs.
      destruct (Ascii.eqb c "-"); [discriminate|]. destruct (Ascii.eqb c "+"); discriminate.
    + intros H. destruct (IH _ H) as [-> Hin]. split; [reflexivity|now right].
Qed.

(** X9: [get_search] fails on its [sortby] list exactly when one entry is the
    empty string, and then with [IndexError], wherever the entry stands; the
    same holds for its [fields] list.  A [sortby] list that parses keeps its
    length and order, and an entry that begins with [+] is an ascending sort
    on the rest of the entry. *)
Theorem get_search_parse_errors (entries : list string) :
  (get_search_sortby (Some entries) = inl IndexError <-> "" ∈ entries) /\
  (get_search_fields (Some entries) = inl IndexError <-> "" ∈ entries) /\
  (forall e, get_search_sortby (Some entries) = inl e \/
             get_search_fields (Some entries) = inl e -> e = IndexError) /\
  (forall ds, get_search_sortby (Some entries) = inr (Some ds) ->
     length ds = length entries /\
     forall i rest, entries !! i = Some (String "+" rest) ->
       ds !! i = Some {| SortExtension.field := rest; SortExtension.direction := asc |}).
Proof.
  assert (Hne : "" ∉ entries -> Forall (fun s => s <> "") entries).
  { intros H. apply Forall_forall. intros s Hs ->. auto. }
  assert (Hsort : forall e, get_search_sortby (Some entries) = inl e ->
                            e = IndexError /\ "" ∈ entries).
  { unfold get_search_sortby. destruct entries as [|s l]; [discriminate|]. simpl nonempty.
    cbv iota beta. intros e H.
    destruct (sort_param (s :: l)) as [e'|ds] eqn:Hs; [|discriminate].
    injection H as <-. now apply sort_param_error. }
  assert (Hfields : forall e, get_search_fields (Some entries) = inl e ->
                              e = IndexError /\ "" ∈ entries).
  { unfold get_search_fields. destruct entries as [|s l]; [discriminate|]. simpl nonempty.
    cbv iota beta. intros e H.
    destruct (fields_loop (∅, ∅) (s :: l)) as [e'|[inc exc]] eqn:Hs; [|discriminate].
    injection H as <-. now apply (fields_loop_error _ _ _ Hs). }
  split; [|split; [|split]].
  - split; [intros H; now apply Hsort in H|]. intros Hin.
    unfold get_search_sortby. destruct entries as [|s l]; [now apply not_elem_of_nil in Hin|].
    simpl nonempty. cbv iota beta.
    destruct (sort_param (s :: l)) as [e|ds] eqn:Hs.
    + now destruct (sort_param_error _ _ Hs) as [-> _].
    + exfalso. clear -Hin Hs. revert ds Hs.
      induction (s :: l) as [|x xs IH]; intros ds; [now apply not_elem_of_nil in Hin|].
      simpl. destruct x as [|c rest]; [discriminate|]. simpl.
      apply elem_of_cons in Hin as [Hin|Hin]; [discriminate|].
      destruct (sort_param xs) as [e|ds']; [discriminate|]. intros _. now apply (IH Hin ds').
  - split; [intros H; now apply Hfields in H|]. intros Hin.
    unfold get_search_fields. destruct entries as [|s l]; [now apply not_elem_of_nil in Hin|].
    simpl nonempty. cbv iota beta.
    destruct (fields_loop (∅, ∅) (s :: l)) as [e|[inc exc]] eqn:Hs.
    + now destruct (fields_loop_error _ _ _ Hs) as [-> _].
    + exfalso. clear -Hin Hs. revert Hs. generalize (∅ : gset string, ∅ : gset string).
      induction (s :: l) as [|x xs IH]; intros st; [now apply not_elem_of_nil in Hin|].
      simpl. destruct x as [|c rest]; [destruct st; discriminate|].
      apply elem_of_cons in Hin as [Hin|Hin]; [discriminate|].
      destruct (fields_step st (String c rest)) as [e|st']; [discriminate|].
      now apply IH.
  - intros e [H|H]; [now apply Hsort in H|now apply Hfields in H].
  - intros ds H. unfold get_search_sortby in H.
    destruct entries as [|s l]; [discriminate|]. simpl nonempty in H. cbv iota beta in H.
    destruct (sort_param (s :: l)) as [e|ds'] eqn:Hs; [discriminate|]. injection H as <-.
    clear -Hs. revert ds' Hs. induction (s :: l) as [|x xs IH]; intros ds; simpl.
    + intros [= <-]. split; [reflexivity|]. intros i rest H. now rewrite lookup_nil in H.
    + destruct x as [|c rest0]; [discriminate|]. simpl.
      destruct (sort_param xs) as [e|ds']; [discriminate|]. intros [= <-].
      destruct (IH ds' eq_refl) as [Hlen Hds]. split; [simpl; now rewrite Hlen|].
      intros [|i] rest; simpl; [now intros [= -> ->]|apply Hds].
Qed.

Lemma get_search_parse_errors_witness :
  get_search_sortby (Some ["+datetime"; ""]) = inl IndexError /\
  get_search_fields (Some ["a"; ""; "-b"]) = inl IndexError /\
  get_search_sortby (Some ["+datetime"; "-id"])
  = inr (Some [{| SortExtension.field := "datetime"; SortExtension.direction := asc |};
               {| SortExtension.field := "id"; SortExtension.direction := desc |}]).
Proof.
  split; [|split].
  - apply (proj1 (get_search_parse_errors ["+datetime"; ""])). right. left.
  - apply (proj1 (proj2 (get_search_parse_errors ["a"; ""; "-b"]))). right. left.
  - reflexivity.
Defined.

Lemma dict_get_set k v d : dict_get k (dict_set k v d) = Some v.
Proof.
  induction d as [|[k' v'] d IH]; simpl; [now rewrite String.eqb_refl|].
  destruct (String.eqb k' k) eqn:Hk; simpl; rewrite Hk; auto.
Qed.

Lemma dict_get_set_ne k k0 v d : k0 <> k -> dict_get k0 (dict_set k v d) = dict_get k0 d.
Proof.
  intros Hne. induction d as [|[k' v'] d IH]; simpl.
  - apply String.eqb_neq in Hne. rewrite String.eqb_sym. now rewrite Hne.
  - destruct (String.eqb k' k) eqn:Hk; simpl.
    + apply String.eqb_eq in Hk. subst k'.
      assert (Hk0 : String.eqb k k0 = false).
      { rewrite String.eqb_sym. now apply String.eqb_neq. }
      now rewrite Hk0.
    + destruct (String.eqb k' k0); auto.
Qed.

Lemma dict_set_keys k v d :
  map fst (dict_set k v d)
  = match dict_get k d with Some _ => map fst d | None => map fst d ++ [k] end.
Proof.
  induction d as [|[k' v'] d IH]; simpl; [reflexivity|].
  destruct (String.eqb k' k) eqn:Hk; simpl; [reflexivity|].
  rewrite IH. now destruct (dict_get k d).
Qed.

Lemma post_search_links self base_url search_request tr resp l :
  post_search self base_url search_request = (tr, inr resp) ->
  l ∈ SearchResponse.links resp ->
  exists t, t <> "" /\ l = search_link base_url (PaginationLink.rel l) t.
Proof.
  intros Hp Hin.
  apply post_search_inr in Hp
    as (tok & all & next & previous & count & _ & _ & _ & _ & _ & ->).
  unfold search_response in Hin. simpl in Hin.
  apply elem_of_app in Hin as [Hin|Hin]; apply link_if_elem in Hin as (s & _ & Hs & ->);
    exists s; split; auto.
Qed.

(** X10: [get_search] turns the pagination links of the search, one by one
    and in their order, into GET links without body and with [merge] off.
    The link at a position keeps the relation of the search link at that
    position; its href is the search href, a question mark and the encoding
    of the query parameters of the request in which the parameter ["token"]
    holds the token the search link carried in its body: a token parameter of
    the request itself is overwritten in its place, every other parameter
    keeps its value and its position. *)
Theorem get_search_links_are_get_links (self : CoreCrudClient) (base_url : string)
    (search_request : STACSearch.t) (tr : list event) (resp : SearchResponse.t)
    (urlencode : list (string * string) -> string) (query_params : list (string * string)) :
  post_search self base_url search_request = (tr, inr resp) ->
  length (get_search_links urlencode query_params (SearchResponse.links resp))
  = length (SearchResponse.links resp) /\
  forall i link, SearchResponse.links resp !! i = Some link ->
    exists token params,
      token <> "" /\
      PaginationLink.body link = Some [("token", token)] /\
      PaginationLink.href link = base_url +:+ "search" /\
      get_search_links urlencode query_params (SearchResponse.links resp) !! i
      = Some {| PaginationLink.rel := PaginationLink.rel link;
                PaginationLink.type := "application/geo+json";
                PaginationLink.href :=
                  (base_url +:+ "search") +:+ "?" +:+ urlencode params;
                PaginationLink.method := "GET";
                PaginationLink.body := None;
                PaginationLink.merge := false |} /\
      dict_get "token" params = Some token /\
      (forall k, k <> "token" -> dict_get k params = dict_get k query_params) /\
      map fst params = match dict_get "token" query_params with
                       | Some _ => map fst query_params
                       | None => map fst query_params ++ ["token"]
                       end.
Proof.
  intros Hp. split.
  - unfold get_search_links. apply length_map.
  - intros i link Hi.
    assert (Hin : link ∈ SearchResponse.links resp) by (eapply list_elem_of_lookup_2; eauto).
    destruct (post_search_links _ _ _ _ _ _ Hp Hin) as (t & Hne & Hl).
    exists t, (dict_set "token" t query_params). split; [exact Hne|].
    split; [now rewrite Hl|]. split; [now rewrite Hl|]. split.
    + unfold get_search_links.
      change (map ?f ?l !! i = ?x) with ((f <$> l) !! i = x).
      rewrite list_lookup_fmap, Hi. simpl. f_equal. rewrite Hl. reflexivity.
    + split; [apply dict_get_set|].
      split; [intros k Hk; now apply dict_get_set_ne|apply dict_set_keys].
Qed.

Lemma get_search_links_are_get_links_witness :
  exists tr resp,
    post_search (demo_client demo_db []) "http://stac/" demo_request = (tr, inr resp) /\
    SearchResponse.links resp !! 0 = Some (search_link "http://stac/" rel_next "tok") /\
    get_search_links (fun d => match dict_get "token" d with Some t => t | None => "none" end)
      [("limit", "2"); ("token", "old")] (SearchResponse.links resp) !! 0
    = Some {| PaginationLink.rel := rel_next;
              PaginationLink.type := "application/geo+json";
              PaginationLink.href := "http://stac/search?tok";
              PaginationLink.method := "GET";
              PaginationLink.body := None;
              PaginationLink.merge := false |}.
Proof.
  destruct (post_search (demo_client demo_db []) "http://stac/" demo_request)
    as [tr [e|resp]] eqn:Hp; [vm_compute in Hp; discriminate|].
  exists tr, resp. split; [reflexivity|].
  assert (H0 : SearchResponse.links resp !! 0
               = Some (search_link "http://stac/" rel_next "tok")).
  { vm_compute in Hp. injection Hp as _ <-. reflexivity. }
  split; [exact H0|].
  destruct (get_search_links_are_get_links _ _ _ _ _
              (fun d => match dict_get "token" d with Some t => t | None => "none" end)
              [("limit", "2"); ("token", "old")] Hp) as [_ Hl].
  destruct (Hl 0 _ H0) as (token & params & _ & Hbody & _ & Hlink & Htok & _).
  rewrite Hlink. simpl in Hbody. injection Hbody as <-.
  cbv beta. rewrite Htok. reflexivity.
Defined.

(** ** Collections and the landing page *)

(** X11: when reading the collection table raises, [collections] and
    [landing_page] log the exception and raise [DatabaseError].  Otherwise
    [collections] returns one response collection per row, in the order of
    the rows, and one self link; the landing page lists its self, docs,
    conformance and search links and then one child link per collection, in
    the order of the rows, titled with the title of the collection and
    pointing where the self link of the collection points. *)
Theorem landing_page_lists_collections (env : CollectionEnv)
    (landing_page_id title description base_url : string) :
  match all_collections env with
  | inl e =>
      collections env base_url
      = ([EvLog e],
         inl (DatabaseError "Unhandled database error when getting item collection")) /\
      landing_page env landing_page_id title description base_url
      = ([EvLog e],
         inl (DatabaseError "Unhandled database error when getting item collection"))
  | inr rows =>
      exists cols lp,
        collections env base_url = ([], inr cols) /\
        map fst (Collections.collections cols) = rows /\
        Forall (fun c => c.2 = base_url) (Collections.collections cols) /\
        map Link.rel (Collections.links cols) = [link_self] /\
        landing_page env landing_page_id title description base_url = ([], inr lp) /\
        length (LandingPage.links lp) = 4 + length rows /\
        map Link.rel (take 4 (LandingPage.links lp))
        = [link_self; link_docs; link_conformance; link_search] /\
        forall i row, rows !! i = Some row ->
          LandingPage.links lp !! (4 + i)
          = Some {| Link.rel := link_child;
                    Link.type :=
                      Link.type (collection_self_link env (Collection.id row) base_url);
                    Link.title := Collection.title row;
                    Link.href :=
                      Link.href (collection_self_link env (Collection.id row) base_url) |}
  end.
Proof.
  unfold landing_page, collections.
  destruct (all_collections env) as [e|rows]; simpl; [split; reflexivity|].
  eexists _, _. split; [reflexivity|]. simpl.
  split; [rewrite map_map; apply map_id|].
  split; [apply Forall_forall; intros c Hc;
          apply list_elem_of_In, in_map_iff in Hc as (x & <- & _); reflexivity|].
  split; [reflexivity|]. split; [reflexivity|].
  split; [simpl; now rewrite !length_map|]. split; [reflexivity|].
  intros i row Hi. simpl. rewrite map_map.
  change (map ?f rows !! i = ?x) with ((f <$> rows) !! i = x).
  rewrite list_lookup_fmap, Hi. reflexivity.
Qed.

(** ** The connection middleware *)

Lemma contains_unfold needle haystack :
  contains needle haystack
  = String.prefix needle haystack
    || match haystack with
       | EmptyString => false
       | String _ rest => contains needle rest
       end.
Proof. now destruct haystack. Qed.

Lemma prefix_append needle post : String.prefix needle (needle +:+ post) = true.
Proof.
  induction needle as [|a needle IH]; simpl; [now destruct post|].
  destruct (ascii_dec a a); [exact IH|congruence].
Qed.

(** The test holds of every string in which the needle occurs. *)
Lemma contains_app needle pre post : contains needle (pre +:+ needle +:+ post) = true.
Proof.
  induction pre as [|c pre IH].
  - change (contains needle (needle +:+ post) = true).
    rewrite contains_unfold, prefix_append. reflexivity.
  - change (contains needle (String c (pre +:+ needle +:+ post)) = true).
    rewrite contains_unfold, IH. apply orb_true_r.
Qed.

(** X12: for a request whose url mentions titiler the middleware opens no
    session and its outcome is that of the rest of the application.  For any
    other request the reader is opened, then the writer; a reader that fails
    to open ends the request, a writer that fails to open ends it with the
    reader left open.  Once both are open the request goes on and, whatever
    its outcome, the reader is closed; when that close succeeds the writer is
    closed too, so each session was opened and closed exactly once, and the
    outcome is that of the rest of the application, response or exception,
    unless the close of the writer raises.  A reader that fails to close
    leaves the writer open and replaces the outcome. *)
Theorem create_db_connection_closes {R} (url : string) (c : Connections R) :
  (contains "titiler" url = true ->
   create_db_connection url c = ([CallNext], call_next c)) /\
  (contains "titiler" url = false ->
   (forall e, db_reader c = inl e ->
              create_db_connection url c = ([OpenReader], inl e)) /\
   (forall e, db_reader c = inr tt -> db_writer c = inl e ->
              create_db_connection url c = ([OpenReader; OpenWriter], inl e)) /\
   (forall e, db_reader c = inr tt -> db_writer c = inr tt -> reader_close c = inl e ->
              create_db_connection url c
              = ([OpenReader; OpenWriter; SetReader; SetWriter; CallNext; CloseReader],
                 inl e)) /\
   (db_reader c = inr tt -> db_writer c = inr tt -> reader_close c = inr tt ->
    (create_db_connection url c).1
    = [OpenReader; OpenWriter; SetReader; SetWriter; CallNext; CloseReader; CloseWriter] /\
    (writer_close c = inr tt -> (create_db_connection url c).2 = call_next c) /\
    (forall e, writer_close c = inl e -> (create_db_connection url c).2 = inl e))).
Proof.
  unfold create_db_connection. split.
  - now intros ->.
  - intros ->. split; [|split; [|split]].
    + now intros e ->.
    + now intros e -> ->.
    + now intros e -> -> ->.
    + intros -> -> ->. destruct (writer_close c) as [e4|[]]; simpl.
      * split; [reflexivity|]. split; [discriminate|]. now intros e [= <-].
      * split; [reflexivity|]. split; [reflexivity|]. intros e. discriminate.
Qed.

Lemma create_db_connection_closes_witness :
  create_db_connection "http://stac/search"
    {| db_reader := inr tt; db_writer := inr tt;
       call_next := inl (StoreException "boom") : result nat;
       reader_close := inr tt; writer_close := inr tt |}
  = ([OpenReader; OpenWriter; SetReader; SetWriter; CallNext; CloseReader; CloseWriter],
     inl (StoreException "boom")) /\
  create_db_connection "http://stac/search"
    {| db_reader := inr tt; db_writer := inr tt; call_next := inr 200;
       reader_close := inr tt; writer_close := inl (StoreException "gone") |}
  = ([OpenReader; OpenWriter; SetReader; SetWriter; CallNext; CloseReader; CloseWriter],
     inl (StoreException "gone")) /\
  create_db_connection "http://stac/titiler/tiles"
    {| db_reader := inr tt; db_writer := inr tt; call_next := inr 200;
       reader_close := inr tt; writer_close := inr tt |}
  = ([CallNext], inr 200).
Proof.
  split; [|split].
  - destruct (create_db_connection_closes "http://stac/search"
                {| db_reader := inr tt; db_writer := inr tt;
                   call_next := inl (StoreException "boom") : result nat;
                   reader_close := inr tt; writer_close := inr tt |}) as [_ Hc].
    destruct (Hc eq_refl) as (_ & _ & _ & Hw).
    destruct (Hw eq_refl eq_refl eq_refl) as (Htr & Hr & _). specialize (Hr eq_refl).
    destruct (create_db_connection _ _) as [tr r]. simpl in Htr, Hr. now subst.
  - destruct (create_db_connection_closes "http://stac/search"
                {| db_reader := inr tt; db_writer := inr tt; call_next := inr 200;
                   reader_close := inr tt;
                   writer_close := inl (StoreException "gone") |}) as [_ Hc].
    destruct (Hc eq_refl) as (_ & _ & _ & Hw).
    destruct (Hw eq_refl eq_refl eq_refl) as (Htr & _ & Hr).
    specialize (Hr _ eq_refl).
    destruct (create_db_connection _ _) as [tr r]. simpl in Htr, Hr. now subst.
  - destruct (create_db_connection_closes "http://stac/titiler/tiles"
                {| db_reader := inr tt; db_writer := inr tt; call_next := inr 200;
                   reader_close := inr tt; writer_close := inr tt |}) as [Hc _].
    exact (Hc eq_refl).
Defined.

(** ** The OpenAPI schema *)

Lemma fields_get_set k v fields : fields_get k (fields_set k v fields) = Some v.
Proof.
  induction fields as [|[k' v'] fields IH]; simpl; [now rewrite String.eqb_refl|].
  destruct (String.eqb k' k) eqn:Hk; simpl; rewrite Hk; auto.
Qed.

Lemma fields_get_set_ne k k0 v fields :
  k0 <> k -> fields_get k0 (fields_set k v fields) = fields_get k0 fields.
Proof.
  intros Hne. induction fields as [|[k' v'] fields IH]; simpl.
  - assert (Hk : String.eqb k k0 = false).
    { rewrite String.eqb_sym. now apply String.eqb_neq. }
    now rewrite Hk.
  - destruct (String.eqb k' k) eqn:Hk; simpl.
    + apply String.eqb_eq in Hk. subst k'.
      assert (Hk0 : String.eqb k k0 = false).
      { rewrite String.eqb_sym. now apply String.eqb_neq. }
      now rewrite Hk0.
    + destruct (String.eqb k' k0); auto.
Qed.

Lemma json_set_cons k path v j j' :
  json_set (k :: path) v j = inr j' ->
  exists fields, j = JObj fields /\
    match path with
    | [] => j' = JObj (fields_set k v fields)
    | _ :: _ =>
        exists child child',
          fields_get k fields = Some child /\
          json_set path v child = inr child' /\
          j' = JObj (fields_set k child' fields)
    end.
Proof.
  destruct path as [|k2 path].
  - simpl. destruct j as [| | | | |fields]; try discriminate. intros [= <-].
    exists fields. split; reflexivity.
  - change (json_set (k :: k2 :: path) v j)
      with (match j with
            | JObj fields =>
                match fields_get k fields with
                | Some child =>
                    match json_set (k2 :: path) v child with
                    | inl e => inl e
                    | inr child' => inr (JObj (fields_set k child' fields))
                    end
                | None => inl (KeyError k)
                end
            | _ => inl TypeError
            end).
    destruct j as [| | | | |fields]; try discriminate.
    destruct (fields_get k fields) as [child|] eqn:Hg; [|discriminate].
    destruct (json_set (k2 :: path) v child) as [e|child'] eqn:Hs; [discriminate|].
    intros [= <-]. exists fields. split; [reflexivity|].
    exists child, child'. auto.
Qed.

(** What was set is read back. *)
Lemma json_get_set path v j j' :
  path <> [] -> json_set path v j = inr j' -> json_get path j' = inr v.
Proof.
  revert j j'. induction path as [|k path IH]; intros j j' Hne Hs; [congruence|].
  apply json_set_cons in Hs as (fields & -> & Hs). destruct path as [|k2 path].
  - subst j'. simpl. now rewrite fields_get_set.
  - destruct Hs as (child & child' & Hg & Hs & ->).
    assert (Hc : json_get (k2 :: path) child' = inr v) by (apply (IH child); congruence).
    cbn [json_get json_item]. rewrite fields_get_set. exact Hc.
Qed.

(** What lies off the path that was set is left as it was. *)
Lemma json_get_set_diverge p q v j j' :
  diverge p q -> json_set p v j = inr j' -> json_get q j' = json_get q j.
Proof.
  intros (c & a & b & p' & q' & -> & -> & Hab). revert j j'.
  induction c as [|k c IH]; intros j j' Hs.
  - simpl in Hs. apply json_set_cons in Hs as (fields & -> & Hs).
    assert (Hj : exists x, j' = JObj (fields_set a x fields)).
    { destruct p'; [eauto|]. destruct Hs as (? & ? & _ & _ & ->). eauto. }
    destruct Hj as (x & ->). simpl.
    now rewrite (fields_get_set_ne a b x fields) by congruence.
  - change ((k :: c) ++ a :: p') with (k :: (c ++ a :: p')) in Hs.
    apply json_set_cons in Hs as (fields & -> & Hs).
    destruct (c ++ a :: p') as [|k2 rest] eqn:Hrest; [now destruct c|].
    destruct Hs as (child & child' & Hg & Hs & ->).
    assert (Hc : json_get (c ++ b :: q') child' = json_get (c ++ b :: q') child)
      by (now apply IH).
    change ((k :: c) ++ b :: q') with (k :: (c ++ b :: q')).
    cbn [json_get json_item]. rewrite fields_get_set, Hg. exact Hc.
Qed.

Lemma build_openapi_state fields_enabled generated r st :
  build_openapi fields_enabled generated = (r, st) ->
  exists s, st = Some s /\
    (forall s0, r = inr s0 -> s0 = s) /\
    (forall e, r = inl e ->
       fields_enabled = true /\
       (s = generated \/
        (json_set (search_schema_path "get") item_collection_ref generated = inr s /\
         json_set (search_schema_path "post") item_collection_ref s = inl e))).
Proof.
  unfold build_openapi. destruct fields_enabled.
  - destruct (json_set (search_schema_path "get") item_collection_ref generated)
      as [e1|patched] eqn:H1.
    + intros [= <- <-]. exists generated. split; [reflexivity|].
      split; [discriminate|]. intros e [= <-]. auto.
    + destruct (json_set (search_schema_path "post") item_collection_ref patched)
        as [e2|patched'] eqn:H2.
      * intros [= <- <-]. exists patched. split; [reflexivity|].
        split; [discriminate|]. intros e [= <-]. auto.
      * intros [= <- <-]. exists patched'. split; [reflexivity|].
        split; [now intros s0 [= <-]|discriminate].
  - intros [= <- <-]. exists generated. split; [reflexivity|].
    split; [now intros s0 [= <-]|discriminate].
Qed.

(** X13: after any call of [custom_openapi] a schema is stored, and it is the
    one a returning call returned.  If that schema is not empty, every later
    call returns it as it is, whatever would be generated then.  A call that
    raises, which takes the fields extension and a generated schema that
    lacks a key on the way to a search response, has stored the schema all the
    same, unpatched or patched for GET only, so that the next call returns it
    without raising. *)
Theorem custom_openapi_caches (fields_enabled : bool) (generated : json)
    (openapi_schema : option json) (r : lookup_error + json) (st : option json) :
  custom_openapi fields_enabled generated openapi_schema = (r, st) ->
  exists s, st = Some s /\
    (forall s0, r = inr s0 -> s0 = s) /\
    (json_bool s = true ->
     forall fields_enabled' generated',
       custom_openapi fields_enabled' generated' st = (inr s, st)) /\
    (forall e, r = inl e ->
       fields_enabled = true /\
       (s = generated \/
        (json_set (search_schema_path "get") item_collection_ref generated = inr s /\
         json_set (search_schema_path "post") item_collection_ref s = inl e))).
Proof.
  intros H.
  assert (Hs : exists s, st = Some s /\
             (forall s0, r = inr s0 -> s0 = s) /\
             (forall e, r = inl e ->
                fields_enabled = true /\
                (s = generated \/
                 (json_set (search_schema_path "get") item_collection_ref generated = inr s /\
                  json_set (search_schema_path "post") item_collection_ref s = inl e)))).
  { unfold custom_openapi in H. destruct openapi_schema as [cached|].
    - destruct (json_bool cached) eqn:Hb; [|now apply build_openapi_state in H].
      injection H as <- <-. exists cached. split; [reflexivity|].
      split; [now intros s0 [= <-]|discriminate].
    - now apply build_openapi_state in H. }
  destruct Hs as (s & -> & Hr & He). exists s. split; [reflexivity|].
  split; [exact Hr|]. split; [|exact He].
  intros Hb f' g'. unfold custom_openapi. now rewrite Hb.
Qed.

Lemma custom_openapi_caches_witness :
  custom_openapi true bare_schema None = (inl (KeyError "/search"), Some bare_schema) /\
  custom_openapi true demo_schema (Some bare_schema) = (inr bare_schema, Some bare_schema).
Proof.
  split; [reflexivity|].
  destruct (custom_openapi_caches true bare_schema None _ _ eq_refl)
    as (s & [= <-] & _ & Hc & _).
  apply Hc. reflexivity.
Defined.

(** X14: when [custom_openapi] builds the schema under the fields extension
    and returns, the schema of the 200 response of GET and of POST on the
    search path is the reference to the item collection, and whatever lies off
    these two paths is as it was generated. *)
Theorem custom_openapi_patches (generated : json) (openapi_schema : option json)
    (s : json) (st : option json) :
  (forall cached, openapi_schema = Some cached -> json_bool cached = false) ->
  custom_openapi true generated openapi_schema = (inr s, st) ->
  json_get (search_schema_path "get") s = inr item_collection_ref /\
  json_get (search_schema_path "post") s = inr item_collection_ref /\
  (forall q, diverge (search_schema_path "get") q ->
             diverge (search_schema_path "post") q ->
             json_get q s = json_get q generated).
Proof.
  intros Hc H.
  assert (Hb : build_openapi true generated = (inr s, st)).
  { unfold custom_openapi in H. destruct openapi_schema as [cached|]; [|exact H].
    now rewrite (Hc cached eq_refl) in H. }
  clear H Hc. unfold build_openapi in Hb.
  destruct (json_set (search_schema_path "get") item_collection_ref generated)
    as [e1|patched] eqn:H1; [discriminate|].
  destruct (json_set (search_schema_path "post") item_collection_ref patched)
    as [e2|patched'] eqn:H2; [discriminate|].
  injection Hb as <- <-.
  assert (Hd : diverge (search_schema_path "post") (search_schema_path "get")).
  { exists ["paths"; "/search"], "post", "get",
      ["responses"; "200"; "content"; "application/json"; "schema"],
      ["responses"; "200"; "content"; "application/json"; "schema"].
    repeat split. discriminate. }
  split; [|split].
  - rewrite (json_get_set_diverge _ _ _ _ _ Hd H2).
    eapply (json_get_set (search_schema_path "get")); [discriminate|exact H1].
  - eapply (json_get_set (search_schema_path "post")); [discriminate|exact H2].
  - intros q Hg Hp. rewrite (json_get_set_diverge _ _ _ _ _ Hp H2).
    apply (json_get_set_diverge _ _ _ _ _ Hg H1).
Qed.

Lemma custom_openapi_patches_witness :
  exists s,
    custom_openapi true demo_schema None = (inr s, Some s) /\
    json_get (search_schema_path "get") s = inr item_collection_ref /\
    json_get (search_schema_path "post") s = inr item_collection_ref /\
    json_get ["openapi"] s = inr (JStr "3.0.2").
Proof.
  destruct (custom_openapi true demo_schema None) as [[e|s] st] eqn:H;
    [vm_compute in H; discriminate|].
  assert (Hst : st = Some s) by (vm_compute in H; injection H as <- <-; reflexivity).
  subst st. exists s. split; [reflexivity|].
  assert (Hnone : forall cached, @None json = Some cached -> json_bool cached = false)
    by discriminate.
  destruct (custom_openapi_patches demo_schema None s (Some s) Hnone H) as (Hg & Hp & Hq).
  split; [exact Hg|]. split; [exact Hp|].
  rewrite Hq; [reflexivity| |].
  - exists [], "paths", "openapi",
      ["/search"; "get"; "responses"; "200"; "content"; "application/json"; "schema"], [].
    repeat split. discriminate.
  - exists [], "paths", "openapi",
      ["/search"; "post"; "responses"; "200"; "content"; "application/json"; "schema"], [].
    repeat split. discriminate.
Defined.

(** * What a search orders and filters by *)

(** A search that returns has executed its query for rows. *)
Lemma page_with_tokens_executes self q n tok tr x :
  page_with_tokens self q n tok = (tr, inr x) -> EvRows q ∈ tr.
Proof.
  unfold page_with_tokens, get_page. intros H.
  apply bind_inr in H as (tr1 & pg & tr2 & Hp & _ & ->).
  apply bind_inr in Hp as (tr3 & all & tr4 & Ha & _ & ->).
  unfold call in Ha. injection Ha as <- _.
  apply elem_of_app. left. apply elem_of_app. left. left.
Qed.

Lemma post_search_executes self base_url search_request tr resp :
  post_search self base_url search_request = (tr, inr resp) ->
  EvRows (search_query search_request) ∈ tr.
Proof.
  unfold post_search, search_query. intros H.
  apply bind_inr in H as (tr0 & tok & tr1 & _ & H & ->).
  apply bind_inr in H as (tr2 & [[[page next] previous] count] & tr3 & Hs & _ & ->).
  apply elem_of_app. right. apply elem_of_app. left.
  destruct (nonempty (STACSearch.ids search_request)) as [ids|].
  - unfold search_by_ids in Hs. apply try_database_error_inr in Hs.
    apply bind_inr in Hs as (tr4 & [[pg nx] pv] & tr5 & Hp & _ & ->).
    apply elem_of_app. left. eapply page_with_tokens_executes; eauto.
  - unfold search_by_filters in Hs. apply try_database_error_inr in Hs.
    apply bind_inr in Hs as (tr4 & cnt & tr5 & _ & Hs & ->).
    apply bind_inr in Hs as (tr6 & [[pg nx] pv] & tr7 & Hp & _ & ->).
    apply elem_of_app. right. apply elem_of_app. left.
    eapply page_with_tokens_executes; eauto.
Qed.

(** The items a returned response holds are rows of the query of the search,
    in its order. *)
Lemma post_search_features_rows self db base_url search_request tr resp :
  reader_session self = db_session db ->
  post_search self base_url search_request = (tr, inr resp) ->
  StronglySorted (row_le (q_order (search_query search_request)))
    (map fst (SearchResponse.features resp)) /\
  forall it, it ∈ map fst (SearchResponse.features resp) ->
             it ∈ result_set db (search_query search_request).
Proof.
  intros Hs Hp. destruct (post_search_rows _ _ _ _ _ _ Hs Hp) as (tok & _ & Hrows).
  rewrite Hrows.
  pose proof (stream_split_app db (search_query search_request)
                (STACSearch.limit search_request) tok) as Happ.
  destruct (stream_split _ _ _ _) as [[before rows] after]. simpl in *.
  pose proof (result_set_sorted db (search_query search_request)) as Hsorted.
  rewrite Happ in Hsorted |- *. split.
  - apply StronglySorted_app_1_r in Hsorted. now apply StronglySorted_app_1_l in Hsorted.
  - intros it Hin. apply elem_of_app. right. apply elem_of_app. now left.
Qed.

Lemma length_filter_impl {A} (P Q : A -> Prop) `{!forall x, Decision (P x)}
    `{!forall x, Decision (Q x)} (l : list A) :
  (forall x, P x -> Q x) -> length (filter P l) <= length (filter Q l).
Proof.
  intros Himp. induction l as [|x l IH]; [reflexivity|].
  rewrite !filter_cons. destruct (decide (P x)) as [Hx|Hx].
  - rewrite decide_True by auto. simpl. lia.
  - destruct (decide (Q x)); simpl; lia.
Qed.

Lemma length_filter_le {A} (P : A -> Prop) `{!forall x, Decision (P x)} (l : list A) :
  length (filter P l) <= length l.
Proof.
  induction l as [|x l IH]; [reflexivity|].
  rewrite filter_cons. destruct (decide (P x)); simpl; lia.
Qed.

(** ** The order *)

Lemma compare_rows_cons oc obs a b :
  compare_rows (oc :: obs) a b =
  match dir_compare (oc_direction oc) (column_value (oc_column oc) a)
          (column_value (oc_column oc) b) with
  | Eq => compare_rows obs a b
  | o => o
  end.
Proof. reflexivity. Qed.

(** C1: the order [post_search] compiles is the client's [sortby] fields,
    each resolved to its column and kept in its direction, then the
    identifier ascending; without [sortby] it is the timestamp descending,
    then the identifier ascending.  Every query a search executes for rows
    carries this list (a search by ids repeats the identifier at its end,
    which orders the rows the same way), and the items of a returned response
    are sorted by it.  The list orders lexicographically: a column taken
    ascending by the order of the store on its values, a column taken
    descending by the reverse, the next column deciding between equal values.
    Two items with distinct identifiers never compare equal: it is a strict
    total order. *)
Theorem post_search_sort_total_order (search_request : STACSearch.t) :
  let by_id := {| oc_column := ColId; oc_direction := asc |} in
  let requested :=
    match nonempty (STACSearch.sortby search_request) with
    | Some sortby =>
        map (fun sort => {| oc_column := get_field (SortExtension.field sort);
                            oc_direction := SortExtension.direction sort |}) sortby
        ++ [by_id]
    | None => [{| oc_column := ColDatetime; oc_direction := desc |}; by_id]
    end in
  q_order (apply_sort search_request (filter_collections search_request base_query))
    = requested /\
  (forall self base_url tr r q,
      post_search self base_url search_request = (tr, r) -> EvRows q ∈ tr ->
      (q_order q = requested \/ q_order q = requested ++ [by_id]) /\
      forall a b, compare_rows (q_order q) a b = compare_rows requested a b) /\
  (forall self base_url tr resp,
      post_search self base_url search_request = (tr, inr resp) ->
      exists q, EvRows q ∈ tr) /\
  (forall self db base_url tr resp,
      reader_session self = db_session db ->
      post_search self base_url search_request = (tr, inr resp) ->
      StronglySorted (fun a b => compare_rows requested a b <> Gt)
        (map fst (SearchResponse.features resp))) /\
  (forall c obs a b,
      compare_rows ({| oc_column := c; oc_direction := asc |} :: obs) a b =
      match value_compare (column_value c a) (column_value c b) with
      | Eq => compare_rows obs a b
      | o => o
      end) /\
  (forall c obs a b,
      compare_rows ({| oc_column := c; oc_direction := desc |} :: obs) a b =
      match value_compare (column_value c b) (column_value c a) with
      | Eq => compare_rows obs a b
      | o => o
      end) /\
  (forall a b, Item.id a <> Item.id b -> compare_rows requested a b <> Eq) /\
  (forall a b, compare_rows requested a b = CompOpp (compare_rows requested b a)) /\
  (forall a b c, compare_rows requested a b = Lt -> compare_rows requested b c = Lt ->
                 compare_rows requested a c = Lt).
Proof.
  intros by_id requested.
  assert (Hid : id_column ∈ requested).
  { unfold requested. destruct (nonempty _); [|set_solver].
    apply elem_of_app. right. set_solver. }
  assert (Hsort : q_order (apply_sort search_request
                             (filter_collections search_request base_query)) = requested).
  { unfold apply_sort, filter_collections, requested.
    destruct (nonempty (STACSearch.collections _)), (nonempty (STACSearch.sortby _)); reflexivity. }
  assert (Hquery : (q_order (search_query search_request) = requested \/
                    q_order (search_query search_request) = requested ++ [by_id]) /\
                   forall a b, compare_rows (q_order (search_query search_request)) a b
                               = compare_rows requested a b).
  { unfold search_query. destruct (nonempty (STACSearch.ids search_request)) as [ids|].
    + assert (Ho : q_order (order_by [id_column]
                     (filter_by (IdIn ids)
                        (apply_sort search_request
                           (filter_collections search_request base_query))))
                   = requested ++ [by_id]).
      { simpl. now rewrite Hsort. }
      rewrite Ho. split; [now right|]. intros a b. rewrite compare_rows_app.
      destruct (compare_rows requested a b) eqn:Hc; try reflexivity.
      apply (compare_rows_id _ _ _ Hid) in Hc.
      unfold compare_rows. simpl. rewrite Hc. now rewrite string_compare_refl.
    + assert (Ho : q_order (query_filter search_request
                     (temporal_filter search_request
                        (spatial_filter search_request
                           (apply_sort search_request
                              (filter_collections search_request base_query)))))
                   = requested).
      { rewrite <- Hsort. unfold query_filter, temporal_filter, spatial_filter.
        generalize (apply_sort search_request (filter_collections search_request base_query)).
        intros q0.
        assert (Hfold : forall cs q1, q_order (foldl (fun q c => filter_by c q) q1 cs) = q_order q1).
        { induction cs as [|c cs IH]; intros q1; simpl; [reflexivity|]. now rewrite IH. }
        destruct (nonempty (STACSearch.query _)), (STACSearch.datetime _), (polygon _);
          rewrite ?Hfold; reflexivity. }
      rewrite Ho. split; [now left|reflexivity]. }
  split; [exact Hsort|]. split; [|split; [|split; [|split; [|split; [|split; [|split]]]]]].
  - intros self base_url tr r q Hp Hin.
    rewrite (post_search_rows_query _ _ _ _ _ _ Hp Hin). exact Hquery.
  - intros self base_url tr resp Hp. eexists. eapply post_search_executes; eauto.
  - intros self db base_url tr resp Hs Hp.
    destruct (post_search_features_rows _ _ _ _ _ _ Hs Hp) as [Hsorted _].
    destruct Hquery as [_ Hcmp].
    induction Hsorted as [|x l _ IH Hall]; constructor; [exact IH|].
    eapply Forall_impl; [exact Hall|]. intros y Hy. unfold row_le in Hy.
    now rewrite Hcmp in Hy.
  - intros c obs a b. rewrite compare_rows_cons. reflexivity.
  - intros c obs a b. rewrite compare_rows_cons. simpl.
    rewrite (value_compare_antisym (column_value c b) (column_value c a)).
    now destruct (value_compare (column_value c a) (column_value c b)).
  - intros a b Hne Hc. apply Hne. exact (compare_rows_id _ _ _ Hid Hc).
  - intros a b. apply compare_rows_antisym.
  - intros a b c. apply compare_rows_trans.
Qed.

Lemma post_search_sort_total_order_witness :
  exists tr resp q,
    post_search (demo_client demo_db []) "http://stac/" sorted_request = (tr, inr resp) /\
    EvRows q ∈ tr /\
    q_order q = [{| oc_column := ColCollection; oc_direction := desc |};
                 {| oc_column := ColDatetime; oc_direction := asc |};
                 {| oc_column := ColId; oc_direction := asc |}] /\
    map (fun f => Item.id f.1) (SearchResponse.features resp) = ["c"; "a"] /\
    StronglySorted
      (fun a b => compare_rows [{| oc_column := ColCollection; oc_direction := desc |};
                                {| oc_column := ColDatetime; oc_direction := asc |};
                                {| oc_column := ColId; oc_direction := asc |}] a b <> Gt)
      (map fst (SearchResponse.features resp)) /\
    compare_rows (q_order q) item_c item_a = Lt /\
    compare_rows (q_order q) item_a item_b = Lt.
Proof.
  destruct (post_search (demo_client demo_db []) "http://stac/" sorted_request)
    as [tr [e|resp]] eqn:Hp; [vm_compute in Hp; discriminate|].
  destruct (post_search_sort_total_order sorted_request)
    as (_ & Hq & Hex & Hsorted & _ & _ & Hne & _).
  destruct (Hex _ _ _ _ Hp) as (q & Hin).
  destruct (Hq _ _ _ _ _ Hp Hin) as [Ho Hcmp].
  exists tr, resp, q. split; [reflexivity|]. split; [exact Hin|].
  assert (Hord : q_order q = [{| oc_column := ColCollection; oc_direction := desc |};
                              {| oc_column := ColDatetime; oc_direction := asc |};
                              {| oc_column := ColId; oc_direction := asc |}]).
  { destruct Ho as [Ho|Ho]; [exact Ho|]. exfalso.
    pose proof (post_search_rows_query _ _ _ _ _ _ Hp Hin) as Hsq. subst q.
    vm_compute in Ho. discriminate. }
  split; [exact Hord|]. split.
  { vm_compute in Hp. injection Hp as _ <-. reflexivity. }
  split; [exact (Hsorted (demo_client demo_db []) demo_db _ _ _ eq_refl Hp)|].
  rewrite Hord. split; reflexivity.
Defined.

(** ** The temporal filter of a search *)

Lemma temporal_policy_eval db interval it :
  interval <> (Open, Open) ->
  three_case_policy interval it = Some (eval_filters db (temporal_clauses interval) it).
Proof.
  intros Hopen. destruct interval as [[|a] [|b]]; simpl; try congruence; f_equal.
  - now rewrite andb_true_r.
  - now rewrite andb_true_r.
  - rewrite andb_true_r.
    destruct (a <=? Item.datetime it)%Z, (Item.datetime it <=? b)%Z; reflexivity.
Qed.

Lemma query_clauses_not_temporal fields :
  Forall (fun c => ~ temporal_clause c) (query_clauses fields).
Proof.
  apply Forall_forall. intros c Hc. unfold query_clauses in Hc.
  apply list_elem_of_In, in_flat_map in Hc as ([name expr] & _ & Hc).
  apply in_map_iff in Hc as ([op v] & <- & _). simpl. tauto.
Qed.

(** C4: for an interval with at most one open end, the temporal clauses
    [post_search] attaches (the two sided filter when no end is open, then a
    one sided filter for each end that is not open) select exactly the items
    of the three case policy.  In a search without ids every query executed
    for rows carries these clauses and no other clause on the timestamp, so
    an item passes its filters exactly when it passes the others and the
    policy holds of it; every item of a returned response satisfies the
    policy, and a search with no other filter, on a store that fits in the
    page, returns exactly the items of the store that satisfy it. *)
Theorem temporal_filter_three_case (search_request : STACSearch.t)
    (interval : endpoint * endpoint) :
  STACSearch.datetime search_request = Some interval ->
  interval <> (Open, Open) ->
  (forall query,
      q_filters (temporal_filter search_request query)
      = q_filters query ++ temporal_clauses interval) /\
  (forall db it,
      three_case_policy interval it
      = Some (eval_filters db (temporal_clauses interval) it)) /\
  (forall query db it,
      eval_filters db (q_filters (temporal_filter search_request query)) it = true <->
      eval_filters db (q_filters query) it = true /\
      three_case_policy interval it = Some true) /\
  (nonempty (STACSearch.ids search_request) = None ->
   (forall self base_url tr r q,
       post_search self base_url search_request = (tr, r) -> EvRows q ∈ tr ->
       exists pre post,
         q_filters q = pre ++ temporal_clauses interval ++ post /\
         Forall (fun c => ~ temporal_clause c) (pre ++ post) /\
         forall db it,
           eval_filters db (q_filters q) it = true <->
           eval_filters db (pre ++ post) it = true /\
           three_case_policy interval it = Some true) /\
   (forall self base_url tr resp,
       post_search self base_url search_request = (tr, inr resp) ->
       exists q, EvRows q ∈ tr) /\
   (forall self db base_url tr resp,
       reader_session self = db_session db ->
       post_search self base_url search_request = (tr, inr resp) ->
       forall it, it ∈ map fst (SearchResponse.features resp) ->
                  three_case_policy interval it = Some true) /\
   (forall self db base_url,
       reader_session self = db_session db ->
       STACSearch.token search_request = None ->
       nonempty (STACSearch.collections search_request) = None ->
       STACSearch.bbox search_request = None ->
       nonempty (STACSearch.query search_request) = None ->
       length (db_items db) <= STACSearch.limit search_request ->
       exists tr resp,
         post_search self base_url search_request = (tr, inr resp) /\
         forall it, it ∈ map fst (SearchResponse.features resp) <->
                    it ∈ db_items db /\ three_case_policy interval it = Some true)).
Proof.
  intros Hd Hopen.
  assert (Hq : forall query, q_filters (temporal_filter search_request query)
                             = q_filters query ++ temporal_clauses interval).
  { intros query. unfold temporal_filter. rewrite Hd. apply q_filters_foldl. }
  assert (Hpol : forall db it, three_case_policy interval it
                               = Some (eval_filters db (temporal_clauses interval) it)).
  { intros db it. now apply temporal_policy_eval. }
  split; [exact Hq|]. split; [exact Hpol|]. split.
  { intros query db it. rewrite Hq, eval_filters_app, andb_true_iff, (Hpol db it).
    split; intros [H1 H2]; split; congruence. }
  intros Hids.
  set (pre := match nonempty (STACSearch.collections search_request) with
              | Some cols => [CollectionIn cols]
              | None => []
              end ++
              match polygon search_request with
              | Some poly => [Intersects poly]
              | None => []
              end).
  set (post := match nonempty (STACSearch.query search_request) with
               | Some fields => query_clauses fields
               | None => []
               end).
  assert (Hf : q_filters (search_query search_request)
               = pre ++ temporal_clauses interval ++ post).
  { rewrite search_query_filters, Hids, Hd. unfold pre, post.
    now rewrite <- !app_assoc. }
  assert (Heval : forall db it,
             eval_filters db (q_filters (search_query search_request)) it = true <->
             eval_filters db (pre ++ post) it = true /\
             three_case_policy interval it = Some true).
  { intros db it. rewrite Hf, !eval_filters_app, !andb_true_iff, (Hpol db it).
    split.
    - intros (H1 & H2 & H3). repeat split; congruence.
    - intros ((H1 & H3) & H2). repeat split; congruence. }
  split; [|split; [|split]].
  - intros self base_url tr r q Hp Hin.
    rewrite (post_search_rows_query _ _ _ _ _ _ Hp Hin).
    exists pre, post. split; [exact Hf|]. split; [|exact Heval].
    apply Forall_app. split.
    + unfold pre. apply Forall_app. split.
      * destruct (nonempty (STACSearch.collections search_request));
          repeat constructor; simpl; tauto.
      * destruct (polygon search_request); repeat constructor; simpl; tauto.
    + unfold post. destruct (nonempty (STACSearch.query search_request));
        [apply query_clauses_not_temporal|constructor].
  - intros self base_url tr resp Hp. eexists. eapply post_search_executes; eauto.
  - intros self db base_url tr resp Hs Hp it Hin.
    destruct (post_search_features_rows _ _ _ _ _ _ Hs Hp) as [_ Hrows].
    apply Hrows, elem_of_result_set in Hin as [_ Hin].
    now apply Heval in Hin.
  - intros self db base_url Hs Ht Hc Hb Hquery Hl.
    assert (Hlen : length (result_set db (search_query search_request))
                   <= STACSearch.limit search_request).
    { rewrite result_set_length.
      etransitivity; [apply length_filter_le|exact Hl]. }
    destruct (post_search_whole self db base_url search_request Hs Ht Hlen)
      as (tr & resp & Hp & Hr).
    exists tr, resp. split; [exact Hp|]. intros it.
    rewrite Hr, elem_of_result_set, Heval. unfold pre, post, polygon.
    rewrite Hc, Hb, Hquery. simpl. tauto.
Qed.

Lemma temporal_filter_three_case_witness :
  (Instant 2%Z, Open) <> (Open, Open) /\
  exists tr resp,
    post_search (demo_client demo_db []) "http://stac/" since_request = (tr, inr resp) /\
    (forall it, it ∈ map fst (SearchResponse.features resp) <->
                it ∈ db_items demo_db /\
                three_case_policy (Instant 2%Z, Open) it = Some true) /\
    item_b ∈ map fst (SearchResponse.features resp) /\
    item_a ∉ map fst (SearchResponse.features resp).
Proof.
  assert (Hopen : (Instant 2%Z, Open) <> (Open, Open)) by discriminate.
  split; [exact Hopen|].
  destruct (temporal_filter_three_case since_request (Instant 2%Z, Open) eq_refl Hopen)
    as (_ & _ & _ & Hsearch).
  destruct (Hsearch eq_refl) as (_ & _ & _ & Hall).
  destruct (Hall (demo_client demo_db []) demo_db "http://stac/"
              eq_refl eq_refl eq_refl eq_refl eq_refl ltac:(vm_compute; lia))
    as (tr & resp & Hp & Hiff).
  exists tr, resp. split; [exact Hp|]. split; [exact Hiff|]. split.
  - apply Hiff. split; [right; left|reflexivity].
  - intros Hin. apply Hiff in Hin as [_ Hin]. vm_compute in Hin. discriminate.
Defined.

(** ** The filter of a search by ids *)

(** C2: a search with a non-empty list of ids filters by the identifier, and
    by the collection when collections are given, and by nothing else: every
    query it executes for rows carries these clauses only, so bbox, datetime
    and query add none.  Every item of a returned response is an item of the
    store whose identifier is requested; and when the store holds no more
    items with a requested identifier than the limit, the first page holds
    exactly those, whatever their geometry, timestamp or properties. *)
Theorem post_search_ids_only_filter (search_request : STACSearch.t) (ids : list string) :
  nonempty (STACSearch.ids search_request) = Some ids ->
  let selected (it : Item.t) : Prop :=
    Item.id it ∈ ids /\
    match nonempty (STACSearch.collections search_request) with
    | Some cols => Item.collection_id it ∈ cols
    | None => True
    end in
  (forall self base_url tr r q,
      post_search self base_url search_request = (tr, r) -> EvRows q ∈ tr ->
      q_filters q = match nonempty (STACSearch.collections search_request) with
                    | Some cols => [CollectionIn cols; IdIn ids]
                    | None => [IdIn ids]
                    end /\
      forall db it, eval_filters db (q_filters q) it = true <-> selected it) /\
  (forall self base_url tr resp,
      post_search self base_url search_request = (tr, inr resp) ->
      exists q, EvRows q ∈ tr) /\
  (forall self db base_url tr resp,
      reader_session self = db_session db ->
      post_search self base_url search_request = (tr, inr resp) ->
      forall it, it ∈ map fst (SearchResponse.features resp) ->
                 it ∈ db_items db /\ selected it) /\
  (forall self db base_url,
      reader_session self = db_session db ->
      STACSearch.token search_request = None ->
      length (filter (fun it => Item.id it ∈ ids) (db_items db))
        <= STACSearch.limit search_request ->
      exists tr resp,
        post_search self base_url search_request = (tr, inr resp) /\
        forall it, it ∈ map fst (SearchResponse.features resp) <->
                   it ∈ db_items db /\ selected it).
Proof.
  intros Hids selected.
  assert (Hf : q_filters (search_query search_request) =
               match nonempty (STACSearch.collections search_request) with
               | Some cols => [CollectionIn cols; IdIn ids]
               | None => [IdIn ids]
               end).
  { rewrite search_query_filters, Hids.
    now destruct (nonempty (STACSearch.collections search_request)). }
  assert (He : forall db it,
             eval_filters db (q_filters (search_query search_request)) it = true <->
             selected it).
  { intros db it. rewrite Hf. unfold selected.
    destruct (nonempty (STACSearch.collections search_request)) as [cols|];
      unfold eval_filters; simpl; rewrite ?andb_true_r, ?andb_true_iff, !string_in_elem_of;
      tauto. }
  split; [|split; [|split]].
  - intros self base_url tr r q Hp Hin.
    rewrite (post_search_rows_query _ _ _ _ _ _ Hp Hin). split; [exact Hf|exact He].
  - intros self base_url tr resp Hp. eexists. eapply post_search_executes; eauto.
  - intros self db base_url tr resp Hs Hp it Hin.
    destruct (post_search_features_rows _ _ _ _ _ _ Hs Hp) as [_ Hrows].
    apply Hrows, elem_of_result_set in Hin as [Hdb Hin].
    split; [exact Hdb|]. now apply He in Hin.
  - intros self db base_url Hs Ht Hl.
    assert (Hlen : length (result_set db (search_query search_request))
                   <= STACSearch.limit search_request).
    { rewrite result_set_length. etransitivity; [|exact Hl].
      apply length_filter_impl. intros it Hit. now apply He in Hit as [Hit _]. }
    destruct (post_search_whole self db base_url search_request Hs Ht Hlen)
      as (tr & resp & Hp & Hr).
    exists tr, resp. split; [exact Hp|]. intros it.
    rewrite Hr, elem_of_result_set, He. tauto.
Qed.

Lemma post_search_ids_only_filter_witness :
  nonempty (STACSearch.ids (ids_request ["a"])) = Some ["a"] /\
  STACSearch.bbox (ids_request ["a"]) = Some (100, 100, 101, 101)%Z /\
  ST_Intersects demo_db (Item.geometry item_a) (100, 100, 101, 101)%Z = false /\
  exists tr resp,
    post_search (demo_client demo_db []) "http://stac/" (ids_request ["a"]) = (tr, inr resp) /\
    item_a ∈ map fst (SearchResponse.features resp) /\
    (item_b ∉ map fst (SearchResponse.features resp)) /\
    (forall q, EvRows q ∈ tr -> q_filters q = [IdIn ["a"]]).
Proof.
  split; [reflexivity|]. split; [reflexivity|]. split; [reflexivity|].
  destruct (post_search_ids_only_filter (ids_request ["a"]) ["a"] eq_refl)
    as (Hq & _ & Hsound & Hall).
  destruct (Hall (demo_client demo_db []) demo_db "http://stac/" eq_refl eq_refl
              ltac:(vm_compute; lia)) as (tr & resp & Hp & Hiff).
  exists tr, resp. split; [exact Hp|]. split; [|split].
  - apply Hiff. split; [left|]. split; [left|exact I].
  - intros Hin. apply Hiff in Hin as (_ & Hin & _).
    apply list_elem_of_singleton in Hin. discriminate.
  - intros q Hin. exact (proj1 (Hq _ _ _ _ _ Hp Hin)).
Defined.

(** ** What the filters of a search mean *)




